(** * immu::vektor — a persistent bit-partitioned vector

    Shallow embedding of [src/immu/vektor.hpp].

    - Nodes live in an allocation-only store ([heap]); a
      [std::shared_ptr<node>] is an optional address ([node_ptr]), the null
      pointer being [None].  [make_node_] ([std::make_shared]) appends one
      cell to the store, so the number of allocations performed by an
      operation is the growth of the store.  Reference-count based release
      of nodes is not modelled.
    - [std::size_t] is a 64-bit and [unsigned] a 32-bit integer, both carried
      in [Z] with the wrap-around written out ([u64], [u32]).
    - An operation returns [Ok] or the reason it does not return: a failed
      [assert], a [bad_variant_access] thrown by [eggs::variant], or
      undefined behaviour (null dereference, out-of-bounds read, over-wide
      shift).  [assert] is compiled in unless [NDEBUG] is defined; the flag
      [checked] says whether it is.
    - Loops and recursions over [level] run on a fuel that the callers set to
      the number of [branching_log] steps in [level]. *)

From Stdlib Require Import ZArith Lia.
From stdpp Require Import base option list.

Local Open Scope Z_scope.

(** ** Outcomes *)

Inductive error : Set :=
| AssertionFailed
| BadVariantAccess
| UndefinedBehaviour
| OutOfFuel.

Inductive result (A : Type) : Type :=
| Ok (a : A)
| Err (e : error).
Arguments Ok {A} a.
Arguments Err {A} e.

Definition rbind {A B} (m : result A) (k : A → result B) : result B :=
  match m with
  | Ok a => k a
  | Err e => Err e
  end.

Notation "'let*' x ':=' m 'in' k" := (rbind m (λ x, k))
  (at level 10, x pattern, m at level 100, k at level 200).

(** ** Machine integers *)

Definition u64 (z : Z) : Z := z mod 2 ^ 64.
Definition u32 (z : Z) : Z := z mod 2 ^ 32.
(** Conversion to [std::ptrdiff_t]. *)
Definition i64 (z : Z) : Z :=
  if u64 z <? 2 ^ 63 then u64 z else u64 z - 2 ^ 64.

Definition branching_log : Z := 5.
Definition branching : Z := Z.shiftl 1 branching_log.
Definition branching_mask : Z := branching - 1.

(** [x >> n] on a [std::size_t]: undefined when [n] is not below the width. *)
Definition shr64 (x n : Z) : result Z :=
  if n <? 64 then Ok (Z.shiftr x n) else Err UndefinedBehaviour.

(** [1u << n] on an [unsigned]. *)
Definition shl32_one (n : Z) : result Z :=
  if n <? 32 then Ok (u32 (Z.shiftl 1 n)) else Err UndefinedBehaviour.

(** Number of iterations of a loop [for (l = level; l; l -= branching_log)]
    when [level] is a multiple of [branching_log]. *)
Definition level_steps (level : Z) : nat := Z.to_nat (level / branching_log).

(** [arr[i]] on a [std::array]. *)
Definition at_index {A} (arr : list A) (i : Z) : result A :=
  if i <? 0 then Err UndefinedBehaviour
  else match arr !! Z.to_nat i with
       | Some x => Ok x
       | None => Err UndefinedBehaviour
       end.

(** ** Nodes, store, vector *)

Abbreviation addr := nat (only parsing).
Abbreviation node_ptr := (option nat) (only parsing).

Inductive node (T : Type) : Type :=
| Leaf (l : list T)
| Inner (cs : list node_ptr).
Arguments Leaf {T} l.
Arguments Inner {T} cs.

Abbreviation heap T := (list (node T)) (only parsing).

(** Allocating operations thread the store. *)
Definition M (T A : Type) : Type := heap T → result (A * heap T).

Definition mret {T A} (a : A) : M T A := λ h, Ok (a, h).
Definition mbind {T A B} (m : M T A) (k : A → M T B) : M T B :=
  λ h, match m h with
       | Ok (a, h') => k a h'
       | Err e => Err e
       end.
Definition lift {T A} (r : result A) : M T A :=
  λ h, match r with Ok a => Ok (a, h) | Err e => Err e end.
Definition reading {T A} (f : heap T → result A) : M T A :=
  λ h, lift (f h) h.

Notation "x <- m ;; k" := (mbind m (λ x, k))
  (at level 100, m at next level, right associativity).
Notation "m ;;; k" := (mbind m (λ _, k))
  (at level 100, right associativity).

Record vektor : Set := mk_vektor
  { size_ : Z;          (* std::size_t *)
    shift_ : Z;         (* unsigned *)
    root_ : node_ptr;
    tail_ : node_ptr }.

(** A [leaf_t::const_iterator]: the leaf it points into and the offset. *)
Record leaf_iterator : Set := mk_leaf_iterator
  { leaf_of : addr;
    offset : Z }.

Record iterator : Set := mk_iterator
  { v_ : vektor;
    i_ : Z;
    base_ : Z;
    curr_ : leaf_iterator }.

Section Vektor.
Context {T : Type} (dflt : T) (checked : bool).

Definition assert_ (b : bool) : result unit :=
  if checked then (if b then Ok tt else Err AssertionFailed) else Ok tt.

(** [*p] *)
Definition deref (h : heap T) (p : node_ptr) : result (node T) :=
  match p with
  | None => Err UndefinedBehaviour
  | Some a => match h !! a with
              | Some n => Ok n
              | None => Err UndefinedBehaviour
              end
  end.

(** [n.inner()] and [n.leaf()] *)
Definition inner (n : node T) : result (list node_ptr) :=
  match n with
  | Inner cs => Ok cs
  | Leaf _ => Err BadVariantAccess
  end.

Definition leaf (n : node T) : result (list T) :=
  match n with
  | Leaf l => Ok l
  | Inner _ => Err BadVariantAccess
  end.

(** [p->leaf()] as a reference: the address of the leaf. *)
Definition leaf_ref (h : heap T) (p : node_ptr) : result addr :=
  let* n := deref h p in
  let* _ := leaf n in
  match p with
  | Some a => Ok a
  | None => Err UndefinedBehaviour
  end.

(** [make_node_] *)
Definition make_node_ (n : node T) : M T node_ptr :=
  λ h, Ok (Some (length h), h ++ [n]).

(** Assignment through a reference into a node that was just made. *)
Definition update_node (p : node_ptr) (f : node T → result (node T))
  : M T unit :=
  λ h, let* n := deref h p in
       let* n' := f n in
       match p with
       | Some a => Ok (tt, <[a := n']> h)
       | None => Err UndefinedBehaviour
       end.

Definition tail_offset_ (v : vektor) : Z :=
  if size_ v <? 32 then 0
  else u64 (Z.shiftl (Z.shiftr (u64 (size_ v - 1)) branching_log)
                     branching_log).

(** The loop of [array_for_]. *)
Fixpoint descend (fuel : nat) (h : heap T) (level : Z) (nd : node_ptr)
                 (index : Z) : result node_ptr :=
  if level =? 0 then Ok nd
  else match fuel with
       | O => Err OutOfFuel
       | S fuel' =>
           let* n := deref h nd in
           let* cs := inner n in
           let* s := shr64 index level in
           let* child := at_index cs (Z.land s branching_mask) in
           descend fuel' h (u32 (level - branching_log)) child index
       end.

Definition array_for_ (h : heap T) (v : vektor) (index : Z) : result addr :=
  let* _ := assert_ (index <? size_ v) in
  if tail_offset_ v <=? index then leaf_ref h (tail_ v)
  else
    let* nd := descend (level_steps (shift_ v)) h (shift_ v) (root_ v) index in
    leaf_ref h nd.

(** Reading slot [off] of the leaf at [a]. *)
Definition read_leaf (h : heap T) (a : addr) (off : Z) : result T :=
  let* n := deref h (Some a) in
  let* l := leaf n in
  at_index l off.

(** [operator[]] *)
Definition at_ (h : heap T) (v : vektor) (index : Z) : result T :=
  let* arr := array_for_ h v index in
  read_leaf h arr (Z.land index branching_mask).

Definition size (v : vektor) : Z := size_ v.
Definition empty (v : vektor) : bool := size_ v =? 0.

Fixpoint make_path_rec (fuel : nat) (level : Z) (nd : node_ptr)
  : M T node_ptr :=
  if level =? 0 then mret nd
  else match fuel with
       | O => lift (Err OutOfFuel)
       | S fuel' =>
           p <- make_path_rec fuel' (u32 (level - branching_log)) nd ;;
           make_node_ (Inner (p :: replicate 31%nat None))
       end.

Definition make_path_ (level : Z) (nd : node_ptr) : M T node_ptr :=
  make_path_rec (level_steps level) level nd.

(** [new_parent[idx] = next_node] *)
Definition set_child (idx : Z) (next : node_ptr) (n : node T)
  : result (node T) :=
  let* cs := inner n in
  let* _ := at_index cs idx in
  Ok (Inner (<[Z.to_nat idx := next]> cs)).

Fixpoint push_tail_rec (fuel : nat) (v : vektor) (level : Z)
                       (parent_ : addr) (tail : node_ptr) : M T node_ptr :=
  match fuel with
  | O => lift (Err OutOfFuel)
  | S fuel' =>
      parent <- reading (λ h, let* n := deref h (Some parent_) in inner n) ;;
      new_parent_node <- make_node_ (Inner parent) ;;
      s <- lift (shr64 (u64 (size_ v - 1)) level) ;;
      let idx := Z.land s branching_mask in
      next_node <-
        (if level =? branching_log then mret tail
         else
           child <- lift (at_index parent idx) ;;
           match child with
           | Some c =>
               reading (λ h, deref h child) ;;;
               push_tail_rec fuel' v (u32 (level - branching_log)) c tail
           | None => make_path_ (u32 (level - branching_log)) tail
           end) ;;
      update_node new_parent_node (set_child idx next_node) ;;;
      mret new_parent_node
  end.

Definition push_tail_ (v : vektor) (level : Z) (parent_ : addr)
                      (tail : node_ptr) : M T node_ptr :=
  push_tail_rec (level_steps level) v level parent_ tail.

(** [(size_ >> branching_log) > (1u << shift_)] *)
Definition root_overflow (v : vektor) : result bool :=
  let* cap := shl32_one (shift_ v) in
  Ok (cap <? Z.shiftr (size_ v) branching_log).

(** [std::copy] of the first [tail_size] slots, then the assignment
    [new_tail[tail_size] = value]. *)
Definition fill_tail (old_tail : list T) (tail_size : Z) (value : T)
                     (n : node T) : result (node T) :=
  let* new_tail := leaf n in
  let copied := take (Z.to_nat tail_size) old_tail
                  ++ drop (Z.to_nat tail_size) new_tail in
  let* _ := at_index copied tail_size in
  Ok (Leaf (<[Z.to_nat tail_size := value]> copied)).

Definition push_back (v : vektor) (value : T) : M T vektor :=
  let tail_size := u64 (size_ v - tail_offset_ v) in
  if tail_size <? branching then
    old_tail <- reading (λ h, let* n := deref h (tail_ v) in leaf n) ;;
    new_tail_node <- make_node_ (Leaf (replicate 32%nat dflt)) ;;
    update_node new_tail_node (fill_tail old_tail tail_size value) ;;;
    mret (mk_vektor (u64 (size_ v + 1)) (shift_ v) (root_ v) new_tail_node)
  else
    new_tail_node <- make_node_ (Leaf (value :: replicate 31%nat dflt)) ;;
    overflow <- lift (root_overflow v) ;;
    if (overflow : bool) then
      path <- make_path_ (shift_ v) (tail_ v) ;;
      new_root <- make_node_ (Inner (root_ v :: path :: replicate 30%nat None)) ;;
      mret (mk_vektor (u64 (size_ v + 1)) (u32 (shift_ v + branching_log))
                      new_root new_tail_node)
    else
      root <- reading (λ h, let* _ := deref h (root_ v) in
                            match root_ v with
                            | Some a => Ok a
                            | None => Err UndefinedBehaviour
                            end) ;;
      new_root <- push_tail_ v (shift_ v) root (tail_ v) ;;
      mret (mk_vektor (u64 (size_ v + 1)) (shift_ v) new_root new_tail_node).

(** *** Cursor *)

(** [p + n] on a pointer into a leaf: defined up to one past the end. *)
Definition ptr_add (c : leaf_iterator) (n : Z) : result leaf_iterator :=
  let o := offset c + n in
  if (0 <=? o) && (o <=? branching)
  then Ok (mk_leaf_iterator (leaf_of c) o)
  else Err UndefinedBehaviour.

(** The constructor of [begin()]. *)
Definition begin (h : heap T) (v : vektor) : result iterator :=
  let* arr := array_for_ h v 0 in
  Ok (mk_iterator v 0 0 (mk_leaf_iterator arr 0)).

(** The constructor of [end()], tagged [end_t]. *)
Definition end_ (h : heap T) (v : vektor) : result iterator :=
  let i := size_ v in
  let base := u64 (i - Z.land i branching_mask) in
  let* arr := array_for_ h v (u64 (i - 1)) in
  let* curr := ptr_add (mk_leaf_iterator arr 0) (u64 (i - base)) in
  Ok (mk_iterator v i base curr).

Definition increment (h : heap T) (it : iterator) : result iterator :=
  let* _ := assert_ (i_ it <? size_ (v_ it)) in
  let i := u64 (i_ it + 1) in
  if u64 (i - base_ it) <? branching then
    let* curr := ptr_add (curr_ it) 1 in
    Ok (mk_iterator (v_ it) i (base_ it) curr)
  else
    let base := u64 (base_ it + branching) in
    let* arr := array_for_ h (v_ it) i in
    Ok (mk_iterator (v_ it) i base (mk_leaf_iterator arr 0)).

Definition decrement (h : heap T) (it : iterator) : result iterator :=
  let* _ := assert_ (0 <? i_ it) in
  let i := u64 (i_ it - 1) in
  if base_ it <=? i then
    let* curr := ptr_add (curr_ it) (-1) in
    Ok (mk_iterator (v_ it) i (base_ it) curr)
  else
    let base := u64 (base_ it - branching) in
    let* arr := array_for_ h (v_ it) i in
    let* curr := ptr_add (mk_leaf_iterator arr branching) (-1) in
    Ok (mk_iterator (v_ it) i base curr).

(** [advance(std::ptrdiff_t n)] *)
Definition advance (h : heap T) (it : iterator) (n : Z) : result iterator :=
  let* _ := assert_ ((n <=? 0) || (u64 (i_ it + u64 n) <=? size_ (v_ it))) in
  let* _ := assert_ ((0 <=? n) || (u64 (- n) <=? i_ it)) in
  let i := u64 (i_ it + n) in
  if (i <=? base_ it) && (u64 (i - base_ it) <? branching) then
    let* curr := ptr_add (curr_ it) n in
    Ok (mk_iterator (v_ it) i (base_ it) curr)
  else
    let base := u64 (i - Z.land i branching_mask) in
    let* arr := array_for_ h (v_ it) i in
    let* curr := ptr_add (mk_leaf_iterator arr 0) (u64 (i - base)) in
    Ok (mk_iterator (v_ it) i base curr).

Definition equal (it other : iterator) : bool := i_ it =? i_ other.

Definition distance_to (it other : iterator) : Z :=
  if i_ it <? i_ other then i64 (u64 (i_ other - i_ it))
  else i64 (- i64 (u64 (i_ it - i_ other))).

Definition dereference (h : heap T) (it : iterator) : result T :=
  read_leaf h (leaf_of (curr_ it)) (offset (curr_ it)).

(** The advance-by-n algorithm in the words of the specification, to be
    compared with [advance]: [i += n]; if [base <= i] and [i - base < B]
    step [curr] by [n], else recompute [base] and [curr]. *)
Definition advance_spec (h : heap T) (it : iterator) (n : Z)
  : result iterator :=
  let i := i_ it + n in
  if (base_ it <=? i) && (i - base_ it <? branching) then
    let* curr := ptr_add (curr_ it) n in
    Ok (mk_iterator (v_ it) i (base_ it) curr)
  else
    let base := i - Z.land i branching_mask in
    let* arr := array_for_ h (v_ it) i in
    let* curr := ptr_add (mk_leaf_iterator arr 0) (i - base) in
    Ok (mk_iterator (v_ it) i base curr).

(** The client loop [for (it = first; it != last; ++it) out.push_back( *it )]. *)
Fixpoint collect (fuel : nat) (h : heap T) (it last : iterator)
  : result (list T) :=
  if equal it last then Ok []
  else match fuel with
       | O => Err OutOfFuel
       | S fuel' =>
           let* x := dereference h it in
           let* it' := increment h it in
           let* xs := collect fuel' h it' last in
           Ok (x :: xs)
       end.

Definition forward_iteration (h : heap T) (v : vektor) : result (list T) :=
  let* first := begin h v in
  let* last := end_ h v in
  collect (Z.to_nat (size_ v)) h first last.

(** The same loop over [std::reverse_iterator<iterator>]: a reverse
    iterator holds a base iterator [current]; dereferencing reads the
    element before [current], incrementing decrements [current]. *)
Definition rbegin (h : heap T) (v : vektor) : result iterator := end_ h v.
Definition rend (h : heap T) (v : vektor) : result iterator := begin h v.

Definition reverse_dereference (h : heap T) (current : iterator) : result T :=
  let* tmp := decrement h current in
  dereference h tmp.

Fixpoint rcollect (fuel : nat) (h : heap T) (it last : iterator)
  : result (list T) :=
  if equal it last then Ok []
  else match fuel with
       | O => Err OutOfFuel
       | S fuel' =>
           let* x := reverse_dereference h it in
           let* it' := decrement h it in
           let* xs := rcollect fuel' h it' last in
           Ok (x :: xs)
       end.

Definition reverse_iteration (h : heap T) (v : vektor) : result (list T) :=
  let* first := rbegin h v in
  let* last := rend h v in
  rcollect (Z.to_nat (size_ v)) h first last.

(** The statically initialised nodes [empty_inner_], [empty_leaf_] and the
    vector [empty_], in their order of definition. *)
Definition static_heap : heap T :=
  [Inner (replicate 32%nat None); Leaf (replicate 32%nat dflt)].
Definition empty_inner_ : node_ptr := Some 0%nat.
Definition empty_leaf_ : node_ptr := Some 1%nat.
Definition empty_ : vektor := mk_vektor 0 branching_log empty_inner_ empty_leaf_.

(** Repeated [push_back]. *)
Fixpoint push_all (v : vektor) (xs : list T) : M T vektor :=
  match xs with
  | [] => mret v
  | x :: xs' => v' <- push_back v x ;; push_all v' xs'
  end.

Definition from_list (xs : list T) : result (vektor * heap T) :=
  push_all empty_ xs static_heap.

End Vektor.

(** ** Concrete inputs *)

Definition zs (n : nat) : list Z := Z.of_nat <$> seq 0 n.

(** The vector of [int] obtained by appending [0 .. n-1] to the empty one. *)
Definition appended (n : nat) : result (vektor * heap Z) := from_list 0 (zs n).

(** Appending [n] to [appended n] takes the root-overflow branch and moves
    [shift_] from [branching_log] to [2 * branching_log]. *)
Definition root_overflow_at (n : nat) : Prop :=
  ∃ v h v' h',
    appended n = Ok (v, h) ∧ push_back 0 v (Z.of_nat n) h = Ok (v', h') ∧
    root_overflow v = Ok true ∧
    shift_ v = branching_log ∧ shift_ v' = 2 * branching_log.

(** The vector and the store of an outcome. *)
Definition vektor_of (r : result (vektor * heap Z)) : vektor :=
  match r with
  | Ok (v, _) => v
  | Err _ => empty_
  end.
Definition heap_of (r : result (vektor * heap Z)) : heap Z :=
  match r with
  | Ok (_, h) => h
  | Err _ => []
  end.

(** The vector [10, 20, 30] and the result of appending 999 to it. *)
Definition vektor3 : vektor := vektor_of (from_list 0 [10; 20; 30]).
Definition heap3 : heap Z := heap_of (from_list 0 [10; 20; 30]).
Definition vektor4 : vektor := vektor_of (push_back 0 vektor3 999 heap3).
Definition heap4 : heap Z := heap_of (push_back 0 vektor3 999 heap3).

(** A second append, 555, to the vector [10, 20, 30], made after the
    append of 999. *)
Definition vektor5 : vektor := vektor_of (push_back 0 vektor3 555 heap4).
Definition heap5 : heap Z := heap_of (push_back 0 vektor3 555 heap4).

(** The vector [0 .. 31], the result of appending 32 to it, and two cursors
    over it: at the last element and at the first. *)
Definition vektor32 : vektor := vektor_of (appended 32).
Definition heap32 : heap Z := heap_of (appended 32).
Definition vektor33 : vektor := vektor_of (push_back 0 vektor32 32 heap32).
Definition heap33 : heap Z := heap_of (push_back 0 vektor32 32 heap32).
Definition cursor31 : iterator :=
  mk_iterator vektor32 31 0 (mk_leaf_iterator 33%nat 31).
Definition cursor0 : iterator :=
  mk_iterator vektor32 0 0 (mk_leaf_iterator 33%nat 0).

(** What the append of [n] to [appended n] does with the root: the branch
    taken and [shift_] before and after. *)
Definition overflow_check (n : nat) : result (bool * Z * Z) :=
  let* r := appended n in
  let* ov := root_overflow (fst r) in
  let* r' := push_back 0 (fst r) (Z.of_nat n) (snd r) in
  Ok (ov, shift_ (fst r), shift_ (fst r')).

(** ** Representation invariants *)

(** Number of elements below a node whose children sit [d] levels above the
    leaves: [branching ^ (d + 1)]. *)
Fixpoint cap (d : nat) : Z :=
  match d with
  | O => branching
  | S d' => branching * cap d'
  end.

Definition len {A} (l : list A) : Z := Z.of_nat (length l).

Definition slice {A} (l : list A) (start n : Z) : list A :=
  take (Z.to_nat n) (drop (Z.to_nat start) l).

(** [rep h d p ys]: in store [h], [p] is a tree of depth [d] (a leaf when
    [d = 0]) whose leaves, all full, hold [ys] from left to right; child
    slots past the last element are null. *)
Fixpoint rep {T} (h : heap T) (d : nat) (p : node_ptr) (ys : list T) : Prop :=
  match d with
  | O => ∃ a, p = Some a ∧ h !! a = Some (Leaf ys) ∧ len ys = branching
  | S d' =>
      ∃ a cs, p = Some a ∧ h !! a = Some (Inner cs) ∧ len cs = branching ∧
        len ys ≤ cap (S d') ∧
        ∀ j : Z, 0 ≤ j < branching →
          if j * cap d' <? len ys
          then ∃ c, cs !! Z.to_nat j = Some c ∧
                    rep h d' c (slice ys (j * cap d') (cap d'))
          else cs !! Z.to_nat j = Some None
  end.

(** The tail offset as a function of the number of elements. *)
Definition toff (n : Z) : Z :=
  if n <? 32 then 0 else (n - 1) / 32 * 32.

(** [vektor_inv h v xs]: in store [h], [v] holds the sequence [xs]. *)
Definition vektor_inv {T} (h : heap T) (v : vektor) (xs : list T) : Prop :=
  size_ v = len xs ∧
  ∃ d : nat,
    (1 ≤ d ≤ 7)%nat ∧
    shift_ v = branching_log * Z.of_nat d ∧
    rep h d (root_ v) (take (Z.to_nat (toff (len xs))) xs) ∧
    toff (len xs) ≤ cap d ∧
    (d = 1%nat ∨ cap (d - 1) < toff (len xs)) ∧
    ∃ a l, tail_ v = Some a ∧ h !! a = Some (Leaf l) ∧ len l = branching ∧
           take (Z.to_nat (len xs - toff (len xs))) l
           = drop (Z.to_nat (toff (len xs))) xs.

(** [cursor_at h v xs it i]: [it] is a cursor over [v] at index [i] whose
    base is the start of the block of [i]; unless [i] is the end position at
    a block boundary, [curr_] points at slot [i mod 32] of a leaf that holds
    the elements of that block. *)
Definition cursor_at {T} (h : heap T) (v : vektor) (xs : list T)
                     (it : iterator) (i : Z) : Prop :=
  v_ it = v ∧ i_ it = i ∧ base_ it = i - i mod 32 ∧
  (i mod 32 ≠ 0 ∨ i < len xs →
   offset (curr_ it) = i mod 32 ∧
   ∃ l, h !! leaf_of (curr_ it) = Some (Leaf l) ∧ len l = branching ∧
        ∀ (j : nat) y, Z.of_nat j / 32 = i / 32 → xs !! j = Some y →
                       l !! Z.to_nat (Z.of_nat j mod 32) = Some y).

(** The cursor that [begin() + i] denotes: at index [i], based at the start
    of the block of [i], pointing at slot [i mod 32] of the leaf that
    [array_for_] returns for [i]. *)
Definition cursor_of {T} (checked : bool) (h : heap T) (v : vektor) (i : Z)
  : result iterator :=
  let* arr := array_for_ checked h v i in
  Ok (mk_iterator v i (i - i mod 32) (mk_leaf_iterator arr (i mod 32))).

(** [s] is the least multiple [branching_log * k] with [k ≥ lo] whose tree
    capacity [branching ^ (k + 1)] covers [t]. *)
Definition least_shift (lo : nat) (t s : Z) : Prop :=
  ∃ k : nat,
    s = branching_log * Z.of_nat k ∧ (lo ≤ k)%nat ∧
    t ≤ branching ^ (Z.of_nat k + 1) ∧
    ∀ k' : nat, (lo ≤ k')%nat → t ≤ branching ^ (Z.of_nat k' + 1) → (k ≤ k')%nat.

(** [ceil (log_B n)] for [B = 2 ^ branching_log]. *)
Definition ceil_log_branching (n : Z) : Z :=
  (Z.log2_up n + (branching_log - 1)) / branching_log.

(** Largest number of elements [push_back] can build before [1u << shift_]
    is evaluated with [shift_ = 35]. *)
Definition max_size : Z := 2 ^ 35 + 64.

(** Every cell of [h] is found unchanged in [H]. *)
Definition heap_incl {T} (h H : heap T) : Prop :=
  ∀ a n, h !! a = Some n → H !! a = Some n.

(** [H] has the cells that an operation taking [h] to [h'] allocated. *)
Definition has_fresh {T} (h h' H : heap T) : Prop :=
  ∀ a, (length h ≤ a < length h')%nat → H !! a = h' !! a.

(** Closed goals over concrete inputs are settled by evaluation. *)
Ltac concrete :=
  first [ vm_compute; reflexivity
        | vm_compute; discriminate
        | split; concrete ].

(** * Proofs *)

(** ** Arithmetic *)

Lemma u64_small z : 0 ≤ z < 2 ^ 64 → u64 z = z.
Proof. intros. unfold u64. by apply Z.mod_small. Qed.

Lemma u32_small z : 0 ≤ z < 2 ^ 32 → u32 z = z.
Proof. intros. unfold u32. by apply Z.mod_small. Qed.

Lemma shiftr_log x : Z.shiftr x branching_log = x / 32.
Proof. unfold branching_log. by rewrite Z.shiftr_div_pow2. Qed.

Lemma shiftl_log x : Z.shiftl x branching_log = x * 32.
Proof. unfold branching_log. by rewrite Z.shiftl_mul_pow2. Qed.

Lemma land_mask x : Z.land x branching_mask = x mod 32.
Proof. change branching_mask with (Z.ones 5). by rewrite Z.land_ones. Qed.

Lemma branching_eq : branching = 32.
Proof. reflexivity. Qed.

Lemma cap_pos d : 32 ≤ cap d.
Proof. induction d; simpl; rewrite ?branching_eq; lia. Qed.

Lemma cap_pow d : cap d = 2 ^ (branching_log * Z.of_nat (S d)).
Proof.
  unfold branching_log. induction d as [|d IH].
  - reflexivity.
  - change (cap (S d)) with (32 * cap d). rewrite IH.
    replace (5 * Z.of_nat (S (S d))) with (5 + 5 * Z.of_nat (S d)) by lia.
    rewrite Z.pow_add_r by lia. reflexivity.
Qed.

Lemma cap_mod d : cap d mod 32 = 0.
Proof.
  destruct d; simpl; rewrite branching_eq; [reflexivity|].
  by rewrite Z.mul_comm, Z.mod_mul.
Qed.

Lemma cap_le_7 d : (d ≤ 7)%nat → cap d ≤ 2 ^ 40.
Proof.
  intros Hd. do 8 (destruct d as [|d]; [vm_compute; congruence|]). lia.
Qed.

Lemma shiftr_level x d :
  Z.shiftr x (branching_log * Z.of_nat (S d)) = x / cap d.
Proof. rewrite Z.shiftr_div_pow2 by (unfold branching_log; lia). by rewrite cap_pow. Qed.

(** The child index selected at a level: digit [j] of [x] in base 32. *)
Lemma digit_eq c q j r x :
  0 < c → 0 ≤ r < c → 0 ≤ j < 32 → x = (q * 32 + j) * c + r →
  (x / c) mod 32 = j.
Proof.
  intros Hc Hr Hj ->.
  rewrite <- (Z.div_unique ((q * 32 + j) * c + r) c (q * 32 + j) r) by lia.
  rewrite Z.add_comm, Z.mod_add by lia. by apply Z.mod_small.
Qed.

Lemma toff_spec n :
  0 ≤ n → 0 ≤ toff n ≤ n ∧ toff n mod 32 = 0 ∧ n - toff n ≤ 32 ∧
          (0 < n → toff n < n).
Proof.
  intros Hn. unfold toff. destruct (Z.ltb_spec n 32); [repeat split; lia|].
  pose proof (Z.div_mod (n - 1) 32 ltac:(lia)).
  pose proof (Z.mod_pos_bound (n - 1) 32 ltac:(lia)).
  repeat split; try lia. by rewrite Z.mod_mul.
Qed.

Lemma toff_succ_room n :
  0 ≤ n → n - toff n < 32 → toff (n + 1) = toff n.
Proof.
  intros Hn Hroom. unfold toff in *.
  destruct (Z.ltb_spec n 32), (Z.ltb_spec (n + 1) 32); try lia.
  - assert (n = 31) as -> by lia. reflexivity.
  - replace (n + 1 - 1) with (n - 1 + 1) by lia.
    pose proof (Z.div_mod (n - 1) 32 ltac:(lia)).
    pose proof (Z.mod_pos_bound (n - 1) 32 ltac:(lia)).
    f_equal. symmetry.
    apply (Z.div_unique (n - 1 + 1) 32 ((n - 1) / 32) ((n - 1) mod 32 + 1)); lia.
Qed.

Lemma toff_succ_full n :
  0 ≤ n → n - toff n = 32 → toff (n + 1) = n.
Proof.
  intros Hn Hfull. unfold toff in *.
  destruct (Z.ltb_spec n 32), (Z.ltb_spec (n + 1) 32); try lia.
  replace (n + 1 - 1) with n by lia.
  pose proof (Z.div_mod (n - 1) 32 ltac:(lia)).
  pose proof (Z.mod_pos_bound (n - 1) 32 ltac:(lia)).
  rewrite <- (Z.div_unique n 32 ((n - 1) / 32 + 1) 0); lia.
Qed.

Lemma mod32_bound x c : 0 ≤ x < c → x mod 32 = 0 → c mod 32 = 0 → x + 32 ≤ c.
Proof.
  intros Hx Hx0 Hc0.
  pose proof (Z.div_mod x 32 ltac:(lia)). pose proof (Z.div_mod c 32 ltac:(lia)).
  lia.
Qed.

Lemma mod32_succ i :
  0 ≤ i → i mod 32 < 31 → (i + 1) mod 32 = i mod 32 + 1 ∧ (i + 1) / 32 = i / 32.
Proof.
  intros Hi Hlt. pose proof (Z.div_mod i 32 ltac:(lia)).
  pose proof (Z.mod_pos_bound i 32 ltac:(lia)). split; symmetry.
  - apply (Z.mod_unique _ _ (i / 32)); lia.
  - apply (Z.div_unique _ _ _ (i mod 32 + 1)); lia.
Qed.

Lemma mod32_succ_wrap i :
  0 ≤ i → i mod 32 = 31 → (i + 1) mod 32 = 0 ∧ (i + 1) / 32 = i / 32 + 1.
Proof.
  intros Hi Heq. pose proof (Z.div_mod i 32 ltac:(lia)). split; symmetry.
  - apply (Z.mod_unique _ _ (i / 32 + 1)); lia.
  - apply (Z.div_unique _ _ _ 0); lia.
Qed.

Lemma mod32_pred i :
  0 < i → i mod 32 ≠ 0 → (i - 1) mod 32 = i mod 32 - 1 ∧ (i - 1) / 32 = i / 32.
Proof.
  intros Hi Hne. pose proof (Z.div_mod i 32 ltac:(lia)).
  pose proof (Z.mod_pos_bound i 32 ltac:(lia)). split; symmetry.
  - apply (Z.mod_unique _ _ (i / 32)); lia.
  - apply (Z.div_unique _ _ _ (i mod 32 - 1)); lia.
Qed.

Lemma mod32_pred_wrap i :
  0 < i → i mod 32 = 0 → (i - 1) mod 32 = 31 ∧ (i - 1) / 32 = i / 32 - 1 ∧ 32 ≤ i.
Proof.
  intros Hi Heq. pose proof (Z.div_mod i 32 ltac:(lia)). split; [|split].
  - symmetry. apply (Z.mod_unique _ _ (i / 32 - 1)); lia.
  - symmetry. apply (Z.div_unique _ _ _ 31); lia.
  - lia.
Qed.

Lemma cap_branching d : cap d = branching ^ (Z.of_nat d + 1).
Proof.
  induction d as [|d IH]; [reflexivity|].
  change (cap (S d)) with (branching * cap d). rewrite IH.
  replace (Z.of_nat (S d) + 1) with (Z.succ (Z.of_nat d + 1)) by lia.
  rewrite Z.pow_succ_r by lia. reflexivity.
Qed.

Lemma branching_pow k : 0 ≤ k → branching ^ k = 2 ^ (branching_log * k).
Proof. intros. rewrite Z.pow_mul_r by (unfold branching_log; lia). reflexivity. Qed.

Lemma ceil_log_nonneg n : 0 ≤ ceil_log_branching n.
Proof.
  unfold ceil_log_branching, branching_log.
  pose proof (Z.log2_up_nonneg n). apply Z.div_pos; lia.
Qed.

Lemma ceil_log_lower k n :
  0 ≤ k → branching ^ k < n → k + 1 ≤ ceil_log_branching n.
Proof.
  intros Hk Hlt. rewrite branching_pow in Hlt by done.
  assert (0 < n) as Hn by (pose proof (Z.pow_pos_nonneg 2 (branching_log * k));
                           unfold branching_log in *; lia).
  apply Z.log2_up_lt_pow2 in Hlt; [|done].
  unfold ceil_log_branching, branching_log in *.
  apply Z.div_le_lower_bound; lia.
Qed.

(** [ceil_log_branching n] is the least exponent [k] with [n ≤ branching ^ k]. *)
Lemma ceil_log_spec n :
  1 ≤ n →
  n ≤ branching ^ ceil_log_branching n ∧
  ∀ k, 0 ≤ k → n ≤ branching ^ k → ceil_log_branching n ≤ k.
Proof.
  intros Hn. pose proof (ceil_log_nonneg n) as Hc. split.
  - rewrite branching_pow by done.
    apply Z.log2_up_le_pow2; [lia|].
    unfold ceil_log_branching, branching_log.
    pose proof (Z.div_mod (Z.log2_up n + (5 - 1)) 5 ltac:(lia)).
    pose proof (Z.mod_pos_bound (Z.log2_up n + (5 - 1)) 5 ltac:(lia)). lia.
  - intros k Hk Hle. rewrite branching_pow in Hle by done.
    apply Z.log2_up_le_pow2 in Hle; [|lia].
    unfold ceil_log_branching, branching_log in *.
    assert ((Z.log2_up n + (5 - 1)) / 5 < k + 1)
      by (apply Z.div_lt_upper_bound; lia).
    lia.
Qed.

(** ** Lists and stores *)

Section Lists.
Context {A : Type}.
Implicit Types l ys : list A.

Lemma len_app l k : len (l ++ k) = len l + len k.
Proof. unfold len. rewrite length_app. lia. Qed.

Lemma len_nonneg l : 0 ≤ len l.
Proof. unfold len. lia. Qed.

Lemma at_index_ok l i x :
  0 ≤ i → l !! Z.to_nat i = Some x → at_index l i = Ok x.
Proof.
  intros Hi Hx. unfold at_index.
  destruct (Z.ltb_spec i 0); [lia|]. by rewrite Hx.
Qed.

Lemma len_slice ys start n :
  0 ≤ start → 0 ≤ n → len (slice ys start n) = Z.min n (Z.max 0 (len ys - start)).
Proof.
  intros. unfold slice, len. rewrite length_take, length_drop. lia.
Qed.

Lemma slice_lookup ys start n k :
  0 ≤ start → 0 ≤ k < n →
  slice ys start n !! Z.to_nat k = ys !! Z.to_nat (start + k).
Proof.
  intros. unfold slice. rewrite lookup_take_lt by lia.
  rewrite lookup_drop. f_equal. lia.
Qed.

Lemma slice_all ys n : len ys ≤ n → slice ys 0 n = ys.
Proof.
  intros. unfold slice. rewrite drop_0. apply take_ge. unfold len in *. lia.
Qed.

Lemma slice_app_l ys l start n :
  0 ≤ start → 0 ≤ n → start + n ≤ len ys →
  slice (ys ++ l) start n = slice ys start n.
Proof.
  intros. unfold slice, len in *.
  rewrite drop_app, take_app, length_drop.
  replace (Z.to_nat n - (length ys - Z.to_nat start))%nat with 0%nat by lia.
  by rewrite take_0, app_nil_r.
Qed.

Lemma slice_app_r ys l start n :
  0 ≤ start ≤ len ys → len ys - start + len l ≤ n →
  slice (ys ++ l) start n = slice ys start n ++ l.
Proof.
  intros. unfold slice, len in *.
  rewrite drop_app, take_app, length_drop.
  replace (Z.to_nat start - length ys)%nat with 0%nat by lia.
  rewrite drop_0. f_equal. apply take_ge. lia.
Qed.

Lemma slice_slice ys s1 n1 s2 n2 :
  0 ≤ s1 → 0 ≤ s2 → 0 ≤ n2 → s2 + n2 ≤ n1 →
  slice (slice ys s1 n1) s2 n2 = slice ys (s1 + s2) n2.
Proof.
  intros. unfold slice. apply list_eq. intros i.
  rewrite !lookup_take, !lookup_drop, lookup_take, lookup_drop.
  repeat case_decide; try lia; try done. f_equal. lia.
Qed.

Lemma slice_end ys l n :
  len l ≤ n → slice (ys ++ l) (len ys) n = l.
Proof.
  intros. unfold slice, len in *. rewrite Nat2Z.id, drop_app_length.
  apply take_ge. lia.
Qed.
End Lists.

Section Stores.
Context {T : Type}.
Implicit Types (h H : heap T) (ys : list T) (p : node_ptr).

Lemma prefix_heap_incl h H : h `prefix_of` H → heap_incl h H.
Proof. intros [k ->] a n Ha. by apply lookup_app_l_Some. Qed.

Lemma prefix_insert_fresh h H a n :
  h `prefix_of` H → (length h ≤ a)%nat → h `prefix_of` <[a := n]> H.
Proof.
  intros [k ->] Ha. rewrite insert_app_r_alt by done. by eexists.
Qed.

Lemma rep_mono d : ∀ h H p ys, heap_incl h H → rep h d p ys → rep H d p ys.
Proof.
  induction d as [|d IH]; intros h H p ys Hincl; simpl.
  - intros (a & -> & Ha & Hlen). exists a. eauto.
  - intros (a & cs & -> & Ha & Hcs & Hlen & Hch).
    exists a, cs. repeat split; eauto.
    intros j Hj. specialize (Hch j Hj).
    destruct (j * cap d <? len ys); [|done].
    destruct Hch as (c & Hc & Hrep). exists c. eauto.
Qed.

Lemma descend_0 fuel h nd i : descend fuel h 0 nd i = Ok nd.
Proof. by destruct fuel. Qed.

Lemma descend_S fuel h level nd i :
  level ≠ 0 →
  descend (S fuel) h level nd i =
    let* n := deref h nd in
    let* cs := inner n in
    let* s := shr64 i level in
    let* child := at_index cs (Z.land s branching_mask) in
    descend fuel h (u32 (level - branching_log)) child i.
Proof. intros Hl. simpl. by destruct (Z.eqb_spec level 0). Qed.

Lemma level_pred d :
  (S d ≤ 12)%nat →
  u32 (branching_log * Z.of_nat (S d) - branching_log)
  = branching_log * Z.of_nat d.
Proof. intros. unfold branching_log. rewrite u32_small; lia. Qed.

(** The loop of [array_for_] reaches the leaf that holds the element: the
    block of 32 elements around it. *)
Lemma descend_rep d : ∀ h p ys i q k,
  rep h d p ys → (d ≤ 12)%nat → 0 ≤ q → 0 ≤ k < len ys → i = q * cap d + k →
  ∃ a l, descend d h (branching_log * Z.of_nat d) p i = Ok (Some a) ∧
         h !! a = Some (Leaf l) ∧ len l = branching ∧
         l = slice ys (k - k mod 32) 32.
Proof.
  induction d as [|d IH]; intros h p ys i q k Hrep Hd Hq Hk Hi.
  - destruct Hrep as (a & -> & Ha & Hlen). exists a, ys.
    rewrite Z.mul_0_r, descend_0. repeat split; try done.
    rewrite branching_eq in *.
    rewrite Z.mod_small, Z.sub_diag, slice_all by lia. done.
  - destruct Hrep as (a & cs & -> & Ha & Hcs & Hlen & Hch).
    change (cap (S d)) with (branching * cap d) in *. rewrite branching_eq in *.
    pose proof (cap_pos d) as Hcap. pose proof (cap_mod d) as Hcapm.
    pose proof (Z.div_mod k (cap d) ltac:(lia)) as Hdm.
    pose proof (Z.mod_pos_bound k (cap d) ltac:(lia)) as Hmb.
    set (j := k / cap d) in *. set (r := k mod cap d) in *.
    assert (0 ≤ j < 32) as Hj by (split; [apply Z.div_pos; lia | nia]).
    specialize (Hch j Hj).
    destruct (Z.ltb_spec (j * cap d) (len ys)); [|lia].
    destruct Hch as (c & Hc & Hrepc).
    rewrite descend_S by (unfold branching_log; lia).
    unfold deref. rewrite Ha. cbn [rbind inner].
    unfold shr64. destruct (Z.ltb_spec (branching_log * Z.of_nat (S d)) 64);
      [|unfold branching_log in *; lia].
    cbn [rbind]. rewrite shiftr_level, land_mask.
    rewrite (digit_eq (cap d) q j r i) by lia.
    rewrite (at_index_ok cs j c) by (done || lia). cbn [rbind].
    rewrite level_pred by done.
    destruct (IH h c (slice ys (j * cap d) (cap d)) i (q * 32 + j) r)
      as (a' & l & Hdesc & Ha' & Hl & Hblock); try done; try lia.
    { rewrite len_slice by lia. lia. }
    exists a', l. repeat split; try done.
    pose proof (Z.mod_pos_bound r 32 ltac:(lia)) as Hr32.
    assert (k mod 32 = r mod 32) as Hkr.
    { pose proof (Z.div_mod (cap d) 32 ltac:(lia)) as Hc32.
      rewrite Hdm. replace (cap d * j + r) with (r + (cap d / 32 * j) * 32) by lia.
      apply Z.mod_add. lia. }
    assert (r - r mod 32 + 32 ≤ cap d) as Hfit.
    { pose proof (Z.div_mod r 32 ltac:(lia)) as Hr.
      apply (mod32_bound (r - r mod 32) (cap d)); [lia| |done].
      replace (r - r mod 32) with (r / 32 * 32) by lia. apply Z.mod_mul. lia. }
    assert (0 ≤ j * cap d) by nia.
    pose proof (Z.mod_le r 32 ltac:(lia) ltac:(lia)).
    rewrite Hblock, slice_slice by lia. f_equal. lia.
Qed.
End Stores.

(** ** Allocating operations *)

Section Allocation.
Context {T : Type}.
Implicit Types (g h H : heap T) (ys l : list T) (p tl : node_ptr).

Lemma mbind_ok {A B} (m : M T A) (k : A → M T B) h a h' :
  m h = Ok (a, h') → mbind m k h = k a h'.
Proof. intros Hm. unfold mbind. by rewrite Hm. Qed.

Lemma level_steps_mul d : level_steps (branching_log * Z.of_nat d) = d.
Proof.
  unfold level_steps, branching_log.
  rewrite Z.mul_comm, Z.div_mul by lia. apply Nat2Z.id.
Qed.

Lemma has_fresh_shrink h h1 h' H :
  h1 `prefix_of` h' → has_fresh h h' H → has_fresh h h1 H.
Proof.
  intros [k ->] Hf a Ha. rewrite Hf.
  - by rewrite lookup_app_l by lia.
  - rewrite length_app. lia.
Qed.

Lemma make_path_rec_0 fuel p : make_path_rec (T:=T) fuel 0 p = mret p.
Proof. by destruct fuel. Qed.

Lemma make_path_rec_S fuel level p :
  level ≠ 0 →
  make_path_rec (T:=T) (S fuel) level p =
    (p' <- make_path_rec fuel (u32 (level - branching_log)) p ;;
     make_node_ (Inner (p' :: replicate 31%nat None))).
Proof. intros Hl. simpl. by destruct (Z.eqb_spec level 0). Qed.

(** [make_path_] wraps a leaf in one single-child inner node per level. *)
Lemma make_path_rec_spec d : ∀ g h tl l,
  (d ≤ 12)%nat → rep g 0 tl l →
  ∃ p' h', make_path_rec d (branching_log * Z.of_nat d) tl h = Ok (p', h') ∧
    h `prefix_of` h' ∧ length h' = (length h + d)%nat ∧
    ∀ H, heap_incl g H → has_fresh h h' H → rep H d p' l.
Proof.
  induction d as [|d IH]; intros g h tl l Hd Hl.
  - exists tl, h. rewrite Z.mul_0_r, make_path_rec_0.
    repeat split; [done|lia|]. intros H Hg _. by apply (rep_mono 0 g).
  - destruct (IH g h tl l ltac:(lia) Hl) as (p1 & h1 & Hrun & Hpre & Hlen & Hrep).
    rewrite make_path_rec_S by (unfold branching_log; lia).
    rewrite level_pred by done. rewrite (mbind_ok _ _ _ _ _ Hrun).
    eexists _, _. split; [reflexivity|].
    split; [etrans; [exact Hpre | by apply prefix_app_r]|].
    split; [rewrite length_app; simpl; lia|].
    intros H Hg Hf.
    assert (len l = 32) as Hl32 by (by destruct Hl as (? & _ & _ & ?)).
    pose proof (cap_pos d) as Hcap.
    exists (length h1), (p1 :: replicate 31%nat None).
    split; [done|]. split.
    { rewrite Hf by (rewrite length_app; simpl; lia).
      by rewrite lookup_app_r, Nat.sub_diag by lia. }
    split; [reflexivity|]. split.
    { change (cap (S d)) with (branching * cap d). rewrite branching_eq. lia. }
    intros j Hj. rewrite branching_eq in Hj.
    destruct (Z.ltb_spec (j * cap d) (len l)).
    + assert (j = 0) as -> by nia. exists p1. split; [done|].
      rewrite slice_all by lia. apply Hrep; [done|].
      eapply has_fresh_shrink; [|exact Hf]. by apply prefix_app_r.
    + rewrite lookup_cons_ne_0 by lia. apply lookup_replicate_2. lia.
Qed.

Lemma push_tail_rec_S fuel v level parent_ tl :
  push_tail_rec (T:=T) (S fuel) v level parent_ tl =
    (parent <- reading (λ h, let* n := deref h (Some parent_) in inner n) ;;
     new_parent_node <- make_node_ (Inner parent) ;;
     s <- lift (shr64 (u64 (size_ v - 1)) level) ;;
     next_node <-
       (if level =? branching_log then mret tl
        else
          child <- lift (at_index parent (Z.land s branching_mask)) ;;
          match child with
          | Some c =>
              reading (λ h, deref h child) ;;;
              push_tail_rec fuel v (u32 (level - branching_log)) c tl
          | None => make_path_ (u32 (level - branching_log)) tl
          end) ;;
     update_node new_parent_node
                 (set_child (Z.land s branching_mask) next_node) ;;;
     mret new_parent_node).
Proof. reflexivity. Qed.

(** [push_tail_] grafts the full tail leaf [l] after the elements [ys] of
    a tree that has room for it, allocating one inner node per level. *)
Lemma push_tail_rec_spec d : ∀ g h v parent tl ys l q,
  (S d ≤ 12)%nat → heap_incl g h →
  rep g (S d) (Some parent) ys → len ys < cap (S d) → len ys mod 32 = 0 →
  rep g 0 tl l →
  u64 (size_ v - 1) = q * cap (S d) + len ys + 31 → 0 ≤ q →
  ∃ p' h',
    push_tail_rec (S d) v (branching_log * Z.of_nat (S d)) parent tl h
      = Ok (p', h') ∧
    h `prefix_of` h' ∧ length h' = (length h + S d)%nat ∧
    ∀ H, heap_incl g H → has_fresh h h' H → rep H (S d) p' (ys ++ l).
Proof.
  induction d as [d IH] using lt_wf_ind.
  intros g h v parent tl ys l q Hd Hgh Hrep Hroom Hmod Hl Hsz Hq.
  pose proof Hrep as (a & cs & [= <-] & Ha & Hcs & Hlen & Hch).
  assert (len l = 32) as Hl32 by (by destruct Hl as (? & _ & _ & ?)).
  change (cap (S d)) with (branching * cap d) in *.
  rewrite branching_eq in *.
  pose proof (len_nonneg ys) as Hys0.
  pose proof (cap_pos d) as Hcap. pose proof (cap_mod d) as Hcapm.
  pose proof (Z.div_mod (len ys) (cap d) ltac:(lia)) as Hdm.
  pose proof (Z.mod_pos_bound (len ys) (cap d) ltac:(lia)) as Hmb.
  set (j0 := len ys / cap d) in *. set (r0 := len ys mod cap d) in *.
  assert (0 ≤ j0 < 32) as Hj0 by (split; [apply Z.div_pos; lia | nia]).
  assert (r0 mod 32 = 0) as Hr0.
  { pose proof (Z.div_mod (len ys) 32 ltac:(lia)) as Hy.
    pose proof (Z.div_mod (cap d) 32 ltac:(lia)) as Hc.
    replace r0 with ((len ys / 32 - j0 * (cap d / 32)) * 32) by lia.
    apply Z.mod_mul. lia. }
  pose proof (mod32_bound r0 _ Hmb Hr0 Hcapm) as Hr0b.
  rewrite push_tail_rec_S.
  rewrite (mbind_ok _ _ h cs h)
    by (unfold reading, lift, deref; by rewrite (Hgh _ _ Ha)).
  rewrite (mbind_ok _ _ h (Some (length h)) (h ++ [Inner cs])) by done.
  unfold shr64.
  destruct (Z.ltb_spec (branching_log * Z.of_nat (S d)) 64);
    [|unfold branching_log in *; lia].
  rewrite (mbind_ok _ _ _ _ _ eq_refl).
  rewrite shiftr_level, land_mask.
  rewrite (digit_eq _ q j0 (r0 + 31) (u64 (size_ v - 1))) by lia.
  set (h1 := h ++ [Inner cs]).
  (* the replacement child *)
  assert (∃ p1 h2,
    (if branching_log * Z.of_nat (S d) =? branching_log then mret tl
     else
       child <- lift (at_index cs j0) ;;
       match child with
       | Some c =>
           reading (λ h, deref h child) ;;;
           push_tail_rec d v (u32 (branching_log * Z.of_nat (S d) - branching_log)) c tl
       | None => make_path_ (u32 (branching_log * Z.of_nat (S d) - branching_log)) tl
       end) h1 = Ok (p1, h2) ∧
    h1 `prefix_of` h2 ∧ length h2 = (length h1 + d)%nat ∧
    ∀ H, heap_incl g H → has_fresh h1 h2 H →
         rep H d p1 (slice (ys ++ l) (j0 * cap d) (cap d)))
    as (p1 & h2 & Hnext & Hpre & Hlen2 & Hrep1).
  { destruct (Z.eqb_spec (branching_log * Z.of_nat (S d)) branching_log)
      as [Heq|Hne].
    - assert (d = 0%nat) as -> by (unfold branching_log in Heq; lia).
      simpl in Hcap, Hmb, Hr0b, Hdm |- *. rewrite branching_eq in *.
      exists tl, h1. split; [done|]. split; [done|]. split; [lia|].
      intros K Hg _. replace (j0 * 32) with (len ys) by lia.
      rewrite slice_end by lia. by apply (rep_mono 0 g).
    - destruct d as [|d]; [unfold branching_log in Hne; lia|].
      rewrite level_pred by done.
      specialize (Hch j0 Hj0).
      destruct (Z.ltb_spec (j0 * cap (S d)) (len ys)).
      + destruct Hch as (c & Hc & Hrepc).
        pose proof Hrepc as (ca & csc & -> & Hca & _).
        rewrite (mbind_ok _ _ h1 (Some ca) h1)
          by (unfold lift; by rewrite (at_index_ok cs j0 (Some ca)) by (lia || done)).
        rewrite (mbind_ok _ _ h1 (Inner csc) h1).
        2:{ unfold reading, lift, deref, h1.
            by rewrite (lookup_app_l_Some _ _ _ _ (Hgh _ _ Hca)). }
        destruct (IH d ltac:(lia) g h1 v ca tl
                     (slice ys (j0 * cap (S d)) (cap (S d))) l (q * 32 + j0))
          as (p1 & h2 & Hrun & Hpre & Hlen2 & Hrep1); try done; try lia.
        { intros b n Hb. by apply lookup_app_l_Some, Hgh. }
        { rewrite len_slice by lia.
          change (cap (S d)) with (branching * cap d) in *. lia. }
        { rewrite len_slice by lia.
          replace (Z.min _ _) with r0 by lia. done. }
        { rewrite len_slice by lia.
          replace (Z.min _ _) with r0 by lia. rewrite Hsz, Hdm. ring. }
        exists p1, h2. repeat split; try done.
        intros K Hg Hf. rewrite slice_app_r by lia. by apply Hrep1.
      + rewrite (mbind_ok _ _ h1 None h1)
          by (unfold lift; by rewrite (at_index_ok cs j0 None) by (lia || done)).
        unfold make_path_. rewrite level_steps_mul.
        destruct (make_path_rec_spec (S d) g h1 tl l ltac:(lia) Hl)
          as (p1 & h2 & Hrun & Hpre & Hlen2 & Hrep1).
        exists p1, h2. repeat split; try done.
        intros K Hg Hf. replace (j0 * cap (S d)) with (len ys) by lia.
        rewrite slice_end by lia. by apply Hrep1. }
  rewrite (mbind_ok _ _ _ _ _ Hnext).
  assert (h2 !! length h = Some (Inner cs)) as Hnew.
  { apply (prefix_heap_incl _ _ Hpre). unfold h1.
    by rewrite lookup_app_r, Nat.sub_diag by lia. }
  assert (length h1 = S (length h)) as Hlen1
    by (unfold h1; rewrite length_app; simpl; lia).
  destruct (lookup_lt_is_Some_2 cs (Z.to_nat j0)) as [c0 Hc0];
    [unfold len in Hcs; lia|].
  rewrite (mbind_ok _ _ h2 tt (<[length h := Inner (<[Z.to_nat j0 := p1]> cs)]> h2)).
  2:{ unfold update_node, deref. rewrite Hnew. cbn [rbind].
      unfold set_child. cbn [inner rbind].
      by rewrite (at_index_ok cs j0 c0) by (lia || done). }
  eexists _, _. split; [reflexivity|].
  split.
  { apply prefix_insert_fresh; [|lia]. etrans; [|exact Hpre].
    by apply prefix_app_r. }
  split; [rewrite length_insert; lia|].
  intros K Hg Hf.
  exists (length h), (<[Z.to_nat j0 := p1]> cs).
  split; [done|]. split.
  { rewrite Hf by (rewrite length_insert; lia).
    apply list_lookup_insert_eq. lia. }
  split; [unfold len; by rewrite length_insert|].
  split.
  { rewrite len_app. change (cap (S d)) with (branching * cap d).
    rewrite branching_eq. nia. }
  intros j Hj. rewrite len_app, Hl32.
  destruct (Z.lt_trichotomy j j0) as [Hlt | [-> | Hgt]].
  - destruct (Z.ltb_spec (j * cap d) (len ys + 32)); [|nia].
    specialize (Hch j Hj).
    destruct (Z.ltb_spec (j * cap d) (len ys)); [|nia].
    destruct Hch as (c & Hc & Hrepc). exists c. split.
    + rewrite list_lookup_insert_ne by lia. done.
    + rewrite slice_app_l by nia. by apply (rep_mono d g).
  - destruct (Z.ltb_spec (j0 * cap d) (len ys + 32)); [|lia].
    exists p1. split; [apply list_lookup_insert_eq; unfold len in Hcs; lia|].
    apply Hrep1; [done|]. intros b Hb.
    rewrite Hf by (rewrite length_insert; lia).
    apply list_lookup_insert_ne. lia.
  - destruct (Z.ltb_spec (j * cap d) (len ys + 32)); [nia|].
    specialize (Hch j Hj).
    destruct (Z.ltb_spec (j * cap d) (len ys)); [nia|].
    rewrite list_lookup_insert_ne by lia. done.
Qed.
End Allocation.

(** ** The vector invariant *)

Section Invariant.
Context {T : Type} (dflt : T) (checked : bool).
Implicit Types (h : heap T) (xs : list T) (v : vektor).

Lemma tail_offset_eq v :
  0 ≤ size_ v < 2 ^ 63 → tail_offset_ v = toff (size_ v).
Proof.
  intros Hsz. unfold tail_offset_, toff.
  destruct (Z.ltb_spec (size_ v) 32); [done|].
  rewrite (u64_small (size_ v - 1)) by lia.
  rewrite shiftr_log, shiftl_log.
  pose proof (Z.div_mod (size_ v - 1) 32 ltac:(lia)).
  pose proof (Z.mod_pos_bound (size_ v - 1) 32 ltac:(lia)).
  apply u64_small. lia.
Qed.

Lemma vektor_inv_size h v xs :
  vektor_inv h v xs → size_ v = len xs ∧ 0 ≤ len xs ≤ 2 ^ 40 + 32.
Proof.
  intros (Hsz & d & Hd & _ & _ & Hcap & _).
  pose proof (len_nonneg xs). pose proof (toff_spec (len xs) ltac:(done)).
  pose proof (cap_le_7 d ltac:(lia)). lia.
Qed.

Lemma vektor_inv_mono h H v xs :
  heap_incl h H → vektor_inv h v xs → vektor_inv H v xs.
Proof.
  intros Hincl (Hsz & d & Hd & Hshift & Hrep & Hcap & Hmin & a & l & Ht & Ha & Hl & Htl).
  split; [done|]. exists d.
  split; [done|]. split; [done|]. split; [by apply (rep_mono d h)|].
  split; [done|]. split; [done|]. exists a, l. eauto.
Qed.

Lemma assert_true b : b = true → assert_ checked b = Ok tt.
Proof. intros ->. unfold assert_. by destruct checked. Qed.

(** [array_for_] finds the leaf that holds the block of 32 elements
    around index [i]. *)
Lemma array_for_block h v xs (i : nat) :
  vektor_inv h v xs → (i < length xs)%nat →
  ∃ a l, array_for_ checked h v (Z.of_nat i) = Ok a ∧
         h !! a = Some (Leaf l) ∧ len l = branching ∧
         ∀ (j : nat) y, Z.of_nat j / 32 = Z.of_nat i / 32 → xs !! j = Some y →
                        l !! Z.to_nat (Z.of_nat j mod 32) = Some y.
Proof.
  intros Hinv Hi. pose proof (vektor_inv_size _ _ _ Hinv) as [Hsz Hn].
  destruct Hinv as (_ & d & Hd & Hshift & Hrep & Hcap & Hmin & a & l & Ht & Ha & Hl & Htl).
  pose proof (toff_spec (len xs) ltac:(lia)) as (Ht0 & Htm & Htr & _).
  unfold array_for_.
  rewrite assert_true by (apply Z.ltb_lt; unfold len in *; lia).
  cbn [rbind]. rewrite tail_offset_eq by lia. rewrite Hsz.
  set (t := toff (len xs)) in *.
  pose proof (Z.div_mod t 32 ltac:(lia)) as Htdm.
  pose proof (Z.div_mod (Z.of_nat i) 32 ltac:(lia)) as Hidm.
  pose proof (Z.mod_pos_bound (Z.of_nat i) 32 ltac:(lia)) as Himb.
  destruct (Z.leb_spec t (Z.of_nat i)) as [Hge|Hlt].
  - exists a, l. unfold leaf_ref, deref. rewrite Ht, Ha. cbn [rbind leaf].
    split; [done|]. split; [done|]. split; [done|].
    intros j y Hji Hy. pose proof (lookup_lt_Some _ _ _ Hy) as Hj.
    pose proof (Z.div_mod (Z.of_nat j) 32 ltac:(lia)) as Hjdm.
    pose proof (Z.mod_pos_bound (Z.of_nat j) 32 ltac:(lia)) as Hjmb.
    assert (t ≤ Z.of_nat j) as Htj by lia.
    assert (Z.of_nat j mod 32 = Z.of_nat j - t) as ->.
    { symmetry. apply (Z.mod_unique _ _ (t / 32)); unfold len in *; lia. }
    rewrite <- (lookup_take_lt l (Z.to_nat (len xs - t))) by (unfold len in *; lia).
    rewrite Htl, lookup_drop, <- Hy. f_equal. lia.
  - destruct (descend_rep d h (root_ v) _ (Z.of_nat i) 0 (Z.of_nat i) Hrep)
      as (b & lf & Hdesc & Hb & Hlf & Hblock); try lia.
    { unfold len. rewrite length_take. unfold len in *. lia. }
    exists b, lf. rewrite Hshift, level_steps_mul, Hdesc. cbn [rbind].
    unfold leaf_ref, deref. rewrite Hb. cbn [rbind leaf].
    split; [done|]. split; [done|]. split; [done|].
    intros j y Hji Hy.
    pose proof (Z.div_mod (Z.of_nat j) 32 ltac:(lia)) as Hjdm.
    pose proof (Z.mod_pos_bound (Z.of_nat j) 32 ltac:(lia)) as Hjmb.
    rewrite Hblock, slice_lookup by lia.
    rewrite lookup_take_lt by lia. rewrite <- Hy. f_equal. lia.
Qed.

(** In particular it holds element [i] at slot [i mod 32]. *)
Lemma array_for_spec h v xs (i : nat) x :
  vektor_inv h v xs → xs !! i = Some x →
  ∃ a l, array_for_ checked h v (Z.of_nat i) = Ok a ∧
         h !! a = Some (Leaf l) ∧ len l = branching ∧
         l !! Z.to_nat (Z.of_nat i mod 32) = Some x.
Proof.
  intros Hinv Hx.
  destruct (array_for_block h v xs i Hinv (lookup_lt_Some _ _ _ Hx))
    as (a & l & Harr & Ha & Hl & Hblock).
  exists a, l. eauto.
Qed.

Lemma read_leaf_ok h a l off x :
  h !! a = Some (Leaf l) → 0 ≤ off → l !! Z.to_nat off = Some x →
  read_leaf h a off = Ok x.
Proof.
  intros Ha Hoff Hx. unfold read_leaf, deref. rewrite Ha. cbn [rbind leaf].
  by apply at_index_ok.
Qed.

(** Indexed access returns the element appended at that position. *)
Lemma at_spec h v xs (i : nat) x :
  vektor_inv h v xs → xs !! i = Some x → at_ checked h v (Z.of_nat i) = Ok x.
Proof.
  intros Hinv Hx.
  destruct (array_for_spec h v xs i x Hinv Hx) as (a & l & Harr & Ha & _ & Hl).
  unfold at_. rewrite Harr. cbn [rbind]. rewrite land_mask.
  apply (read_leaf_ok h a l); [done | by apply Z.mod_pos_bound | done].
Qed.

Lemma static_heap_inv : vektor_inv (static_heap dflt) empty_ [].
Proof.
  split; [done|]. exists 1%nat.
  split; [lia|]. split; [done|]. split.
  { exists 0%nat, (replicate 32 None).
    split; [done|]. split; [done|]. split; [done|]. split; [done|].
    intros j Hj. rewrite branching_eq in Hj.
    change (len (take _ (@nil T))) with 0.
    destruct (Z.ltb_spec (j * cap 0) 0) as [Hlt|_].
    - simpl in Hlt. rewrite branching_eq in Hlt. lia.
    - apply lookup_replicate_2. lia. }
  split; [done|]. split; [by left|].
  exists 1%nat, (replicate 32 dflt). done.
Qed.
End Invariant.

(** ** [push_back] keeps the invariant *)

Section PushBack.
Context {T : Type} (dflt : T).
Implicit Types (h : heap T) (xs : list T) (v : vektor).

Lemma fill_tail_take (l rest : list T) (k : nat) x r :
  (k ≤ length l)%nat →
  take (S k) (<[k := x]> (take k l ++ r :: rest)) = take k l ++ [x].
Proof.
  intros Hk.
  rewrite insert_app_r_alt by (rewrite length_take; lia).
  rewrite length_take, Nat.min_l, Nat.sub_diag by lia. simpl.
  rewrite take_app, length_take, Nat.min_l by lia.
  rewrite take_take, Nat.min_r by lia.
  by replace (S k - k)%nat with 1%nat by lia.
Qed.

(** Case A: the tail has room. *)
Lemma push_back_room h v xs x :
  vektor_inv h v xs → len xs - toff (len xs) < 32 →
  ∃ v' h', push_back dflt v x h = Ok (v', h') ∧
    h `prefix_of` h' ∧ length h' = (length h + 1)%nat ∧
    shift_ v' = shift_ v ∧ root_ v' = root_ v ∧
    vektor_inv h' v' (xs ++ [x]).
Proof.
  intros Hinv Hroom. pose proof (vektor_inv_size _ _ _ Hinv) as [Hsz Hn].
  destruct Hinv as (_ & d & Hd & Hshift & Hrep & Hcap & Hmin & a & l & Ht & Ha & Hl & Htl).
  pose proof (toff_spec (len xs) ltac:(lia)) as (Ht0 & Htm & Htr & _).
  unfold push_back. rewrite tail_offset_eq by lia. rewrite Hsz.
  set (t := toff (len xs)) in *.
  rewrite (u64_small (len xs - t)) by lia.
  destruct (Z.ltb_spec (len xs - t) branching); [|rewrite branching_eq in *; lia].
  rewrite (mbind_ok _ _ h l h) by (unfold reading, lift, deref; by rewrite Ht, Ha).
  rewrite (mbind_ok _ _ h (Some (length h)) (h ++ [Leaf (replicate 32 dflt)])) by done.
  set (k := Z.to_nat (len xs - t)).
  rewrite branching_eq in *.
  assert (Z.of_nat k = len xs - t) as Hk by (unfold k; lia).
  assert (k < 32)%nat as Hk32 by lia.
  assert (length l = 32%nat) as Hl' by (unfold len in Hl; lia).
  assert (drop k (replicate 32 dflt) = dflt :: replicate (31 - k) dflt) as Hdrop.
  { rewrite drop_replicate. replace (32 - k)%nat with (S (31 - k)) by lia. done. }
  set (l' := <[k := x]> (take k l ++ dflt :: replicate (31 - k) dflt)).
  rewrite (mbind_ok _ _ _ tt (<[length h := Leaf l']> (h ++ [Leaf (replicate 32 dflt)]))).
  2:{ unfold update_node, deref.
      rewrite lookup_app_r, Nat.sub_diag by lia. cbn [lookup list_lookup rbind].
      unfold fill_tail. cbn [leaf rbind]. fold k. rewrite Hdrop.
      rewrite (at_index_ok _ _ dflt); [done|lia|].
      fold k. rewrite lookup_app_r by (rewrite length_take; lia).
      rewrite length_take, Nat.min_l by lia.
      by rewrite Nat.sub_diag. }
  unfold mret. eexists _, _. split; [reflexivity|].
  assert (h `prefix_of` <[length h := Leaf l']> (h ++ [Leaf (replicate 32 dflt)])) as Hpre.
  { apply prefix_insert_fresh; [by apply prefix_app_r | lia]. }
  split; [done|]. split; [rewrite length_insert, length_app; simpl; lia|].
  split; [done|]. split; [done|].
  rewrite (u64_small (len xs + 1)) by lia.
  split; [simpl; rewrite len_app; done|].
  rewrite len_app. change (len [x]) with 1.
  rewrite toff_succ_room by lia. fold t.
  exists d. split; [done|]. split; [done|]. split.
  { rewrite take_app_le by (unfold len in *; lia).
    apply (rep_mono d h); [by apply prefix_heap_incl | done]. }
  split; [done|]. split; [done|].
  exists (length h), l'. split; [done|]. split.
  { apply list_lookup_insert_eq. rewrite length_app. simpl. lia. }
  split.
  { unfold l', len. rewrite length_insert, length_app, length_take. simpl.
    rewrite length_replicate, branching_eq. lia. }
  replace (Z.to_nat (len xs + 1 - t)) with (S k) by lia.
  unfold l'. rewrite fill_tail_take by lia.
  rewrite drop_app_le by (unfold len in *; lia).
  by rewrite <- Htl.
Qed.

Lemma cap_lt_6 d : (d ≤ 5)%nat → cap d < 2 ^ 32.
Proof.
  intros Hd. do 6 (destruct d as [|d]; [vm_compute; congruence|]). lia.
Qed.

Lemma root_overflow_spec v d t :
  shift_ v = branching_log * Z.of_nat (S d) → (d ≤ 5)%nat →
  size_ v = t + 32 → 0 ≤ t → t mod 32 = 0 →
  root_overflow v = Ok (cap (S d) <=? t).
Proof.
  intros Hshift Hd Hsz Ht Htm. unfold root_overflow, shl32_one.
  rewrite Hshift, Hsz.
  destruct (Z.ltb_spec (branching_log * Z.of_nat (S d)) 32);
    [|unfold branching_log in *; lia].
  cbn [rbind]. f_equal.
  rewrite Z.shiftl_1_l, <- cap_pow, shiftr_log.
  pose proof (cap_pos d). pose proof (cap_lt_6 d Hd).
  rewrite u32_small by lia.
  change (cap (S d)) with (branching * cap d). rewrite branching_eq.
  pose proof (Z.div_mod t 32 ltac:(lia)).
  rewrite <- (Z.div_unique (t + 32) 32 (t / 32 + 1) 0) by lia.
  destruct (Z.ltb_spec (cap d) (t / 32 + 1)), (Z.leb_spec (32 * cap d) t);
    (done || lia).
Qed.

(** Case B: the tail is full and is grafted into the tree, under a new
    root when the tree is full too. *)
Lemma push_back_full h v xs x :
  vektor_inv h v xs → len xs - toff (len xs) = 32 → len xs < max_size →
  ∃ v' h', push_back dflt v x h = Ok (v', h') ∧
    h `prefix_of` h' ∧ vektor_inv h' v' (xs ++ [x]) ∧
    let d := level_steps (shift_ v) in
    (toff (len xs) < cap d ∧ shift_ v' = shift_ v ∧
       length h' = (length h + 1 + d)%nat) ∨
    (toff (len xs) = cap d ∧ shift_ v' = shift_ v + branching_log ∧
       length h' = (length h + 2 + d)%nat).
Proof.
  intros Hinv Hfull Hmax. pose proof (vektor_inv_size _ _ _ Hinv) as [Hsz Hn].
  destruct Hinv as (_ & d & Hd & Hshift & Hrep & Hcap & Hmin & a & l & Ht & Ha & Hl & Htl).
  pose proof (toff_spec (len xs) ltac:(lia)) as (Ht0 & Htm & Htr & _).
  set (t := toff (len xs)) in *. rewrite branching_eq in *.
  assert (length l = 32%nat) as Hl' by (unfold len in Hl; lia).
  assert (length xs = (Z.to_nat t + 32)%nat) as Hxs by (unfold len in *; lia).
  assert (drop (Z.to_nat t) xs = l) as Hdrop.
  { rewrite <- Htl. apply take_ge. lia. }
  assert (take (Z.to_nat t) xs ++ l = xs) as Hxsl
    by (rewrite <- Hdrop; apply take_drop).
  assert (len (take (Z.to_nat t) xs) = t) as Hlent
    by (unfold len; rewrite length_take; lia).
  assert (rep h 0 (Some a) l) as Hleaf by (exists a; by rewrite branching_eq).
  destruct d as [|d]; [lia|].
  assert (d ≤ 5)%nat as Hd5.
  { destruct Hmin as [Hmin|Hmin]; [lia|].
    destruct (decide (d = 6%nat)) as [->|]; [|lia].
    change (cap (7 - 1)) with (2 ^ 35) in Hmin.
    pose proof (Z.div_mod t 32 ltac:(lia)). unfold max_size in Hmax. lia. }
  pose proof (cap_pos d) as Hcapd. pose proof (cap_mod (S d)) as Hcapm.
  unfold push_back. rewrite tail_offset_eq by lia. rewrite Hsz. fold t.
  rewrite (u64_small (len xs - t)) by lia.
  destruct (Z.ltb_spec (len xs - t) branching); [rewrite branching_eq in *; lia|].
  set (tl := Leaf (x :: replicate 31 dflt)).
  rewrite (mbind_ok _ _ h (Some (length h)) (h ++ [tl])) by done.
  rewrite (root_overflow_spec v d t) by (done || lia).
  unfold lift at 1. unfold mbind at 1.
  rewrite Hshift, level_steps_mul, Ht. cbv zeta.
  rewrite (u64_small (len xs + 1)) by lia.
  assert (∀ v' h', h ++ [tl] `prefix_of` h' → size_ v' = len xs + 1 →
            tail_ v' = Some (length h) → ∀ d',
            (1 ≤ d' ≤ 7)%nat → shift_ v' = branching_log * Z.of_nat d' →
            rep h' d' (root_ v') xs → len xs ≤ cap d' →
            (d' = 1%nat ∨ cap (d' - 1) < len xs) →
            vektor_inv h' v' (xs ++ [x])) as Hfin.
  { intros v' h' Hpre Hsz' Htl' d' Hd' Hsh' Hrep' Hcap' Hmin'.
    split; [by rewrite len_app|]. rewrite len_app. change (len [x]) with 1.
    rewrite toff_succ_full by (fold t; lia).
    exists d'. split; [done|]. split; [done|].
    split; [unfold len; by rewrite Nat2Z.id, take_app_length|].
    split; [done|]. split; [done|].
    exists (length h), (x :: replicate 31 dflt).
    split; [done|]. split.
    { apply (prefix_heap_incl _ _ Hpre).
      by rewrite lookup_app_r, Nat.sub_diag by lia. }
    split; [done|].
    replace (len xs + 1 - len xs) with 1 by lia.
    unfold len. by rewrite Nat2Z.id, drop_app_length. }
  destruct (Z.leb_spec (cap (S d)) t) as [Hov|Hno].
  - (* root overflow *)
    assert (t = cap (S d)) as Ht_full by lia.
    unfold make_path_. rewrite level_steps_mul.
    destruct (make_path_rec_spec (S d) h (h ++ [tl]) (Some a) l ltac:(lia) Hleaf)
      as (p1 & h2 & Hrun & Hpre & Hlen2 & Hrep1).
    rewrite (mbind_ok _ _ _ _ _ Hrun).
    set (nr := Inner (root_ v :: p1 :: replicate 30 None)).
    rewrite (mbind_ok _ _ h2 (Some (length h2)) (h2 ++ [nr])) by done.
    unfold mret. eexists _, _. split; [reflexivity|].
    assert (h ++ [tl] `prefix_of` h2 ++ [nr]) as Hpre'
      by (etrans; [exact Hpre | by apply prefix_app_r]).
    assert (h `prefix_of` h2 ++ [nr]) as Hpre''
      by (etrans; [by apply prefix_app_r | exact Hpre']).
    split; [done|]. split.
    + refine (Hfin _ _ Hpre' _ _ (S (S d)) _ _ _ _ _);
        cbn [size_ shift_ root_ tail_]; try done.
      * lia.
      * unfold branching_log. rewrite u32_small; lia.
      * exists (length h2), (root_ v :: p1 :: replicate 30 None).
        split; [done|]. split; [by rewrite lookup_app_r, Nat.sub_diag by lia|].
        split; [done|]. rewrite branching_eq.
        change (cap (S (S d))) with (branching * cap (S d)).
        change (cap (S d)) with (branching * cap d) in *. rewrite branching_eq in *.
        split; [lia|]. intros j Hj.
        destruct (Z.ltb_spec (j * (32 * cap d)) (len xs)).
        -- destruct (decide (j = 0)) as [->|].
           { exists (root_ v). split; [done|].
             replace (slice xs (0 * _) _) with (take (Z.to_nat t) xs)
               by (by rewrite Ht_full).
             apply (rep_mono (S d) h); [by apply prefix_heap_incl | done]. }
           assert (j = 1) as -> by nia.
           exists p1. split; [done|].
           replace (slice xs (1 * _) _) with l.
           2:{ rewrite <- Hxsl at 1. rewrite Z.mul_1_l, <- Ht_full.
               rewrite <- Hlent at 2. rewrite slice_end; [done|lia]. }
           apply Hrep1; [by apply prefix_heap_incl|].
           intros b Hb. by rewrite lookup_app_l by lia.
        -- rewrite lookup_cons_ne_0 by nia. rewrite lookup_cons_ne_0 by nia.
           apply lookup_replicate_2. lia.
      * change (cap (S (S d))) with (branching * cap (S d)).
        pose proof (cap_pos (S d)). rewrite branching_eq. lia.
      * right. replace (S (S d) - 1)%nat with (S d) by lia. lia.
    + right. split; [done|]. split; [simpl; unfold branching_log; rewrite u32_small; lia|].
      rewrite length_app, Hlen2, length_app. simpl. lia.
  - (* the root has room *)
    pose proof Hrep as (r & cs & Hr & Hcs & _).
    rewrite Hr.
    rewrite (mbind_ok _ _ (h ++ [tl]) r (h ++ [tl])).
    2:{ unfold reading, lift, deref. by rewrite (lookup_app_l_Some _ _ _ _ Hcs). }
    unfold push_tail_. rewrite level_steps_mul.
    destruct (push_tail_rec_spec d h (h ++ [tl]) v r (Some a)
                (take (Z.to_nat t) xs) l 0) as (p1 & h2 & Hrun & Hpre & Hlen2 & Hrep1);
      try done; try lia.
    { by apply prefix_heap_incl, prefix_app_r. }
    { by rewrite <- Hr. }
    { by rewrite Hlent. }
    { rewrite Hsz, u64_small by lia. lia. }
    rewrite (mbind_ok _ _ _ _ _ Hrun).
    unfold mret. eexists _, _. split; [reflexivity|].
    assert (h `prefix_of` h2) as Hpre'
      by (etrans; [by apply prefix_app_r | exact Hpre]).
    split; [done|]. split.
    + refine (Hfin _ _ Hpre _ _ (S d) _ _ _ _ _);
        cbn [size_ shift_ root_ tail_]; try done.
      * rewrite <- Hxsl. apply Hrep1; [by apply prefix_heap_incl|]. by intros b Hb.
      * pose proof (mod32_bound t (cap (S d)) ltac:(lia) Htm Hcapm). lia.
      * destruct Hmin as [Hmin|Hmin]; [by left | right; lia].
    + left. split; [done|]. split; [done|].
      rewrite Hlen2, length_app. simpl. lia.
Qed.
End PushBack.

(** ** Sequences of appends *)

Section Sequences.
Context {T : Type} (dflt : T).
Implicit Types (h : heap T) (xs ys : list T) (v : vektor).

Lemma push_back_spec h v xs x :
  vektor_inv h v xs → len xs < max_size →
  ∃ v' h', push_back dflt v x h = Ok (v', h') ∧
    h `prefix_of` h' ∧ vektor_inv h' v' (xs ++ [x]) ∧
    let d := level_steps (shift_ v) in
    (len xs - toff (len xs) < 32 ∧ shift_ v' = shift_ v ∧
       root_ v' = root_ v ∧ length h' = (length h + 1)%nat) ∨
    (len xs - toff (len xs) = 32 ∧ toff (len xs) < cap d ∧
       shift_ v' = shift_ v ∧ length h' = (length h + 1 + d)%nat) ∨
    (len xs - toff (len xs) = 32 ∧ toff (len xs) = cap d ∧
       shift_ v' = shift_ v + branching_log ∧
       length h' = (length h + 2 + d)%nat).
Proof.
  intros Hinv Hmax.
  pose proof (toff_spec (len xs) (len_nonneg xs)) as (_ & _ & Htr & _).
  destruct (Z.lt_ge_cases (len xs - toff (len xs)) 32) as [Hroom|Hfull].
  - destruct (push_back_room dflt h v xs x Hinv Hroom)
      as (v' & h' & Hrun & Hpre & Hlen & Hsh & Hroot & Hinv').
    exists v', h'. repeat (split; [done|]). cbv zeta. left. repeat split; done.
  - destruct (push_back_full dflt h v xs x Hinv ltac:(lia) Hmax)
      as (v' & h' & Hrun & Hpre & Hinv' & Hcases).
    exists v', h'. repeat (split; [done|]). cbv zeta in *. right.
    destruct Hcases as [(?&?&?)|(?&?&?)]; [left|right]; repeat split; (done || lia).
Qed.

Lemma push_all_app v xs ys h :
  push_all dflt v (xs ++ ys) h
  = (v' <- push_all dflt v xs ;; push_all dflt v' ys) h.
Proof.
  revert v h. induction xs as [|x xs IH]; intros v h; [reflexivity|].
  simpl. unfold mbind.
  destruct (push_back dflt v x h) as [[v1 h1]|e]; [|done].
  rewrite IH. reflexivity.
Qed.

Lemma push_all_spec ys : ∀ h v xs,
  vektor_inv h v xs → len xs + len ys ≤ max_size →
  ∃ v' h', push_all dflt v ys h = Ok (v', h') ∧
    h `prefix_of` h' ∧ vektor_inv h' v' (xs ++ ys).
Proof.
  induction ys as [|y ys IH]; intros h v xs Hinv Hmax.
  - exists v, h. rewrite app_nil_r. done.
  - change (len (y :: ys)) with (Z.of_nat (S (length ys))) in Hmax.
    pose proof (len_nonneg ys) as Hys. unfold len in Hys.
    destruct (push_back_spec h v xs y Hinv ltac:(lia))
      as (v1 & h1 & Hrun & Hpre & Hinv1 & _).
    destruct (IH h1 v1 (xs ++ [y]) Hinv1) as (v' & h' & Hrun' & Hpre' & Hinv').
    { rewrite len_app. change (len [y]) with 1. unfold len in *. lia. }
    exists v', h'. simpl. rewrite (mbind_ok _ _ _ _ _ Hrun).
    split; [done|]. split; [by etrans|]. by rewrite <- app_assoc in Hinv'.
Qed.

Lemma from_list_spec xs :
  len xs ≤ max_size →
  ∃ v h, from_list dflt xs = Ok (v, h) ∧ vektor_inv h v xs.
Proof.
  intros Hmax.
  destruct (push_all_spec xs (static_heap dflt) empty_ [] (static_heap_inv dflt))
    as (v & h & Hrun & _ & Hinv); [done|].
  by exists v, h.
Qed.

(** With [max_size] elements the tail is full and [shift_] is 35:
    [push_back] evaluates [1u << 35]. *)
Lemma push_back_undefined h v xs x :
  vektor_inv h v xs → len xs = max_size →
  push_back dflt v x h = Err UndefinedBehaviour.
Proof.
  intros (Hsz & d & Hd & Hshift & _ & Hcap & Hmin & _) Hlen.
  rewrite Hlen in *. change (toff max_size) with (2 ^ 35 + 32) in *.
  assert (d = 7%nat) as ->.
  { destruct (decide (d = 7%nat)) as [|Hne]; [done|exfalso].
    pose proof (cap_branching d) as Hc.
    assert (branching ^ (Z.of_nat d + 1) ≤ branching ^ 7) as Hle
      by (apply Z.pow_le_mono_r; rewrite ?branching_eq; lia).
    change (branching ^ 7) with (2 ^ 35) in Hle. lia. }
  unfold push_back. rewrite tail_offset_eq by (rewrite Hsz; unfold max_size; lia).
  rewrite Hsz. change (toff max_size) with (2 ^ 35 + 32).
  change (u64 (max_size - (2 ^ 35 + 32)) <? branching) with false. cbv iota.
  unfold mbind at 1. unfold make_node_ at 1.
  unfold mbind at 1. unfold root_overflow, shl32_one. rewrite Hshift.
  reflexivity.
Qed.

Lemma from_list_defined xs v h :
  from_list dflt xs = Ok (v, h) → len xs ≤ max_size.
Proof.
  intros Hrun. destruct (Z.le_gt_cases (len xs) max_size) as [|Hgt]; [done|].
  exfalso. set (n := Z.to_nat max_size).
  assert (0 ≤ max_size) as Hpos by (unfold max_size; lia).
  assert (len (take n xs) = max_size) as Hpre
    by (unfold len in *; rewrite length_take; lia).
  destruct (drop n xs) as [|y rest] eqn:Hdrop.
  { apply (f_equal length) in Hdrop. rewrite length_drop in Hdrop.
    simpl in Hdrop. unfold len in *. lia. }
  destruct (from_list_spec (take n xs) ltac:(lia)) as (v0 & h0 & Hrun0 & Hinv0).
  rewrite <- (take_drop n xs), Hdrop in Hrun. unfold from_list in *.
  rewrite push_all_app, (mbind_ok _ _ _ _ _ Hrun0) in Hrun. simpl in Hrun.
  unfold mbind in Hrun.
  by rewrite (push_back_undefined h0 v0 (take n xs) y Hinv0 Hpre) in Hrun.
Qed.

Lemma from_list_inv xs v h :
  from_list dflt xs = Ok (v, h) → vektor_inv h v xs.
Proof.
  intros Hrun.
  destruct (from_list_spec xs (from_list_defined xs v h Hrun))
    as (v0 & h0 & Hrun0 & Hinv).
  rewrite Hrun in Hrun0. by injection Hrun0 as <- <-.
Qed.

Lemma from_list_snoc xs x v h :
  from_list dflt xs = Ok (v, h) →
  from_list dflt (xs ++ [x]) = push_back dflt v x h.
Proof.
  intros Hrun. unfold from_list in *. rewrite push_all_app.
  rewrite (mbind_ok _ _ _ _ _ Hrun). simpl. unfold mbind, mret.
  by destruct (push_back dflt v x h) as [[??]|].
Qed.
End Sequences.

(** ** Vectors of up to [max_size] elements *)

Section InRange.
Context {T : Type} (dflt : T) (checked : bool).
Implicit Types (h : heap T) (xs : list T) (v : vektor).

(** Up to [max_size] elements, appending [xs] gives a vector of size
    [length xs] whose element [i] is the [i]-th appended one. *)
Lemma builds_sequence_in_range xs :
  len xs ≤ max_size →
  ∃ v h, from_list dflt xs = Ok (v, h) ∧
    size v = len xs ∧
    (∀ (i : nat) x, xs !! i = Some x → at_ checked h v (Z.of_nat i) = Ok x) ∧
    (∀ x, len xs < max_size →
          ∃ v' h', push_back dflt v x h = Ok (v', h') ∧ size v' = size v + 1).
Proof.
  intros Hmax. destruct (from_list_spec dflt xs Hmax) as (v & h & Hrun & Hinv).
  pose proof (vektor_inv_size _ _ _ Hinv) as [Hsz _].
  exists v, h. split; [done|]. split; [done|]. split.
  - intros i x. by apply at_spec.
  - intros x Hlt.
    destruct (push_back_spec dflt h v xs x Hinv Hlt)
      as (v' & h' & Hpush & _ & Hinv' & _).
    exists v', h'. split; [done|].
    pose proof (vektor_inv_size _ _ _ Hinv') as [Hsz' _].
    unfold size. rewrite Hsz', Hsz, len_app. done.
Qed.

(** One more [push_back] keeps every node of the store as it was. *)
Lemma persistent_in_range xs x :
  len xs < max_size →
  ∃ v h v' h', from_list dflt xs = Ok (v, h) ∧
    push_back dflt v x h = Ok (v', h') ∧
    h `prefix_of` h' ∧ size v = len xs ∧ size v' = size v + 1 ∧
    (∀ i : nat, Z.of_nat i < size v →
       ∃ y, at_ checked h v (Z.of_nat i) = Ok y ∧
            at_ checked h' v (Z.of_nat i) = Ok y ∧
            at_ checked h' v' (Z.of_nat i) = Ok y) ∧
    at_ checked h' v' (size v) = Ok x.
Proof.
  intros Hmax.
  destruct (from_list_spec dflt xs ltac:(lia)) as (v & h & Hrun & Hinv).
  destruct (push_back_spec dflt h v xs x Hinv Hmax)
    as (v' & h' & Hpush & Hpre & Hinv' & _).
  pose proof (vektor_inv_size _ _ _ Hinv) as [Hsz _].
  pose proof (vektor_inv_size _ _ _ Hinv') as [Hsz' _].
  exists v, h, v', h'. unfold size. rewrite Hsz, Hsz', len_app.
  repeat (split; [done|]). split.
  - intros i Hi.
    destruct (lookup_lt_is_Some_2 xs i) as [y Hy]; [unfold len in Hi; lia|].
    exists y. split; [by apply (at_spec checked h v xs)|]. split.
    + apply (at_spec checked h' v xs); [|done].
      apply (vektor_inv_mono h h'); [by apply prefix_heap_incl | done].
    + apply (at_spec checked h' v' (xs ++ [x])); [done|].
      by apply lookup_app_l_Some.
  - unfold len. apply (at_spec checked h' v' (xs ++ [x])); [done|].
    by rewrite lookup_app_r, Nat.sub_diag by lia.
Qed.

(** [shift_] as a function of the tail offset. *)
Lemma least_shift_in_range xs :
  len xs ≤ max_size →
  ∃ v h, from_list dflt xs = Ok (v, h) ∧
         least_shift 1 (tail_offset_ v) (shift_ v).
Proof.
  intros Hmax. destruct (from_list_spec dflt xs Hmax) as (v & h & Hrun & Hinv).
  pose proof (vektor_inv_size _ _ _ Hinv) as [Hsz Hn].
  destruct Hinv as (_ & d & Hd & Hshift & _ & Hcap & Hmin & _).
  exists v, h. split; [done|].
  rewrite tail_offset_eq by lia. rewrite Hsz.
  exists d. split; [done|]. split; [lia|]. split; [by rewrite <- cap_branching|].
  intros k' Hk' Hle. destruct Hmin as [->|Hmin]; [done|].
  rewrite cap_branching in Hmin.
  assert (branching ^ (Z.of_nat (d - 1) + 1) < branching ^ (Z.of_nat k' + 1))
    as Hpow by lia.
  apply Z.pow_lt_mono_r_iff in Hpow; rewrite ?branching_eq; lia.
Qed.

(** Number of nodes one [push_back] allocates. *)
Lemma allocations_in_range xs x :
  len xs < max_size →
  ∃ v h v' h', from_list dflt xs = Ok (v, h) ∧
    push_back dflt v x h = Ok (v', h') ∧
    h `prefix_of` h' ∧
    let allocated := len h' - len h in
    1 ≤ allocated ≤ shift_ v / branching_log + 2 ∧
    allocated ≤ ceil_log_branching (size v + 1) + 2.
Proof.
  intros Hmax.
  destruct (from_list_spec dflt xs ltac:(lia)) as (v & h & Hrun & Hinv).
  destruct (push_back_spec dflt h v xs x Hinv Hmax)
    as (v' & h' & Hpush & Hpre & _ & Hcases).
  pose proof (vektor_inv_size _ _ _ Hinv) as [Hsz Hn].
  destruct Hinv as (_ & d & Hd & Hshift & _ & Hcap & Hmin & _).
  exists v, h, v', h'. repeat (split; [done|]).
  cbv zeta in *. rewrite Hshift, level_steps_mul in Hcases.
  assert (shift_ v / branching_log = Z.of_nat d) as ->.
  { rewrite Hshift, Z.mul_comm. apply Z.div_mul. done. }
  pose proof (ceil_log_nonneg (size v + 1)) as Hlog0.
  pose proof (toff_spec (len xs) ltac:(lia)) as (Ht0 & _ & _ & _).
  unfold size in *. rewrite Hsz in *. unfold len in *.
  destruct Hcases as [(_ & _ & _ & ->) | [(_ & _ & _ & ->) | (_ & Hfull & _ & ->)]].
  - lia.
  - split; [lia|]. destruct Hmin as [->|Hmin]; [lia|].
    rewrite cap_branching in Hmin.
    pose proof (ceil_log_lower (Z.of_nat (d - 1) + 1) (Z.of_nat (length xs) + 1)
                  ltac:(lia) ltac:(lia)). lia.
  - split; [lia|]. rewrite cap_branching in Hfull.
    pose proof (ceil_log_lower (Z.of_nat d + 1) (Z.of_nat (length xs) + 1)
                  ltac:(lia) ltac:(lia)). lia.
Qed.

(** Random access through the cursor. *)
Lemma advance_begin_in_range xs (k : nat) x :
  len xs ≤ max_size → xs !! k = Some x →
  ∃ v h it it', from_list dflt xs = Ok (v, h) ∧
    begin checked h v = Ok it ∧
    advance checked h it (Z.of_nat k) = Ok it' ∧
    dereference h it' = Ok x ∧
    at_ checked h v (Z.of_nat k) = Ok x.
Proof.
  intros Hmax Hx.
  destruct (from_list_spec dflt xs Hmax) as (v & h & Hrun & Hinv).
  pose proof (vektor_inv_size _ _ _ Hinv) as [Hsz Hn].
  pose proof (lookup_lt_Some _ _ _ Hx) as Hk.
  destruct (lookup_lt_is_Some_2 xs 0) as [x0 Hx0]; [lia|].
  destruct (array_for_spec checked h v xs 0 x0 Hinv Hx0) as (a0 & l0 & Harr0 & Ha0 & _ & Hl0).
  destruct (array_for_spec checked h v xs k x Hinv Hx) as (a & l & Harr & Ha & _ & Hl).
  change (Z.of_nat 0) with 0 in Harr0, Hl0.
  set (it := mk_iterator v 0 0 (mk_leaf_iterator a0 0)).
  assert (∃ it', advance checked h it (Z.of_nat k) = Ok it' ∧
                 dereference h it' = Ok x) as (it' & Hadv & Hder).
  2:{ exists v, h, it, it'. unfold begin. rewrite Harr0.
      repeat (split; [done|]). by apply (at_spec checked h v xs). }
  unfold advance, it. cbn [v_ i_ base_ curr_].
  rewrite (u64_small (Z.of_nat k)) by (unfold len in *; lia).
  rewrite Z.add_0_l, Z.sub_0_r.
  rewrite (u64_small (Z.of_nat k)) by (unfold len in *; lia).
  rewrite assert_true by (apply orb_true_iff; right; apply Z.leb_le; unfold len in *; lia).
  rewrite assert_true by (apply orb_true_iff; left; apply Z.leb_le; lia).
  cbn [rbind].
  destruct (Z.leb_spec (Z.of_nat k) 0) as [Hk0|Hk0].
  - assert (k = 0%nat) as -> by lia. simpl.
    eexists. split; [reflexivity|].
    unfold dereference. cbn [curr_ leaf_of offset].
    assert (x = x0) as -> by congruence.
    by apply (read_leaf_ok h a0 l0).
  - cbn [andb]. rewrite land_mask.
    pose proof (Z.mod_pos_bound (Z.of_nat k) 32 ltac:(lia)) as Hmod.
    pose proof (Z.div_mod (Z.of_nat k) 32 ltac:(lia)) as Hdm.
    rewrite (u64_small (Z.of_nat k - Z.of_nat k mod 32)) by (unfold len in *; lia).
    rewrite Harr. cbn [rbind].
    replace (Z.of_nat k - (Z.of_nat k - Z.of_nat k mod 32)) with (Z.of_nat k mod 32) by lia.
    rewrite u64_small by lia.
    unfold ptr_add. cbn [offset leaf_of]. rewrite Z.add_0_l, branching_eq.
    destruct (Z.leb_spec 0 (Z.of_nat k mod 32)); [|lia].
    destruct (Z.leb_spec (Z.of_nat k mod 32) 32); [|lia].
    cbn [andb rbind]. eexists. split; [reflexivity|].
    unfold dereference. cbn [curr_ leaf_of offset].
    apply (read_leaf_ok h a l); (done || lia).
Qed.
End InRange.


(** ** Cursors *)

Section Cursor.
Context {T : Type} (checked : bool).
Implicit Types (h : heap T) (xs : list T) (v : vektor) (it : iterator).

(** With [assert] compiled out, [array_for_] past the last element returns
    the tail. *)
Lemma array_for_past h v xs idx :
  vektor_inv h v xs → len xs ≤ idx →
  ∃ a, array_for_ false h v idx = Ok a.
Proof.
  intros Hinv Hidx. pose proof (vektor_inv_size _ _ _ Hinv) as [Hsz Hn].
  destruct Hinv as (_ & d & _ & _ & _ & _ & _ & a & l & Ht & Ha & _).
  pose proof (toff_spec (len xs) ltac:(lia)) as (Ht0 & _).
  exists a. unfold array_for_, assert_. cbn [rbind].
  rewrite tail_offset_eq by lia. rewrite Hsz.
  destruct (Z.leb_spec (toff (len xs)) idx); [|lia].
  unfold leaf_ref, deref. by rewrite Ht, Ha.
Qed.

Lemma array_for_at_size h v : array_for_ true h v (size_ v) = Err AssertionFailed.
Proof. unfold array_for_, assert_. by rewrite Z.ltb_irrefl. Qed.

Lemma begin_spec h v xs :
  vektor_inv h v xs → 0 < len xs ∨ checked = false →
  ∃ it, begin checked h v = Ok it ∧ cursor_at h v xs it 0.
Proof.
  intros Hinv Hne. unfold begin.
  destruct (Z.lt_ge_cases 0 (len xs)) as [Hpos|Hzero].
  - destruct (array_for_block checked h v xs 0 Hinv) as (a & l & Harr & Ha & Hl & Hblock);
      [unfold len in Hpos; lia|].
    change (Z.of_nat 0) with 0 in *. rewrite Harr. cbn [rbind].
    eexists. split; [reflexivity|].
    split; [done|]. split; [done|]. split; [done|]. intros _. eauto.
  - destruct Hne as [? | ->]; [lia|].
    destruct (array_for_past h v xs 0 Hinv Hzero) as (a & ->). cbn [rbind].
    eexists. split; [reflexivity|].
    split; [done|]. split; [done|]. split; [done|]. intros [|]; [done|lia].
Qed.

Lemma end_spec h v xs :
  vektor_inv h v xs → 0 < len xs ∨ checked = false →
  ∃ it, end_ checked h v = Ok it ∧ cursor_at h v xs it (len xs).
Proof.
  intros Hinv Hne. pose proof (vektor_inv_size _ _ _ Hinv) as [Hsz Hn].
  unfold end_. rewrite Hsz, land_mask.
  pose proof (Z.mod_pos_bound (len xs) 32 ltac:(lia)) as Hmod.
  pose proof (Z.mod_le (len xs) 32 ltac:(lia) ltac:(lia)) as Hle.
  rewrite (u64_small (len xs - len xs mod 32)) by lia.
  replace (len xs - (len xs - len xs mod 32)) with (len xs mod 32) by lia.
  rewrite (u64_small (len xs mod 32)) by lia.
  unfold ptr_add. cbn [offset leaf_of]. rewrite Z.add_0_l, branching_eq.
  destruct (Z.leb_spec 0 (len xs mod 32)); [|lia].
  destruct (Z.leb_spec (len xs mod 32) 32); [|lia]. cbn [andb].
  destruct (Z.lt_ge_cases 0 (len xs)) as [Hpos|Hzero].
  - rewrite (u64_small (len xs - 1)) by lia.
    destruct (array_for_block checked h v xs (Z.to_nat (len xs - 1)) Hinv)
      as (a & l & Harr & Ha & Hl & Hblock); [unfold len in *; lia|].
    rewrite Z2Nat.id in Harr, Hblock by lia. rewrite Harr. cbn [rbind].
    eexists. split; [reflexivity|].
    split; [done|]. split; [done|]. split; [done|]. intros [Hnz|]; [|lia].
    cbn [curr_ offset leaf_of]. split; [done|].
    exists l. repeat split; try done.
    intros j y Hj. apply Hblock. rewrite Hj.
    by destruct (mod32_pred (len xs) Hpos Hnz) as [_ ->].
  - destruct Hne as [? | ->]; [lia|].
    destruct (array_for_past h v xs (u64 (len xs - 1)) Hinv) as (a & ->).
    { assert (len xs = 0) as -> by lia. by vm_compute. }
    cbn [rbind]. eexists. split; [reflexivity|].
    split; [done|]. split; [done|]. split; [done|].
    intros [Hnz|]; [|lia]. assert (len xs = 0) as Hz by lia.
    rewrite Hz in Hnz. done.
Qed.

Lemma dereference_spec h v xs it (i : nat) x :
  cursor_at h v xs it (Z.of_nat i) → xs !! i = Some x →
  dereference h it = Ok x.
Proof.
  intros (_ & _ & _ & Hcurr) Hx. pose proof (lookup_lt_Some _ _ _ Hx) as Hi.
  destruct Hcurr as (Hoff & l & Hl & _ & Hblock); [unfold len; lia|].
  unfold dereference. rewrite Hoff.
  apply (read_leaf_ok h _ l); [done | by apply Z.mod_pos_bound | by apply Hblock].
Qed.

Lemma increment_spec h v xs it i :
  vektor_inv h v xs → cursor_at h v xs it i → 0 ≤ i < len xs →
  i + 1 < len xs ∨ (i + 1) mod 32 ≠ 0 ∨ checked = false →
  ∃ it', increment checked h it = Ok it' ∧ cursor_at h v xs it' (i + 1).
Proof.
  intros Hinv (Hv & Hi & Hbase & Hcurr) Hrange Hok.
  pose proof (vektor_inv_size _ _ _ Hinv) as [Hsz Hn].
  destruct Hcurr as (Hoff & l & Hl & Hlen & Hblock); [lia|].
  pose proof (Z.mod_pos_bound i 32 ltac:(lia)) as Hmod.
  pose proof (Z.mod_le i 32 ltac:(lia) ltac:(lia)) as Hle.
  unfold increment. rewrite Hv, Hi, Hbase, Hsz.
  rewrite assert_true by (apply Z.ltb_lt; lia). cbn [rbind].
  rewrite (u64_small (i + 1)) by lia.
  replace (i + 1 - (i - i mod 32)) with (i mod 32 + 1) by lia.
  rewrite (u64_small (i mod 32 + 1)), branching_eq by lia.
  destruct (Z.ltb_spec (i mod 32 + 1) 32) as [Hfast|Hslow].
  - destruct (mod32_succ i ltac:(lia) ltac:(lia)) as [Hm Hd].
    unfold ptr_add. rewrite Hoff, branching_eq.
    destruct (Z.leb_spec 0 (i mod 32 + 1)); [|lia].
    destruct (Z.leb_spec (i mod 32 + 1) 32); [|lia]. cbn [andb rbind].
    eexists. split; [reflexivity|]. split; [done|]. split; [done|].
    split; [cbn [base_]; lia|]. intros _. cbn [curr_ offset leaf_of].
    split; [lia|]. exists l. repeat split; try done.
    intros j y Hj. apply Hblock. by rewrite Hj, Hd.
  - destruct (mod32_succ_wrap i ltac:(lia) ltac:(lia)) as [Hm Hd].
    rewrite (u64_small (i - i mod 32 + 32)) by lia.
    destruct (Z.lt_ge_cases (i + 1) (len xs)) as [Hin|Hend].
    + destruct (array_for_block checked h v xs (Z.to_nat (i + 1)) Hinv)
        as (a' & l' & Harr & Ha' & Hl' & Hblock'); [unfold len in *; lia|].
      rewrite Z2Nat.id in Harr, Hblock' by lia. rewrite Harr. cbn [rbind].
      eexists. split; [reflexivity|]. split; [done|]. split; [done|].
      split; [cbn [base_]; lia|]. intros _. cbn [curr_ offset leaf_of].
      split; [lia|]. exists l'. repeat split; try done.
    + destruct Hok as [?|[?| ->]]; [lia|lia|].
      destruct (array_for_past h v xs (i + 1) Hinv Hend) as (a' & ->).
      cbn [rbind]. eexists. split; [reflexivity|]. split; [done|]. split; [done|].
      split; [cbn [base_]; lia|]. intros [?|?]; lia.
Qed.

Lemma increment_fails h v xs it :
  vektor_inv h v xs → cursor_at h v xs it (len xs - 1) →
  0 < len xs → len xs mod 32 = 0 →
  increment true h it = Err AssertionFailed.
Proof.
  intros Hinv (Hv & Hi & Hbase & _) Hpos Hmod.
  pose proof (vektor_inv_size _ _ _ Hinv) as [Hsz Hn].
  destruct (mod32_pred_wrap (len xs) Hpos Hmod) as (Hm & _ & Hge).
  unfold increment, assert_. rewrite Hv, Hi, Hbase, Hsz, Hm.
  destruct (Z.ltb_spec (len xs - 1) (len xs)); [|lia]. cbn [rbind].
  replace (len xs - 1 + 1) with (len xs) by lia.
  rewrite (u64_small (len xs)) by lia.
  replace (len xs - (len xs - 1 - 31)) with 32 by lia.
  change (u64 32 <? branching) with false. cbv iota.
  by rewrite <- Hsz, array_for_at_size.
Qed.

Lemma decrement_spec h v xs it i :
  vektor_inv h v xs → cursor_at h v xs it i → 0 < i ≤ len xs →
  ∃ it', decrement checked h it = Ok it' ∧ cursor_at h v xs it' (i - 1).
Proof.
  intros Hinv (Hv & Hi & Hbase & Hcurr) Hrange.
  pose proof (vektor_inv_size _ _ _ Hinv) as [Hsz Hn].
  pose proof (Z.mod_pos_bound i 32 ltac:(lia)) as Hmod.
  pose proof (Z.mod_le i 32 ltac:(lia) ltac:(lia)) as Hle.
  unfold decrement. rewrite Hv, Hi, Hbase.
  rewrite assert_true by (apply Z.ltb_lt; lia). cbn [rbind].
  rewrite (u64_small (i - 1)) by lia.
  destruct (Z.leb_spec (i - i mod 32) (i - 1)) as [Hfast|Hslow].
  - destruct (mod32_pred i ltac:(lia) ltac:(lia)) as [Hm Hd].
    destruct Hcurr as (Hoff & l & Hl & Hlen & Hblock); [lia|].
    unfold ptr_add. rewrite Hoff, branching_eq.
    destruct (Z.leb_spec 0 (i mod 32 + -1)); [|lia].
    destruct (Z.leb_spec (i mod 32 + -1) 32); [|lia]. cbn [andb rbind].
    eexists. split; [reflexivity|]. split; [done|]. split; [done|].
    split; [cbn [base_]; lia|]. intros _. cbn [curr_ offset leaf_of].
    split; [lia|]. exists l. repeat split; try done.
    intros j y Hj. apply Hblock. by rewrite Hj, Hd.
  - destruct (mod32_pred_wrap i ltac:(lia) ltac:(lia)) as (Hm & Hd & Hge).
    rewrite branching_eq. rewrite (u64_small (i - i mod 32 - 32)) by lia.
    destruct (array_for_block checked h v xs (Z.to_nat (i - 1)) Hinv)
      as (a' & l' & Harr & Ha' & Hl' & Hblock'); [unfold len in *; lia|].
    rewrite Z2Nat.id in Harr, Hblock' by lia. rewrite Harr. cbn [rbind].
    unfold ptr_add. cbn [offset leaf_of].
    change ((0 <=? 32 + -1) && (32 + -1 <=? branching)) with true. cbn [rbind].
    eexists. split; [reflexivity|]. split; [done|]. split; [done|].
    split; [cbn [base_]; lia|]. intros _. cbn [curr_ offset leaf_of].
    split; [lia|]. exists l'. repeat split; try done.
Qed.
(** The forward loop from a cursor at [i] to the end yields the elements
    from [i] on, when the last increment does not reach [array_for_] with
    its assertion compiled in. *)
Lemma collect_spec h v xs last (m : nat) : ∀ it (i : nat),
  vektor_inv h v xs → cursor_at h v xs it (Z.of_nat i) →
  (i + m = length xs)%nat → i_ last = len xs →
  checked = false ∨ len xs mod 32 ≠ 0 →
  collect checked m h it last = Ok (drop i xs).
Proof.
  induction m as [|m IH]; intros it i Hinv Hcur Him Hlast Hok.
  - destruct Hcur as (_ & Hi & _). simpl. unfold equal.
    rewrite Hi, Hlast. unfold len. rewrite <- Him, Nat.add_0_r, Z.eqb_refl.
    by rewrite drop_ge by lia.
  - pose proof Hcur as (_ & Hi & _).
    destruct (lookup_lt_is_Some_2 xs i) as [x Hx]; [lia|].
    simpl. unfold equal. rewrite Hi, Hlast.
    destruct (Z.eqb_spec (Z.of_nat i) (len xs)); [unfold len in *; lia|].
    rewrite (dereference_spec h v xs it i x Hcur Hx). cbn [rbind].
    destruct (increment_spec h v xs it (Z.of_nat i) Hinv Hcur) as (it' & -> & Hcur').
    { unfold len. lia. }
    { destruct Hok as [->|Hnz]; [by right; right|].
      destruct (decide (i + 1 = length xs)%nat) as [Heq|Hne].
      - right; left. replace (Z.of_nat i + 1) with (len xs); [done|unfold len; lia].
      - left. unfold len. lia. }
    cbn [rbind]. replace (Z.of_nat i + 1) with (Z.of_nat (S i)) in Hcur' by lia.
    rewrite (IH it' (S i) Hinv Hcur') by (done || lia). cbn [rbind].
    by rewrite (drop_S xs x i Hx).
Qed.

Lemma collect_S fuel h it last :
  collect checked (S fuel) h it last =
    if equal it last then Ok []
    else let* x := dereference h it in
         let* it' := increment checked h it in
         let* xs := collect checked fuel h it' last in
         Ok (x :: xs).
Proof. reflexivity. Qed.

End Cursor.

Section Iteration.
Context {T : Type} (checked : bool).
Implicit Types (h : heap T) (xs : list T) (v : vektor) (it : iterator).

(** Forward iteration yields the elements in order, when [assert] is
    compiled out or the size is not a multiple of 32. *)
Lemma forward_iteration_spec h v xs :
  vektor_inv h v xs → checked = false ∨ len xs mod 32 ≠ 0 →
  forward_iteration checked h v = Ok xs.
Proof.
  intros Hinv Hok. pose proof (vektor_inv_size _ _ _ Hinv) as [Hsz Hn].
  assert (0 < len xs ∨ checked = false) as Hne.
  { destruct Hok as [|Hnz]; [by right|left].
    destruct (decide (len xs = 0)) as [Hz|]; [by rewrite Hz in Hnz | lia]. }
  destruct (begin_spec checked h v xs Hinv Hne) as (first & Hfirst & Hcur).
  destruct (end_spec checked h v xs Hinv Hne) as (last & Hlast & (_ & Hi & _)).
  unfold forward_iteration. rewrite Hfirst, Hlast, Hsz. cbn [rbind].
  unfold len at 1. rewrite Nat2Z.id.
  by rewrite (collect_spec checked h v xs last (length xs) first 0%nat).
Qed.

(** With the assertion compiled in and a size that is a positive multiple
    of 32, the loop fails on its last increment. *)
Lemma collect_fails h v xs last (m : nat) : ∀ it (i : nat),
  vektor_inv h v xs → cursor_at h v xs it (Z.of_nat i) →
  (i + S m = length xs)%nat → i_ last = len xs → len xs mod 32 = 0 →
  collect true (S m) h it last = Err AssertionFailed.
Proof.
  induction m as [|m IH]; intros it i Hinv Hcur Him Hlast Hmod.
  all: pose proof Hcur as (_ & Hi & _).
  all: destruct (lookup_lt_is_Some_2 xs i) as [x Hx]; [lia|].
  all: rewrite (collect_S true); unfold equal; rewrite Hi, Hlast.
  all: destruct (Z.eqb_spec (Z.of_nat i) (len xs)); [unfold len in *; lia|].
  all: rewrite (dereference_spec h v xs it i x Hcur Hx); cbn [rbind].
  - rewrite (increment_fails h v xs it Hinv); [done| |unfold len; lia|done].
    by replace (len xs - 1) with (Z.of_nat i) by (unfold len; lia).
  - destruct (increment_spec true h v xs it (Z.of_nat i) Hinv Hcur) as (it' & -> & Hcur').
    { unfold len. lia. }
    { left. unfold len. lia. }
    cbn [rbind]. replace (Z.of_nat i + 1) with (Z.of_nat (S i)) in Hcur' by lia.
    by rewrite (IH it' (S i) Hinv Hcur') by (done || lia).
Qed.
(** With [assert] compiled in, forward iteration fails when the size is a
    multiple of 32. *)
Lemma forward_iteration_fails h v xs :
  vektor_inv h v xs → len xs mod 32 = 0 →
  forward_iteration true h v = Err AssertionFailed.
Proof.
  intros Hinv Hmod. pose proof (vektor_inv_size _ _ _ Hinv) as [Hsz Hn].
  unfold forward_iteration.
  destruct (Z.lt_ge_cases 0 (len xs)) as [Hpos|Hzero].
  - destruct (begin_spec true h v xs Hinv (or_introl Hpos)) as (first & -> & Hcur).
    destruct (end_spec true h v xs Hinv (or_introl Hpos)) as (last & -> & (_ & Hi & _)).
    cbn [rbind]. rewrite Hsz. unfold len at 1. rewrite Nat2Z.id.
    destruct (length xs) as [|m] eqn:Hlen; [unfold len in Hpos; lia|].
    apply (collect_fails h v xs last m first 0%nat); (done || lia).
  - unfold begin. replace 0 with (size_ v) at 1 by lia.
    by rewrite array_for_at_size.
Qed.

(** The reverse loop from a cursor at [m] down to the first element yields
    the first [m] elements in reverse. *)
Lemma rcollect_spec h v xs last (m : nat) : ∀ it,
  vektor_inv h v xs → cursor_at h v xs it (Z.of_nat m) →
  (m ≤ length xs)%nat → i_ last = 0 →
  rcollect checked m h it last = Ok (rev (take m xs)).
Proof.
  induction m as [|m IH]; intros it Hinv Hcur Hm Hlast.
  - destruct Hcur as (_ & Hi & _). simpl. unfold equal.
    by rewrite Hi, Hlast.
  - pose proof Hcur as (_ & Hi & _).
    destruct (lookup_lt_is_Some_2 xs m) as [x Hx]; [lia|].
    cbn [rcollect]. unfold equal. rewrite Hi, Hlast.
    destruct (Z.eqb_spec (Z.of_nat (S m)) 0); [lia|].
    destruct (decrement_spec checked h v xs it (Z.of_nat (S m)) Hinv Hcur)
      as (it' & Hdec & Hcur'); [unfold len; lia|].
    replace (Z.of_nat (S m) - 1) with (Z.of_nat m) in Hcur' by lia.
    unfold reverse_dereference. rewrite Hdec. cbn [rbind].
    rewrite (dereference_spec h v xs it' m x Hcur' Hx). cbn [rbind].
    rewrite (IH it' Hinv Hcur') by (done || lia). cbn [rbind].
    by rewrite (take_S_r xs m x Hx), rev_unit.
Qed.

(** Reverse iteration over a non-empty vector yields the elements in
    reverse, with [assert] compiled in or out. *)
Lemma reverse_iteration_spec h v xs :
  vektor_inv h v xs → 0 < len xs ∨ checked = false →
  reverse_iteration checked h v = Ok (rev xs).
Proof.
  intros Hinv Hne. pose proof (vektor_inv_size _ _ _ Hinv) as [Hsz Hn].
  destruct (begin_spec checked h v xs Hinv Hne) as (last & Hlast & (_ & Hi & _)).
  destruct (end_spec checked h v xs Hinv Hne) as (first & Hfirst & Hcur).
  unfold reverse_iteration, rbegin, rend. rewrite Hfirst, Hlast, Hsz. cbn [rbind].
  unfold len at 1. rewrite Nat2Z.id.
  rewrite (rcollect_spec h v xs last (length xs) first) by done.
  by rewrite take_ge by lia.
Qed.
End Iteration.


(** ** Concrete vectors *)

Lemma zs_lookup n i : (i < n)%nat → zs n !! i = Some (Z.of_nat i).
Proof.
  intros Hi. unfold zs. by rewrite list_lookup_fmap, lookup_seq_lt.
Qed.

Lemma zs_snoc n : zs (S n) = zs n ++ [Z.of_nat n].
Proof. unfold zs. by rewrite seq_S, fmap_app. Qed.

Lemma len_zs n : len (zs n) = Z.of_nat n.
Proof. unfold len, zs. by rewrite length_fmap, length_seq. Qed.

Lemma overflow_check_elim n ov s s' :
  overflow_check n = Ok (ov, s, s') → (Z.of_nat n < max_size) →
  ∃ v h v' h',
    appended n = Ok (v, h) ∧ push_back 0 v (Z.of_nat n) h = Ok (v', h') ∧
    appended (S n) = Ok (v', h') ∧
    root_overflow v = Ok ov ∧ shift_ v = s ∧ shift_ v' = s' ∧
    vektor_inv h' v' (zs (S n)).
Proof.
  intros Hc Hn. unfold overflow_check in Hc.
  destruct (from_list_spec 0 (zs n)) as (v & h & Hrun & Hinv);
    [rewrite len_zs; lia|].
  destruct (push_back_spec 0 h v (zs n) (Z.of_nat n) Hinv)
    as (v' & h' & Hpush & _ & Hinv' & _); [rewrite len_zs; lia|].
  fold (appended n) in Hrun. rewrite Hrun in Hc. cbn [rbind fst snd] in Hc.
  rewrite Hpush in Hc.
  destruct (root_overflow v) as [ov'|e] eqn:Hov; [|done].
  cbn [rbind fst] in Hc. injection Hc as -> <- <-.
  exists v, h, v', h'. split; [done|]. split; [done|]. split.
  { unfold appended. rewrite zs_snoc.
    by rewrite (from_list_snoc 0 (zs n) (Z.of_nat n) v h Hrun). }
  repeat (split; [done|]). by rewrite zs_snoc.
Qed.

(** C3, the claim as stated fails: the 1025th append does not take the
    root-overflow branch. *)
Lemma no_root_overflow_at_1024 : ¬ root_overflow_at 1024.
Proof.
  intros (v & h & v' & h' & Hrun & _ & Hov & _).
  destruct (overflow_check_elim 1024 false 5 5)
    as (w & g & w' & g' & Hrun' & _ & _ & Hov' & _).
  - vm_compute. reflexivity.
  - vm_compute. reflexivity.
  - rewrite Hrun in Hrun'. injection Hrun' as <- <-. congruence.
Qed.

(** C3, as amended. Appending [0 .. 1024]: the 1025th append grafts the
    tail under the existing root and [shift_] stays [branching_log];
    afterwards the size is 1025 and element [i] is [i]. The root overflows,
    with [shift_] going from [branching_log] to [2 * branching_log], on the
    1057th append and on no earlier one. *)
Theorem first_root_overflow checked :
  (∃ v h v' h',
     appended 1024 = Ok (v, h) ∧ push_back 0 v 1024 h = Ok (v', h') ∧
     root_overflow v = Ok false ∧
     shift_ v = branching_log ∧ shift_ v' = branching_log ∧
     size v' = 1025 ∧
     ∀ i : nat, (i < 1025)%nat → at_ checked h' v' (Z.of_nat i) = Ok (Z.of_nat i)) ∧
  root_overflow_at 1056 ∧
  ∀ n : nat, (n < 1056)%nat → ¬ root_overflow_at n.
Proof.
  split; [|split].
  3:{ intros n Hn (v & h & _ & _ & Hrun & _ & Hov & Hs & _).
      apply from_list_inv, vektor_inv_size in Hrun as [Hsz _].
      rewrite len_zs in Hsz.
      unfold root_overflow, shl32_one in Hov. rewrite Hs, Hsz in Hov.
      change (branching_log <? 32) with true in Hov. cbn [rbind] in Hov.
      rewrite shiftr_log in Hov.
      change (u32 (Z.shiftl 1 branching_log)) with 32 in Hov.
      assert (Z.of_nat n / 32 < 33) by (apply Z.div_lt_upper_bound; lia).
      destruct (Z.ltb_spec 32 (Z.of_nat n / 32)); [lia | discriminate]. }
  - destruct (overflow_check_elim 1024 false 5 5)
      as (v & h & v' & h' & Hrun & Hpush & _ & Hov & Hs & Hs' & Hinv);
      [by vm_compute | by vm_compute |].
    exists v, h, v', h'.
    split; [exact Hrun|]. split; [exact Hpush|]. split; [exact Hov|].
    split; [exact Hs|]. split; [exact Hs'|]. split.
    + unfold size. destruct (vektor_inv_size _ _ _ Hinv) as [-> _].
      apply len_zs.
    + intros i Hi. apply (at_spec checked h' v' (zs 1025)); [done|].
      by apply zs_lookup.
  - destruct (overflow_check_elim 1056 true 5 10)
      as (v & h & v' & h' & Hrun & Hpush & _ & Hov & Hs & Hs' & _);
      [by vm_compute | by vm_compute |].
    exists v, h, v', h'.
    split; [exact Hrun|]. split; [exact Hpush|]. split; [exact Hov|].
    split; [exact Hs|]. exact Hs'.
Qed.

(** C4, the claim as stated fails: after 33 appends the tail offset is 32,
    which a tree of one leaf covers, so the least multiple of
    [branching_log] is 0, while [shift_] is [branching_log]. *)
Lemma shift_not_least_multiple :
  ∃ v h, appended 33 = Ok (v, h) ∧ size v = 33 ∧
         ¬ least_shift 0 (tail_offset_ v) (shift_ v).
Proof.
  eexists _, _. split; [vm_compute; reflexivity|]. split; [reflexivity|].
  match goal with
  | |- ¬ least_shift 0 (tail_offset_ ?v) (shift_ ?v) =>
      change (tail_offset_ v) with 32; change (shift_ v) with 5
  end.
  intros (k & Hk & _ & _ & Hmin).
  specialize (Hmin 0%nat ltac:(lia) ltac:(by vm_compute)).
  unfold branching_log in Hk. lia.
Qed.

(** C5. On the begin cursor of the three-element vector, advancing by 3
    (to the end position) takes the recompute path in the code, because the
    comparison reads [i_ <= base_], and fails the assertion of
    [array_for_]; the algorithm of the specification steps [curr] and
    returns the end cursor, as the code does when [assert] is compiled out. *)
Theorem advance_recomputes_at_end :
  ∃ v h it,
    from_list 0 [10; 20; 30] = Ok (v, h) ∧ begin true h v = Ok it ∧
    advance true h it 3 = Err AssertionFailed ∧
    advance_spec true h it 3
      = Ok (mk_iterator v 3 0 (mk_leaf_iterator 4%nat 3)) ∧
    advance false h it 3
      = Ok (mk_iterator v 3 0 (mk_leaf_iterator 4%nat 3)).
Proof.
  eexists _, _, _. split; [vm_compute; reflexivity|].
  split; [vm_compute; reflexivity|]. by vm_compute.
Qed.

(** C7. Forward iteration over the 32-element vector fails the assertion of
    [array_for_] on the last increment; reverse iteration yields the
    elements in reverse, and forward iteration yields them in order when
    [assert] is compiled out. Over the empty vector both directions fail the
    assertion, in [begin()] and in [end()]. *)
Theorem forward_iteration_full_tail :
  (∃ v h,
     appended 32 = Ok (v, h) ∧
     forward_iteration true h v = Err AssertionFailed ∧
     reverse_iteration true h v = Ok (rev (zs 32)) ∧
     forward_iteration false h v = Ok (zs 32)) ∧
  forward_iteration true (static_heap 0) empty_ = Err AssertionFailed ∧
  reverse_iteration true (static_heap 0) empty_ = Err AssertionFailed.
Proof.
  split; [|by vm_compute].
  eexists _, _. split; [vm_compute; reflexivity|]. by vm_compute.
Qed.

(** C8. The empty vector has size 0 and is empty; [begin()] and [end()]
    fail the assertion of [array_for_]; when [assert] is compiled out they
    return cursors that compare equal. *)
Theorem empty_vector_cursors {T} (dflt : T) :
  size empty_ = 0 ∧ empty empty_ = true ∧
  begin true (static_heap dflt) empty_ = Err AssertionFailed ∧
  end_ true (static_heap dflt) empty_ = Err AssertionFailed ∧
  ∃ b e, begin false (static_heap dflt) empty_ = Ok b ∧
         end_ false (static_heap dflt) empty_ = Ok e ∧
         equal b e = true.
Proof.
  repeat (split; [reflexivity|]).
  eexists _, _. split; [reflexivity|]. split; [reflexivity|]. reflexivity.
Qed.

(** C9. With [assert] compiled in, moving a cursor to the end position can
    fail the assertion [index < size_] of [array_for_]:
    - when the size is a positive multiple of [branching], incrementing the
      cursor at [size - 1] calls [array_for_ (size)];
    - advancing to [size] on the recompute path (the cursor's base is below
      [size]) calls [array_for_ (size)];
    - [end()] on the empty vector calls [array_for_] with the wrapped index
      [2^64 - 1]. *)
Theorem end_position_fails_assertion {T} (dflt : T) :
  (∀ (h : heap T) (it : iterator) (k : Z),
     1 ≤ k → size_ (v_ it) = branching * k → size_ (v_ it) < 2 ^ 63 →
     i_ it = size_ (v_ it) - 1 → base_ it = size_ (v_ it) - branching →
     array_for_ true h (v_ it) (size_ (v_ it)) = Err AssertionFailed ∧
     increment true h it =
       (let* arr := array_for_ true h (v_ it) (size_ (v_ it)) in
        Ok (mk_iterator (v_ it) (size_ (v_ it)) (size_ (v_ it))
                        (mk_leaf_iterator arr 0))) ∧
     increment true h it = Err AssertionFailed) ∧
  (∀ (h : heap T) (it : iterator) (n : Z),
     0 ≤ base_ it < size_ (v_ it) → size_ (v_ it) < 2 ^ 63 →
     0 ≤ i_ it → 0 ≤ n → i_ it + n = size_ (v_ it) →
     advance true h it n =
       (let* arr := array_for_ true h (v_ it) (size_ (v_ it)) in
        let* curr := ptr_add (mk_leaf_iterator arr 0)
                             (Z.land (size_ (v_ it)) branching_mask) in
        Ok (mk_iterator (v_ it) (size_ (v_ it))
                        (size_ (v_ it) - Z.land (size_ (v_ it)) branching_mask)
                        curr)) ∧
     advance true h it n = Err AssertionFailed) ∧
  (u64 (size_ empty_ - 1) = 2 ^ 64 - 1 ∧
   array_for_ true (static_heap dflt) empty_ (2 ^ 64 - 1) = Err AssertionFailed ∧
   end_ true (static_heap dflt) empty_ = Err AssertionFailed).
Proof.
  assert (∀ (h : heap T) v, array_for_ true h v (size_ v) = Err AssertionFailed)
    as Harr.
  { intros h v. unfold array_for_, assert_. by rewrite Z.ltb_irrefl. }
  split; [|split; [|by repeat split]].
  - intros h it k Hk Hsz Hmax Hi Hbase. rewrite branching_eq in *.
    split; [apply Harr|].
    assert (increment true h it =
       (let* arr := array_for_ true h (v_ it) (size_ (v_ it)) in
        Ok (mk_iterator (v_ it) (size_ (v_ it)) (size_ (v_ it))
                        (mk_leaf_iterator arr 0)))) as Hinc.
    { unfold increment, assert_.
      destruct (Z.ltb_spec (i_ it) (size_ (v_ it))); [|lia].
      cbn [rbind]. rewrite Hi, Hbase, branching_eq.
      replace (size_ (v_ it) - 1 + 1) with (size_ (v_ it)) by lia.
      rewrite (u64_small (size_ (v_ it))) by lia.
      replace (size_ (v_ it) - (size_ (v_ it) - 32)) with 32 by lia.
      change (u64 32 <? 32) with false. cbv iota.
      replace (size_ (v_ it) - 32 + 32) with (size_ (v_ it)) by lia.
      by rewrite (u64_small (size_ (v_ it))) by lia. }
    split; [done|]. by rewrite Hinc, Harr.
  - intros h it n Hbase Hmax Hi Hn Hsum.
    pose proof (Z.mod_pos_bound (size_ (v_ it)) 32 ltac:(lia)) as Hmod.
    pose proof (Z.mod_le (size_ (v_ it)) 32 ltac:(lia) ltac:(lia)) as Hle.
    assert (advance true h it n =
       (let* arr := array_for_ true h (v_ it) (size_ (v_ it)) in
        let* curr := ptr_add (mk_leaf_iterator arr 0)
                             (Z.land (size_ (v_ it)) branching_mask) in
        Ok (mk_iterator (v_ it) (size_ (v_ it))
                        (size_ (v_ it) - Z.land (size_ (v_ it)) branching_mask)
                        curr))) as Hadv.
    { unfold advance, assert_.
      rewrite (u64_small n) by lia. rewrite Hsum.
      rewrite (u64_small (size_ (v_ it))) by lia.
      rewrite Z.leb_refl, orb_true_r.
      destruct (Z.leb_spec 0 n); [|lia]. cbn [orb rbind].
      destruct (Z.leb_spec (size_ (v_ it)) (base_ it)); [lia|]. cbn [andb].
      rewrite land_mask.
      rewrite (u64_small (size_ (v_ it) - size_ (v_ it) mod 32)) by lia.
      replace (size_ (v_ it) - (size_ (v_ it) - size_ (v_ it) mod 32))
        with (size_ (v_ it) mod 32) by lia.
      by rewrite (u64_small (size_ (v_ it) mod 32)) by lia. }
    split; [done|]. by rewrite Hadv, Harr.
Qed.


(** * The claims *)

Section Reachable.
Context {T : Type} (dflt : T) (checked : bool).
Implicit Types (h : heap T) (xs : list T) (v : vektor).

Lemma push_back_after xs x v h v' h' :
  from_list dflt xs = Ok (v, h) → push_back dflt v x h = Ok (v', h') →
  len xs < max_size.
Proof.
  intros Hrun Hpush.
  pose proof (from_list_snoc dflt xs x v h Hrun) as Hsnoc.
  rewrite Hpush in Hsnoc. apply from_list_defined in Hsnoc.
  rewrite len_app in Hsnoc. change (len [x]) with 1 in Hsnoc. lia.
Qed.

(** C1. Appending [xs] to the empty vector returns a vector as long as
    [1u << shift_] is defined, that is up to [max_size] elements. Every
    vector [v] so obtained has size [length xs], indexed access at [i]
    returns the [i]-th appended element, and a further [push_back] returns
    a vector of size [size v + 1]. *)
Theorem push_back_builds_sequence xs :
  (len xs ≤ max_size → ∃ v h, from_list dflt xs = Ok (v, h)) ∧
  ∀ v h, from_list dflt xs = Ok (v, h) →
    size v = len xs ∧
    (∀ (i : nat) x, xs !! i = Some x → at_ checked h v (Z.of_nat i) = Ok x) ∧
    (∀ x, len xs < max_size → ∃ v' h', push_back dflt v x h = Ok (v', h')) ∧
    (∀ x v' h', push_back dflt v x h = Ok (v', h') → size v' = size v + 1).
Proof.
  split.
  - intros Hmax.
    destruct (builds_sequence_in_range dflt checked xs Hmax) as (v & h & Hrun & _).
    by exists v, h.
  - intros v h Hrun. pose proof (from_list_defined dflt xs v h Hrun) as Hmax.
    destruct (builds_sequence_in_range dflt checked xs Hmax)
      as (v0 & h0 & Hrun0 & Hsz & Hat & Hpush).
    rewrite Hrun in Hrun0. injection Hrun0 as <- <-.
    split; [done|]. split; [done|]. split.
    + intros x Hlt. destruct (Hpush x Hlt) as (v' & h' & Hrun' & _).
      by exists v', h'.
    + intros x v' h' Hrun'.
      pose proof (push_back_after xs x v h v' h' Hrun Hrun') as Hlt.
      destruct (Hpush x Hlt) as (v0 & h0 & Hrun0 & Hsz').
      rewrite Hrun' in Hrun0. by injection Hrun0 as <- <-.
Qed.

(** C2. For a vector [v] obtained by appending [xs], [push_back v x]
    keeps every node of the store as it was, so [v] is unchanged: its size
    is still [length xs] and indexed access returns the same elements as
    before; the new vector [v'] has one more element, agrees with [v] below
    [size v] and holds [x] at index [size v]. *)
Theorem push_back_persistent xs x :
  (len xs < max_size →
   ∃ v h v' h', from_list dflt xs = Ok (v, h) ∧
                push_back dflt v x h = Ok (v', h')) ∧
  ∀ v h v' h',
    from_list dflt xs = Ok (v, h) → push_back dflt v x h = Ok (v', h') →
    h `prefix_of` h' ∧ size v = len xs ∧ size v' = size v + 1 ∧
    (∀ i : nat, Z.of_nat i < size v →
       ∃ y, at_ checked h v (Z.of_nat i) = Ok y ∧
            at_ checked h' v (Z.of_nat i) = Ok y ∧
            at_ checked h' v' (Z.of_nat i) = Ok y) ∧
    at_ checked h' v' (size v) = Ok x.
Proof.
  split.
  - intros Hlt.
    destruct (persistent_in_range dflt checked xs x Hlt)
      as (v & h & v' & h' & Hrun & Hpush & _).
    by exists v, h, v', h'.
  - intros v h v' h' Hrun Hpush.
    pose proof (push_back_after xs x v h v' h' Hrun Hpush) as Hlt.
    destruct (persistent_in_range dflt checked xs x Hlt)
      as (v0 & h0 & v0' & h0' & Hrun0 & Hpush0 & Hrest).
    rewrite Hrun in Hrun0. injection Hrun0 as <- <-.
    rewrite Hpush in Hpush0. injection Hpush0 as <- <-.
    exact Hrest.
Qed.

(** C4, as amended. For every vector obtained by appending, [shift_] is
    the least positive multiple of [branching_log] whose tree capacity
    [branching ^ (shift_ / branching_log + 1)] covers the tail offset; this
    holds for the empty vector too. *)
Theorem shift_least_positive_multiple xs v h :
  from_list dflt xs = Ok (v, h) →
  least_shift 1 (tail_offset_ v) (shift_ v).
Proof.
  intros Hrun. pose proof (from_list_defined dflt xs v h Hrun) as Hmax.
  destruct (least_shift_in_range dflt xs Hmax) as (v0 & h0 & Hrun0 & Hleast).
  rewrite Hrun in Hrun0. by injection Hrun0 as <- <-.
Qed.

(** C6. For every vector [v] obtained by appending and every [k] below
    its size, advancing the begin cursor by [k] and dereferencing returns
    the element that indexed access returns at [k]. *)
Theorem advance_begin_dereference xs v h (k : nat) :
  from_list dflt xs = Ok (v, h) → Z.of_nat k < size v →
  ∃ it it' x,
    begin checked h v = Ok it ∧
    advance checked h it (Z.of_nat k) = Ok it' ∧
    dereference h it' = Ok x ∧
    at_ checked h v (Z.of_nat k) = Ok x.
Proof.
  intros Hrun Hk. pose proof (from_list_defined dflt xs v h Hrun) as Hmax.
  destruct (builds_sequence_in_range dflt checked xs Hmax)
    as (v1 & h1 & Hrun1 & Hsz & _).
  rewrite Hrun in Hrun1. injection Hrun1 as <- <-.
  destruct (lookup_lt_is_Some_2 xs k) as [x Hx];
    [unfold size, len in *; lia|].
  destruct (advance_begin_in_range dflt checked xs k x Hmax Hx)
    as (v0 & h0 & it & it' & Hrun0 & Hrest).
  rewrite Hrun in Hrun0. injection Hrun0 as <- <-.
  by exists it, it', x.
Qed.

(** C10. For every vector [v] obtained by appending, [push_back v x]
    allocates at least one node (the new tail leaf) and at most
    [shift_ / branching_log + 2], which is at most
    [ceil (log_B (size v + 1)) + 2]; every node that existed before is kept
    as it was, so nothing else is copied. *)
Theorem push_back_allocations xs x :
  (len xs < max_size →
   ∃ v h v' h', from_list dflt xs = Ok (v, h) ∧
                push_back dflt v x h = Ok (v', h')) ∧
  ∀ v h v' h',
    from_list dflt xs = Ok (v, h) → push_back dflt v x h = Ok (v', h') →
    h `prefix_of` h' ∧
    let allocated := len h' - len h in
    1 ≤ allocated ≤ shift_ v / branching_log + 2 ∧
    allocated ≤ ceil_log_branching (size v + 1) + 2.
Proof.
  split.
  - intros Hlt.
    destruct (allocations_in_range dflt xs x Hlt)
      as (v & h & v' & h' & Hrun & Hpush & _).
    by exists v, h, v', h'.
  - intros v h v' h' Hrun Hpush.
    pose proof (push_back_after xs x v h v' h' Hrun Hpush) as Hlt.
    destruct (allocations_in_range dflt xs x Hlt)
      as (v0 & h0 & v0' & h0' & Hrun0 & Hpush0 & Hrest).
    rewrite Hrun in Hrun0. injection Hrun0 as <- <-.
    rewrite Hpush in Hpush0. injection Hpush0 as <- <-.
    exact Hrest.
Qed.
End Reachable.

(** X18. Iteration over every vector obtained by appending: with [assert]
    compiled out both directions yield the elements; with it compiled in,
    forward iteration does exactly when the size is not a multiple of 32,
    and reverse iteration exactly when the vector is not empty. *)
Lemma iteration_outcomes {T} (dflt : T) (xs : list T) v h :
  from_list dflt xs = Ok (v, h) →
  forward_iteration false h v = Ok xs ∧
  reverse_iteration false h v = Ok (rev xs) ∧
  (len xs mod 32 ≠ 0 → forward_iteration true h v = Ok xs) ∧
  (len xs mod 32 = 0 → forward_iteration true h v = Err AssertionFailed) ∧
  (0 < len xs → reverse_iteration true h v = Ok (rev xs)) ∧
  (len xs = 0 → reverse_iteration true h v = Err AssertionFailed).
Proof.
  intros Hrun. pose proof (from_list_inv dflt xs v h Hrun) as Hinv.
  split; [by apply (forward_iteration_spec false h v xs); [|left]|].
  split; [by apply (reverse_iteration_spec false h v xs); [|right]|].
  split; [intros Hnz; by apply (forward_iteration_spec true h v xs); [|right]|].
  split; [by apply forward_iteration_fails|].
  split; [intros Hpos; by apply (reverse_iteration_spec true h v xs); [|left]|].
  intros Hzero. destruct xs; [|done].
  injection Hrun as <- <-. reflexivity.
Qed.

(** * Further properties *)

(** ** Stores that only grow *)

Section Extends.
Context {T : Type} (dflt : T).
Implicit Types (h : heap T) (v : vektor) (p tl : node_ptr).

Lemma make_path_rec_extends fuel : ∀ level nd h p h',
  make_path_rec fuel level nd h = Ok (p, h') → h `prefix_of` h'.
Proof.
  induction fuel as [|fuel IH]; intros level nd h p h'; simpl;
    destruct (level =? 0); unfold mret, lift; try by intros [= _ <-].
  unfold mbind.
  destruct (make_path_rec fuel _ nd h) as [[p1 h1]|] eqn:Hrun; [|done].
  intros [= _ <-]. etrans; [by eapply IH | by apply prefix_app_r].
Qed.

Lemma push_tail_rec_extends fuel : ∀ v level parent tl h p h',
  push_tail_rec fuel v level parent tl h = Ok (p, h') → h `prefix_of` h'.
Proof.
  induction fuel as [|fuel IH]; intros v level parent tl h p h'; [done|].
  rewrite push_tail_rec_S. unfold mbind at 1, reading, lift.
  destruct (let* n := deref h (Some parent) in inner n) as [cs|]; [|done].
  unfold mbind at 1, make_node_ at 1. unfold mbind at 1.
  destruct (shr64 _ level) as [s|]; [|done].
  unfold mbind at 1.
  match goal with
  | |- match ?m ?g with _ => _ end = _ → _ =>
      destruct (m g) as [[p1 h2]|] eqn:Hnext; [|done];
      assert (g `prefix_of` h2) as Hpre
  end.
  { destruct (level =? branching_log); [by injection Hnext as _ <-|].
    unfold mbind in Hnext at 1.
    destruct (at_index cs _) as [[c|]|]; [| |done].
    - unfold mbind in Hnext.
      destruct (deref _ (Some c)); [|done]. by eapply IH.
    - by eapply make_path_rec_extends. }
  unfold mbind, update_node, mret.
  destruct (deref h2 _) as [n|]; [|done]. cbn [rbind].
  destruct (set_child _ _ n) as [n'|]; [|done]. cbn [rbind].
  intros [= _ <-]. apply prefix_insert_fresh; [|lia].
  etrans; [by apply prefix_app_r | exact Hpre].
Qed.

(** When the tail has room, [push_back] makes one node: the copy of the
    tail with the value in its first free slot. *)
Lemma push_back_room_inv v x h v' h' :
  u64 (size_ v - tail_offset_ v) < branching →
  push_back dflt v x h = Ok (v', h') →
  ∃ a l, tail_ v = Some a ∧ h !! a = Some (Leaf l) ∧
    v' = mk_vektor (u64 (size_ v + 1)) (shift_ v) (root_ v) (Some (length h)) ∧
    let k := Z.to_nat (u64 (size_ v - tail_offset_ v)) in
    h' = <[length h := Leaf (<[k := x]> (take k l ++ drop k (replicate 32 dflt)))]>
           (h ++ [Leaf (replicate 32 dflt)]).
Proof.
  intros Hroom. unfold push_back.
  destruct (Z.ltb_spec (u64 (size_ v - tail_offset_ v)) branching); [|lia].
  unfold mbind at 1, reading, lift, deref.
  destruct (tail_ v) as [a|]; [|done].
  destruct (h !! a) as [[l|cs]|] eqn:Ha; try done. cbn [rbind leaf].
  unfold mbind at 1, make_node_ at 1.
  unfold mbind, update_node, deref, mret.
  rewrite lookup_app_r, Nat.sub_diag by lia. cbn [lookup list_lookup rbind].
  unfold fill_tail. cbn [leaf rbind].
  destruct (at_index _ _); [|done]. cbn [rbind].
  intros [= <- <-]. by exists a, l.
Qed.

(** When the tail is full, the new tail is the first node [push_back]
    makes; the nodes of the store are kept. *)
Lemma push_back_full_inv v x h v' h' :
  branching ≤ u64 (size_ v - tail_offset_ v) →
  push_back dflt v x h = Ok (v', h') →
  tail_ v' = Some (length h) ∧
  size_ v' = u64 (size_ v + 1) ∧
  h ++ [Leaf (x :: replicate 31 dflt)] `prefix_of` h'.
Proof.
  intros Hfull. unfold push_back.
  destruct (Z.ltb_spec (u64 (size_ v - tail_offset_ v)) branching); [lia|].
  unfold mbind at 1, make_node_ at 1.
  unfold mbind at 1, lift at 1.
  destruct (root_overflow v) as [[|]|]; [| |done].
  - unfold mbind at 1, make_path_.
    destruct (make_path_rec _ _ _ _) as [[path h1]|] eqn:Hpath; [|done].
    unfold mbind, make_node_, mret. intros [= <- <-].
    repeat split; try done.
    etrans; [by eapply make_path_rec_extends | by apply prefix_app_r].
  - unfold mbind at 1, reading, lift.
    destruct (let* _ := deref _ (root_ v) in _) as [root|]; [|done].
    unfold mbind, push_tail_, mret.
    destruct (push_tail_rec _ _ _ _ _ _) as [[p h1]|] eqn:Htail; [|done].
    intros [= <- <-]. repeat split; try done.
    by eapply push_tail_rec_extends.
Qed.

Lemma push_back_inv v x h v' h' :
  push_back dflt v x h = Ok (v', h') →
  h `prefix_of` h' ∧ (length h < length h')%nat ∧
  tail_ v' = Some (length h) ∧ size_ v' = u64 (size_ v + 1).
Proof.
  intros Hrun.
  destruct (Z.lt_ge_cases (u64 (size_ v - tail_offset_ v)) branching) as [Hroom|Hfull].
  - destruct (push_back_room_inv v x h v' h' Hroom Hrun) as (a & l & _ & _ & -> & ->).
    cbv zeta. split; [apply prefix_insert_fresh; [by apply prefix_app_r | lia]|].
    split; [rewrite length_insert, length_app; simpl; lia | done].
  - destruct (push_back_full_inv v x h v' h' Hfull Hrun) as (Ht & Hs & Hpre).
    split; [etrans; [by apply prefix_app_r | exact Hpre]|].
    split; [|done]. apply prefix_length in Hpre.
    rewrite length_app in Hpre. simpl in Hpre. lia.
Qed.
End Extends.

(** ** Blocks and leaves *)

Lemma u64_neg z : - 2 ^ 64 ≤ z < 0 → u64 z = z + 2 ^ 64.
Proof. intros. unfold u64. symmetry. apply (Z.mod_unique _ _ (-1)); lia. Qed.

Lemma div32_cap x d : 0 ≤ x → x / cap d = x / 32 / (cap d / 32).
Proof.
  intros Hx. pose proof (cap_pos d). pose proof (cap_mod d).
  pose proof (Z.div_mod (cap d) 32 ltac:(lia)) as Hc.
  rewrite Z.div_div by lia. f_equal. lia.
Qed.

Section Blocks.
Context {T : Type}.
Implicit Types (h H : heap T) (p : node_ptr).

(** The loop of [array_for_] looks at the index above its five low bits
    only. *)
Lemma descend_same_block d : ∀ fuel h p i j,
  (d ≤ 12)%nat → 0 ≤ i → 0 ≤ j → i / 32 = j / 32 →
  descend fuel h (branching_log * Z.of_nat d) p i
  = descend fuel h (branching_log * Z.of_nat d) p j.
Proof.
  induction d as [|d IH]; intros fuel h p i j Hd Hi Hj Hij.
  - by rewrite Z.mul_0_r, !descend_0.
  - destruct fuel as [|fuel]; [reflexivity|].
    rewrite !descend_S by (unfold branching_log; lia).
    destruct (deref h p) as [n|e]; [|done]. cbn [rbind].
    destruct (inner n) as [cs|e]; [|done]. cbn [rbind].
    unfold shr64.
    destruct (Z.ltb_spec (branching_log * Z.of_nat (S d)) 64); [|done].
    cbn [rbind]. rewrite !shiftr_level, (div32_cap i), (div32_cap j), Hij by done.
    destruct (at_index cs _) as [c|e]; [|done]. cbn [rbind].
    rewrite level_pred by done. by apply IH; [lia|..].
Qed.

(** A result of the loop is the same in every larger store. *)
Lemma descend_mono fuel : ∀ h H level p i r,
  heap_incl h H → descend fuel h level p i = Ok r →
  descend fuel H level p i = Ok r.
Proof.
  induction fuel as [|fuel IH]; intros h H level p i r Hincl; simpl;
    destruct (level =? 0); try done.
  destruct p as [a|]; [|done]. unfold deref.
  destruct (h !! a) as [n|] eqn:Ha; [|done]. rewrite (Hincl _ _ Ha).
  cbn [rbind]. destruct (inner n) as [cs|]; [|done]. cbn [rbind].
  destruct (shr64 i level) as [s|]; [|done]. cbn [rbind].
  destruct (at_index cs _) as [c|]; [|done]. cbn [rbind].
  by apply IH.
Qed.

Lemma leaf_ref_mono h H p a :
  heap_incl h H → leaf_ref h p = Ok a → leaf_ref H p = Ok a.
Proof.
  intros Hincl. unfold leaf_ref, deref. destruct p as [b|]; [|done].
  destruct (h !! b) as [n|] eqn:Hb; [|done]. by rewrite (Hincl _ _ Hb).
Qed.

Lemma array_for_mono checked h H v i a :
  heap_incl h H → array_for_ checked h v i = Ok a →
  array_for_ checked H v i = Ok a.
Proof.
  intros Hincl. unfold array_for_.
  destruct (assert_ checked _); [|done]. cbn [rbind].
  destruct (tail_offset_ v <=? i); [by apply leaf_ref_mono|].
  destruct (descend _ h _ _ _) as [nd|] eqn:Hd; [|done].
  rewrite (descend_mono _ _ _ _ _ _ _ Hincl Hd). cbn [rbind].
  by apply leaf_ref_mono.
Qed.

Lemma read_leaf_mono h H a off x :
  heap_incl h H → read_leaf h a off = Ok x → read_leaf H a off = Ok x.
Proof.
  intros Hincl. unfold read_leaf, deref.
  destruct (h !! a) as [n|] eqn:Ha; [|done]. by rewrite (Hincl _ _ Ha).
Qed.

Lemma at_mono checked h H v i x :
  heap_incl h H → at_ checked h v i = Ok x → at_ checked H v i = Ok x.
Proof.
  intros Hincl. unfold at_.
  destruct (array_for_ checked h v i) as [a|] eqn:Ha; [|done].
  rewrite (array_for_mono _ _ _ _ _ _ Hincl Ha). cbn [rbind].
  by apply read_leaf_mono.
Qed.
End Blocks.

Section Positions.
Context {T : Type} (checked : bool).
Implicit Types (h H : heap T) (xs : list T) (v : vektor) (it : iterator).

(** Indices of one block of 32 are served by the same leaf. *)
Lemma array_for_same_block h v xs i j :
  vektor_inv h v xs → 0 ≤ i < len xs → 0 ≤ j < len xs → i / 32 = j / 32 →
  array_for_ checked h v i = array_for_ checked h v j.
Proof.
  intros Hinv Hi Hj Hij. pose proof (vektor_inv_size _ _ _ Hinv) as [Hsz Hn].
  destruct Hinv as (_ & d & Hd & Hshift & _).
  pose proof (toff_spec (len xs) ltac:(lia)) as (Ht0 & Htm & _).
  unfold array_for_.
  rewrite !assert_true by (apply Z.ltb_lt; lia). cbn [rbind].
  rewrite tail_offset_eq by lia. rewrite Hsz.
  pose proof (Z.div_mod (toff (len xs)) 32 ltac:(lia)).
  pose proof (Z.div_mod i 32 ltac:(lia)). pose proof (Z.div_mod j 32 ltac:(lia)).
  pose proof (Z.mod_pos_bound i 32 ltac:(lia)).
  pose proof (Z.mod_pos_bound j 32 ltac:(lia)).
  destruct (Z.leb_spec (toff (len xs)) i), (Z.leb_spec (toff (len xs)) j);
    try lia; [done|].
  by rewrite Hshift, (descend_same_block d _ h (root_ v) i j) by lia.
Qed.

(** From the tail offset on, [array_for_] returns the tail. *)
Lemma array_for_tail h v xs idx :
  vektor_inv h v xs → toff (len xs) ≤ idx → idx < len xs ∨ checked = false →
  array_for_ checked h v idx = leaf_ref h (tail_ v).
Proof.
  intros Hinv Hidx Hok. pose proof (vektor_inv_size _ _ _ Hinv) as [Hsz Hn].
  unfold array_for_. rewrite tail_offset_eq by lia. rewrite Hsz.
  destruct (Z.leb_spec (toff (len xs)) idx); [|lia].
  destruct Hok as [Hlt | ->]; [|done].
  by rewrite assert_true by (apply Z.ltb_lt; lia).
Qed.

Lemma cursor_of_ok h v xs (i : nat) x :
  vektor_inv h v xs → xs !! i = Some x →
  ∃ it, cursor_of checked h v (Z.of_nat i) = Ok it ∧ dereference h it = Ok x.
Proof.
  intros Hinv Hx.
  destruct (array_for_spec checked h v xs i x Hinv Hx) as (a & l & Harr & Ha & _ & Hl).
  unfold cursor_of. rewrite Harr. cbn [rbind]. eexists. split; [reflexivity|].
  unfold dereference. cbn [curr_ leaf_of offset].
  apply (read_leaf_ok h a l); [done | by apply Z.mod_pos_bound | done].
Qed.

Lemma begin_cursor h v : begin checked h v = cursor_of checked h v 0.
Proof. reflexivity. Qed.

Lemma cursor_of_inv h v i it :
  cursor_of checked h v i = Ok it →
  ∃ a, array_for_ checked h v i = Ok a ∧
       it = mk_iterator v i (i - i mod 32) (mk_leaf_iterator a (i mod 32)).
Proof.
  unfold cursor_of. destruct (array_for_ checked h v i) as [a|]; [|done].
  cbn [rbind]. intros [= <-]. by exists a.
Qed.

(** [advance] between two positions below the size lands on the cursor of
    the target position. *)
Lemma advance_cursor h v xs it i n :
  vektor_inv h v xs → 0 ≤ i < len xs → 0 ≤ i + n < len xs →
  cursor_of checked h v i = Ok it →
  advance checked h it n = cursor_of checked h v (i + n).
Proof.
  intros Hinv Hi Hin Hit. pose proof (vektor_inv_size _ _ _ Hinv) as [Hsz Hn].
  destruct (cursor_of_inv _ _ _ _ Hit) as (a & Ha & ->).
  pose proof (Z.mod_pos_bound i 32 ltac:(lia)) as Hmod.
  pose proof (Z.div_mod i 32 ltac:(lia)) as Hdm.
  pose proof (Z.mod_pos_bound (i + n) 32 ltac:(lia)) as Hmod'.
  pose proof (Z.div_mod (i + n) 32 ltac:(lia)) as Hdm'.
  unfold advance. cbn [v_ i_ base_ curr_]. rewrite Hsz.
  rewrite assert_true.
  2:{ apply orb_true_iff. destruct (Z.leb_spec n 0); [by left | right].
      apply Z.leb_le. rewrite (u64_small n), u64_small by lia. lia. }
  rewrite assert_true.
  2:{ apply orb_true_iff. destruct (Z.leb_spec 0 n); [by left | right].
      apply Z.leb_le. rewrite u64_small by lia. lia. }
  cbn [rbind]. rewrite (u64_small (i + n)) by lia.
  destruct (Z.lt_trichotomy (i + n) (i - i mod 32)) as [Hlt | [Heq | Hgt]].
  - (* below the block: recompute *)
    destruct (Z.leb_spec (i + n) (i - i mod 32)); [|lia].
    rewrite u64_neg, branching_eq by lia.
    destruct (Z.ltb_spec (i + n - (i - i mod 32) + 2 ^ 64) 32); [lia|].
    cbn [andb]. rewrite land_mask.
    rewrite (u64_small (i + n - (i + n) mod 32)) by lia.
    unfold cursor_of. destruct (array_for_ checked h v (i + n)) as [a'|]; [|done].
    cbn [rbind].
    replace (i + n - (i + n - (i + n) mod 32)) with ((i + n) mod 32) by lia.
    rewrite u64_small by lia. unfold ptr_add. cbn [offset leaf_of].
    rewrite Z.add_0_l, branching_eq.
    destruct (Z.leb_spec 0 ((i + n) mod 32)); [|lia].
    destruct (Z.leb_spec ((i + n) mod 32) 32); [|lia]. done.
  - (* the start of the block: step *)
    destruct (Z.leb_spec (i + n) (i - i mod 32)); [|lia].
    replace (i + n - (i - i mod 32)) with 0 by lia. cbn [andb].
    change (u64 0 <? branching) with true. cbv iota.
    unfold ptr_add. cbn [offset leaf_of]. rewrite branching_eq.
    replace (i mod 32 + n) with 0 by lia.
    change ((0 <=? 0) && (0 <=? 32)) with true. cbv iota.
    assert ((i + n) / 32 = i / 32) as Hblock.
    { symmetry. apply (Z.div_unique _ _ _ 0); lia. }
    assert ((i + n) mod 32 = 0) as Hm.
    { symmetry. apply (Z.mod_unique _ _ (i / 32)); lia. }
    unfold cursor_of.
    rewrite (array_for_same_block h v xs (i + n) i Hinv) by (done || lia).
    rewrite Ha. cbn [rbind]. rewrite Hm. do 2 f_equal. lia.
  - (* elsewhere: recompute *)
    destruct (Z.leb_spec (i + n) (i - i mod 32)); [lia|].
    cbn [andb]. rewrite land_mask.
    rewrite (u64_small (i + n - (i + n) mod 32)) by lia.
    unfold cursor_of. destruct (array_for_ checked h v (i + n)) as [a'|]; [|done].
    cbn [rbind].
    replace (i + n - (i + n - (i + n) mod 32)) with ((i + n) mod 32) by lia.
    rewrite u64_small by lia. unfold ptr_add. cbn [offset leaf_of].
    rewrite Z.add_0_l, branching_eq.
    destruct (Z.leb_spec 0 ((i + n) mod 32)); [|lia].
    destruct (Z.leb_spec ((i + n) mod 32) 32); [|lia]. done.
Qed.

Lemma increment_cursor h v xs it i :
  vektor_inv h v xs → 0 ≤ i → i + 1 < len xs →
  cursor_of checked h v i = Ok it →
  increment checked h it = cursor_of checked h v (i + 1).
Proof.
  intros Hinv Hi Hin Hit. pose proof (vektor_inv_size _ _ _ Hinv) as [Hsz Hn].
  destruct (cursor_of_inv _ _ _ _ Hit) as (a & Ha & ->).
  pose proof (Z.mod_pos_bound i 32 ltac:(lia)) as Hmod.
  pose proof (Z.mod_le i 32 ltac:(lia) ltac:(lia)) as Hle.
  unfold increment. cbn [v_ i_ base_ curr_]. rewrite Hsz.
  rewrite assert_true by (apply Z.ltb_lt; lia). cbn [rbind].
  rewrite (u64_small (i + 1)) by lia.
  replace (i + 1 - (i - i mod 32)) with (i mod 32 + 1) by lia.
  rewrite (u64_small (i mod 32 + 1)), branching_eq by lia.
  unfold cursor_of.
  destruct (Z.ltb_spec (i mod 32 + 1) 32) as [Hfast|Hslow].
  - destruct (mod32_succ i ltac:(lia) ltac:(lia)) as [Hm Hd].
    unfold ptr_add. cbn [offset leaf_of]. rewrite branching_eq.
    destruct (Z.leb_spec 0 (i mod 32 + 1)); [|lia].
    destruct (Z.leb_spec (i mod 32 + 1) 32); [|lia]. cbn [andb rbind].
    rewrite (array_for_same_block h v xs (i + 1) i Hinv) by (done || lia).
    rewrite Ha. cbn [rbind]. rewrite Hm. do 2 f_equal. lia.
  - destruct (mod32_succ_wrap i ltac:(lia) ltac:(lia)) as [Hm Hd].
    rewrite (u64_small (i - i mod 32 + 32)) by lia.
    destruct (array_for_ checked h v (i + 1)) as [a'|]; [|done].
    cbn [rbind]. rewrite Hm. do 2 f_equal. lia.
Qed.

Lemma decrement_cursor h v xs it i :
  vektor_inv h v xs → 0 < i < len xs →
  cursor_of checked h v i = Ok it →
  decrement checked h it = cursor_of checked h v (i - 1).
Proof.
  intros Hinv Hi Hit. pose proof (vektor_inv_size _ _ _ Hinv) as [Hsz Hn].
  destruct (cursor_of_inv _ _ _ _ Hit) as (a & Ha & ->).
  pose proof (Z.mod_pos_bound i 32 ltac:(lia)) as Hmod.
  pose proof (Z.mod_le i 32 ltac:(lia) ltac:(lia)) as Hle.
  unfold decrement. cbn [v_ i_ base_ curr_].
  rewrite assert_true by (apply Z.ltb_lt; lia). cbn [rbind].
  rewrite (u64_small (i - 1)) by lia.
  unfold cursor_of.
  destruct (Z.leb_spec (i - i mod 32) (i - 1)) as [Hfast|Hslow].
  - destruct (mod32_pred i ltac:(lia) ltac:(lia)) as [Hm Hd].
    unfold ptr_add. cbn [offset leaf_of]. rewrite branching_eq.
    destruct (Z.leb_spec 0 (i mod 32 + -1)); [|lia].
    destruct (Z.leb_spec (i mod 32 + -1) 32); [|lia]. cbn [andb rbind].
    rewrite (array_for_same_block h v xs (i - 1) i Hinv) by (done || lia).
    rewrite Ha. cbn [rbind]. rewrite Hm. do 2 f_equal; lia.
  - destruct (mod32_pred_wrap i ltac:(lia) ltac:(lia)) as (Hm & Hd & Hge).
    rewrite branching_eq. rewrite (u64_small (i - i mod 32 - 32)) by lia.
    destruct (array_for_ checked h v (i - 1)) as [a'|]; [|done].
    cbn [rbind]. unfold ptr_add. cbn [offset leaf_of].
    change ((0 <=? 32 + -1) && (32 + -1 <=? branching)) with true. cbn [rbind].
    rewrite Hm. do 2 f_equal. lia.
Qed.

Lemma tail_ref h v xs : vektor_inv h v xs → ∃ a, leaf_ref h (tail_ v) = Ok a.
Proof.
  intros (_ & d & _ & _ & _ & _ & _ & a & l & Ht & Ha & _).
  exists a. unfold leaf_ref, deref. by rewrite Ht, Ha.
Qed.

(** The end cursor: at [size], pointing into the tail. *)
Lemma end_eq h v xs :
  vektor_inv h v xs → 0 < len xs ∨ checked = false →
  end_ checked h v =
    let* a := leaf_ref h (tail_ v) in
    Ok (mk_iterator v (len xs) (len xs - len xs mod 32)
                    (mk_leaf_iterator a (len xs mod 32))).
Proof.
  intros Hinv Hok. pose proof (vektor_inv_size _ _ _ Hinv) as [Hsz Hn].
  pose proof (toff_spec (len xs) ltac:(lia)) as (Ht0 & _ & _ & Htlt).
  pose proof (Z.mod_pos_bound (len xs) 32 ltac:(lia)) as Hmod.
  pose proof (Z.mod_le (len xs) 32 ltac:(lia) ltac:(lia)) as Hle.
  unfold end_. rewrite Hsz, land_mask.
  rewrite (u64_small (len xs - len xs mod 32)) by lia.
  replace (len xs - (len xs - len xs mod 32)) with (len xs mod 32) by lia.
  rewrite (u64_small (len xs mod 32)) by lia.
  rewrite (array_for_tail h v xs); [|done| |].
  - destruct (leaf_ref h (tail_ v)) as [a|]; [|done]. cbn [rbind].
    unfold ptr_add. cbn [offset leaf_of]. rewrite Z.add_0_l, branching_eq.
    destruct (Z.leb_spec 0 (len xs mod 32)); [|lia].
    by destruct (Z.leb_spec (len xs mod 32) 32); [|lia].
  - destruct (Z.lt_ge_cases 0 (len xs)).
    + rewrite u64_small by lia. lia.
    + assert (len xs = 0) as -> by lia. by vm_compute.
  - destruct (Z.lt_ge_cases 0 (len xs)); [|destruct Hok; [lia | by right]].
    left. rewrite u64_small by lia. lia.
Qed.

(** Stepping back from the end reaches the cursor of the last element. *)
Lemma decrement_end h v xs e :
  vektor_inv h v xs → 0 < len xs → end_ checked h v = Ok e →
  decrement checked h e = cursor_of checked h v (len xs - 1).
Proof.
  intros Hinv Hpos He. pose proof (vektor_inv_size _ _ _ Hinv) as [Hsz Hn].
  pose proof (toff_spec (len xs) ltac:(lia)) as (Ht0 & _ & _ & Htlt).
  pose proof (Z.mod_pos_bound (len xs) 32 ltac:(lia)) as Hmod.
  pose proof (Z.mod_le (len xs) 32 ltac:(lia) ltac:(lia)) as Hle.
  rewrite (end_eq h v xs Hinv (or_introl Hpos)) in He.
  destruct (tail_ref h v xs Hinv) as (a & Ha). rewrite Ha in He.
  cbn [rbind] in He. injection He as <-.
  unfold cursor_of. rewrite (array_for_tail h v xs), Ha by (done || lia).
  cbn [rbind]. unfold decrement. cbn [v_ i_ base_ curr_].
  rewrite assert_true by (apply Z.ltb_lt; lia). cbn [rbind].
  rewrite (u64_small (len xs - 1)) by lia.
  destruct (Z.leb_spec (len xs - len xs mod 32) (len xs - 1)) as [Hfast|Hslow].
  - destruct (mod32_pred (len xs) ltac:(lia) ltac:(lia)) as [Hm Hd].
    unfold ptr_add. cbn [offset leaf_of]. rewrite branching_eq.
    destruct (Z.leb_spec 0 (len xs mod 32 + -1)); [|lia].
    destruct (Z.leb_spec (len xs mod 32 + -1) 32); [|lia]. cbn [andb rbind].
    rewrite Hm. do 2 f_equal; lia.
  - destruct (mod32_pred_wrap (len xs) ltac:(lia) ltac:(lia)) as (Hm & Hd & Hge).
    rewrite branching_eq. rewrite (u64_small (len xs - len xs mod 32 - 32)) by lia.
    rewrite (array_for_tail h v xs), Ha by (done || lia). cbn [rbind].
    unfold ptr_add. cbn [offset leaf_of].
    change ((0 <=? 32 + -1) && (32 + -1 <=? branching)) with true. cbn [rbind].
    rewrite Hm. do 2 f_equal. lia.
Qed.

(** Stepping forward from the last element reaches the end cursor, unless
    the step calls [array_for_] with its assertion compiled in. *)
Lemma increment_to_end h v xs it :
  vektor_inv h v xs → 0 < len xs → len xs mod 32 ≠ 0 ∨ checked = false →
  cursor_of checked h v (len xs - 1) = Ok it →
  increment checked h it = end_ checked h v.
Proof.
  intros Hinv Hpos Hok Hit. pose proof (vektor_inv_size _ _ _ Hinv) as [Hsz Hn].
  pose proof (toff_spec (len xs) ltac:(lia)) as (Ht0 & _ & _ & Htlt).
  pose proof (Z.mod_pos_bound (len xs) 32 ltac:(lia)) as Hmod.
  pose proof (Z.mod_le (len xs) 32 ltac:(lia) ltac:(lia)) as Hle.
  pose proof (Z.mod_pos_bound (len xs - 1) 32 ltac:(lia)) as Hmod1.
  pose proof (Z.mod_le (len xs - 1) 32 ltac:(lia) ltac:(lia)) as Hle1.
  rewrite (end_eq h v xs Hinv (or_introl Hpos)).
  destruct (tail_ref h v xs Hinv) as (a & Ha). rewrite Ha. cbn [rbind].
  unfold cursor_of in Hit.
  rewrite (array_for_tail h v xs), Ha in Hit by (done || lia).
  cbn [rbind] in Hit. injection Hit as <-.
  unfold increment. cbn [v_ i_ base_ curr_]. rewrite Hsz.
  rewrite assert_true by (apply Z.ltb_lt; lia). cbn [rbind].
  replace (len xs - 1 + 1) with (len xs) by lia.
  rewrite (u64_small (len xs)) by lia.
  replace (len xs - (len xs - 1 - (len xs - 1) mod 32))
    with ((len xs - 1) mod 32 + 1) by lia.
  rewrite (u64_small ((len xs - 1) mod 32 + 1)), branching_eq by lia.
  destruct (Z.ltb_spec ((len xs - 1) mod 32 + 1) 32) as [Hfast|Hslow].
  - destruct (mod32_succ (len xs - 1) ltac:(lia) ltac:(lia)) as [Hm Hd].
    replace (len xs - 1 + 1) with (len xs) in Hm by lia.
    unfold ptr_add. cbn [offset leaf_of]. rewrite branching_eq.
    destruct (Z.leb_spec 0 ((len xs - 1) mod 32 + 1)); [|lia].
    destruct (Z.leb_spec ((len xs - 1) mod 32 + 1) 32); [|lia]. cbn [andb rbind].
    rewrite Hm. do 2 f_equal; lia.
  - destruct (mod32_succ_wrap (len xs - 1) ltac:(lia) ltac:(lia)) as [Hm Hd].
    replace (len xs - 1 + 1) with (len xs) in Hm by lia.
    destruct Hok as [? | Hc]; [lia|].
    rewrite (u64_small (len xs - 1 - (len xs - 1) mod 32 + 32)) by lia.
    rewrite (array_for_tail h v xs), Ha by (done || lia || by right).
    cbn [rbind]. rewrite Hm. do 2 f_equal; lia.
Qed.
(** With [assert] compiled out, advancing to [size] reaches the end
    cursor. *)
Lemma advance_to_end h v xs it i :
  vektor_inv h v xs → 0 ≤ i < len xs → checked = false →
  cursor_of checked h v i = Ok it →
  advance checked h it (len xs - i) = end_ checked h v.
Proof.
  intros Hinv Hi Hc Hit. pose proof (vektor_inv_size _ _ _ Hinv) as [Hsz Hn].
  destruct (cursor_of_inv _ _ _ _ Hit) as (a & Ha & ->).
  pose proof (Z.mod_pos_bound i 32 ltac:(lia)) as Hmod.
  pose proof (Z.mod_le i 32 ltac:(lia) ltac:(lia)) as Hle.
  pose proof (Z.mod_pos_bound (len xs) 32 ltac:(lia)) as Hmod'.
  pose proof (Z.mod_le (len xs) 32 ltac:(lia) ltac:(lia)) as Hle'.
  pose proof (toff_spec (len xs) ltac:(lia)) as (Ht0 & _).
  rewrite (end_eq h v xs Hinv (or_intror Hc)).
  unfold advance. cbn [v_ i_ base_ curr_]. rewrite Hsz.
  replace (i + (len xs - i)) with (len xs) by lia.
  rewrite assert_true.
  2:{ apply orb_true_iff. right. apply Z.leb_le.
      rewrite (u64_small (len xs - i)) by lia.
      replace (i + (len xs - i)) with (len xs) by lia.
      rewrite u64_small by lia. lia. }
  rewrite assert_true by (apply orb_true_iff; left; apply Z.leb_le; lia).
  cbn [rbind]. rewrite (u64_small (len xs)) by lia.
  destruct (Z.leb_spec (len xs) (i - i mod 32)); [lia|]. cbn [andb].
  rewrite land_mask. rewrite (u64_small (len xs - len xs mod 32)) by lia.
  rewrite (array_for_tail h v xs) by (done || lia || by right).
  destruct (leaf_ref h (tail_ v)) as [b|]; [|done]. cbn [rbind].
  replace (len xs - (len xs - len xs mod 32)) with (len xs mod 32) by lia.
  rewrite u64_small by lia. unfold ptr_add. cbn [offset leaf_of].
  rewrite Z.add_0_l, branching_eq.
  destruct (Z.leb_spec 0 (len xs mod 32)); [|lia].
  by destruct (Z.leb_spec (len xs mod 32) 32); [|lia].
Qed.
End Positions.

(** ** Shared structure *)

Section Sharing.
Context {T : Type}.
Implicit Types (g h H : heap T) (ys l : list T) (p tl nd : node_ptr).

(** The path made by [make_path_] leads to the node it wraps. *)
Lemma make_path_rec_descend d : ∀ h nd p h',
  (d ≤ 12)%nat →
  make_path_rec d (branching_log * Z.of_nat d) nd h = Ok (p, h') →
  ∀ H i q k, has_fresh h h' H → 0 ≤ q → 0 ≤ k < 32 → i = q * cap d + k →
    descend d H (branching_log * Z.of_nat d) p i = Ok nd.
Proof.
  induction d as [|d IH]; intros h nd p h' Hd Hrun H i q k Hf Hq Hk Hi.
  - rewrite Z.mul_0_r, make_path_rec_0 in Hrun. injection Hrun as <- _.
    by rewrite Z.mul_0_r, descend_0.
  - rewrite make_path_rec_S in Hrun by (unfold branching_log; lia).
    rewrite level_pred in Hrun by done. unfold mbind in Hrun.
    destruct (make_path_rec d _ nd h) as [[p1 h1]|] eqn:Hrun1; [|done].
    injection Hrun as <- <-.
    pose proof (make_path_rec_extends _ _ _ _ _ _ Hrun1) as Hpre.
    pose proof (prefix_length _ _ Hpre) as Hlen.
    pose proof (cap_pos d) as Hcap.
    change (cap (S d)) with (branching * cap d) in Hi. rewrite branching_eq in Hi.
    rewrite descend_S by (unfold branching_log; lia).
    unfold deref. rewrite Hf by (rewrite length_app; simpl; lia).
    rewrite lookup_app_r, Nat.sub_diag by lia.
    cbn [lookup list_lookup rbind inner]. unfold shr64.
    destruct (Z.ltb_spec (branching_log * Z.of_nat (S d)) 64);
      [|unfold branching_log in *; lia].
    cbn [rbind]. rewrite shiftr_level, land_mask.
    rewrite (digit_eq (cap d) q 0 k i) by lia.
    change (at_index _ 0) with (Ok (A:=node_ptr) p1). cbn [rbind].
    rewrite level_pred by done.
    apply (IH h nd p1 h1 ltac:(lia) Hrun1 H i (q * 32) k); try done; try lia.
    eapply has_fresh_shrink; [|exact Hf]. by apply prefix_app_r.
Qed.

(** The tree made by [push_tail_] leads to the leaves of the old tree, the
    same nodes, and to the grafted tail. *)
Lemma push_tail_rec_descend d : ∀ g h v parent tl ys q p' h',
  (S d ≤ 12)%nat → heap_incl g h →
  rep g (S d) (Some parent) ys → len ys < cap (S d) → len ys mod 32 = 0 →
  u64 (size_ v - 1) = q * cap (S d) + len ys + 31 → 0 ≤ q →
  push_tail_rec (S d) v (branching_log * Z.of_nat (S d)) parent tl h
    = Ok (p', h') →
  ∀ H i q' k, heap_incl g H → has_fresh h h' H → 0 ≤ q' →
    i = q' * cap (S d) + k →
    (0 ≤ k < len ys →
       descend (S d) H (branching_log * Z.of_nat (S d)) p' i
       = descend (S d) g (branching_log * Z.of_nat (S d)) (Some parent) i) ∧
    (len ys ≤ k < len ys + 32 →
       descend (S d) H (branching_log * Z.of_nat (S d)) p' i = Ok tl).
Proof.
  induction d as [d IH] using lt_wf_ind.
  intros g h v parent tl ys q p' h' Hd Hgh Hrep Hroom Hmod Hsz Hq Hrun
         H i q' k HgH Hf Hq' Hi.
  pose proof Hrep as (a & cs & [= <-] & Ha & Hcs & Hlen & Hch).
  change (cap (S d)) with (branching * cap d) in *.
  rewrite branching_eq in *.
  pose proof (len_nonneg ys) as Hys0.
  pose proof (cap_pos d) as Hcap. pose proof (cap_mod d) as Hcapm.
  pose proof (Z.div_mod (len ys) (cap d) ltac:(lia)) as Hdm.
  pose proof (Z.mod_pos_bound (len ys) (cap d) ltac:(lia)) as Hmb.
  set (j0 := len ys / cap d) in *. set (r0 := len ys mod cap d) in *.
  assert (0 ≤ j0 < 32) as Hj0 by (split; [apply Z.div_pos; lia | nia]).
  assert (r0 mod 32 = 0) as Hr0.
  { pose proof (Z.div_mod (len ys) 32 ltac:(lia)) as Hy.
    pose proof (Z.div_mod (cap d) 32 ltac:(lia)) as Hc.
    replace r0 with ((len ys / 32 - j0 * (cap d / 32)) * 32) by lia.
    apply Z.mod_mul. lia. }
  pose proof (mod32_bound r0 _ Hmb Hr0 Hcapm) as Hr0b.
  rewrite push_tail_rec_S in Hrun.
  rewrite (mbind_ok _ _ h cs h) in Hrun
    by (unfold reading, lift, deref; by rewrite (Hgh _ _ Ha)).
  rewrite (mbind_ok _ _ h (Some (length h)) (h ++ [Inner cs])) in Hrun by done.
  unfold shr64 in Hrun.
  destruct (Z.ltb_spec (branching_log * Z.of_nat (S d)) 64);
    [|unfold branching_log in *; lia].
  rewrite (mbind_ok _ _ _ _ _ eq_refl) in Hrun.
  rewrite shiftr_level, land_mask in Hrun.
  rewrite (digit_eq _ q j0 (r0 + 31) (u64 (size_ v - 1))) in Hrun by lia.
  set (h1 := h ++ [Inner cs]) in *.
  assert (length h1 = S (length h)) as Hlen1
    by (unfold h1; rewrite length_app; simpl; lia).
  unfold mbind in Hrun at 1.
  match type of Hrun with
  | match ?m with _ => _ end = _ =>
      destruct m as [[p1 h2]|] eqn:Hnext; [|done]
  end.
  assert (h1 `prefix_of` h2) as Hpre.
  { revert Hnext. destruct (_ =? branching_log); [by intros [= _ <-]|].
    unfold mbind at 1, lift.
    destruct (at_index cs j0) as [[c|]|]; [| |done].
    - unfold mbind, reading, lift.
      destruct (deref _ (Some c)); [|done].
      intros Hnext. by eapply push_tail_rec_extends.
    - intros Hnext. by eapply make_path_rec_extends. }
  pose proof (prefix_length _ _ Hpre) as Hlen2.
  assert (h2 !! length h = Some (Inner cs)) as Hnew.
  { apply (prefix_heap_incl _ _ Hpre). unfold h1.
    by rewrite lookup_app_r, Nat.sub_diag by lia. }
  destruct (lookup_lt_is_Some_2 cs (Z.to_nat j0)) as [c0 Hc0];
    [unfold len in Hcs; lia|].
  unfold mbind, update_node, deref, mret in Hrun. rewrite Hnew in Hrun.
  cbn [rbind] in Hrun. unfold set_child in Hrun. cbn [inner rbind] in Hrun.
  rewrite (at_index_ok cs j0 c0) in Hrun by (lia || done).
  cbn [rbind] in Hrun. injection Hrun as <- <-.
  assert (has_fresh h1 h2 H) as Hf1.
  { intros b Hb. rewrite Hf by (rewrite length_insert; lia).
    apply list_lookup_insert_ne. lia. }
  (* one step of the loop in both trees *)
  pose proof (Z.div_mod k (cap d) ltac:(lia)) as Hkdm.
  pose proof (Z.mod_pos_bound k (cap d) ltac:(lia)) as Hkmb.
  set (j := k / cap d) in *. set (r := k mod cap d) in *.
  assert (0 ≤ k < len ys + 32 →
    0 ≤ j < 32 ∧
    descend (S d) H (branching_log * Z.of_nat (S d)) (Some (length h)) i =
      let* child := at_index (<[Z.to_nat j0 := p1]> cs) j in
      descend d H (branching_log * Z.of_nat d) child i) as Hstep.
  { intros Hk.
    assert (0 ≤ j < 32) as Hj by (split; [apply Z.div_pos; lia | nia]).
    split; [done|].
    rewrite descend_S by (unfold branching_log; lia).
    unfold deref. rewrite Hf by (rewrite length_insert; lia).
    rewrite list_lookup_insert_eq by lia. cbn [rbind inner]. unfold shr64.
    destruct (Z.ltb_spec (branching_log * Z.of_nat (S d)) 64);
      [|unfold branching_log in *; lia].
    cbn [rbind]. rewrite shiftr_level, land_mask.
    rewrite (digit_eq (cap d) q' j r i) by lia.
    by rewrite level_pred by done. }
  split.
  - intros Hk. destruct (Hstep ltac:(lia)) as (Hj & ->).
    rewrite descend_S by (unfold branching_log; lia).
    unfold deref. rewrite Ha. cbn [rbind inner]. unfold shr64.
    destruct (Z.ltb_spec (branching_log * Z.of_nat (S d)) 64);
      [|unfold branching_log in *; lia].
    cbn [rbind]. rewrite shiftr_level, land_mask.
    rewrite (digit_eq (cap d) q' j r i) by lia.
    rewrite level_pred by done.
    pose proof (Hch j Hj) as Hchj.
    destruct (Z.ltb_spec (j * cap d) (len ys)); [|nia].
    destruct Hchj as (c & Hc & Hrepc).
    rewrite (at_index_ok cs j c) by (lia || done). cbn [rbind].
    destruct (decide (j = j0)) as [Hjj|Hne].
    + rewrite Hjj in *.
      rewrite (at_index_ok _ j0 p1); [|lia|].
      2:{ apply list_lookup_insert_eq. unfold len in Hcs. lia. }
      cbn [rbind].
      destruct d as [|d].
      { simpl in Hcap, Hmb, Hr0b, Hdm, Hkdm, Hkmb. rewrite branching_eq in *.
        pose proof (Z.mod_small r0 32 ltac:(lia)). lia. }
      destruct (Z.eqb_spec (branching_log * Z.of_nat (S (S d))) branching_log)
        as [Heq|_]; [unfold branching_log in Heq; lia|].
      rewrite level_pred in Hnext by done.
      pose proof Hrepc as (ca & csc & -> & Hca & _).
      rewrite Hc0 in Hc. injection Hc as ->.
      rewrite (mbind_ok _ _ h1 (Some ca) h1) in Hnext
        by (unfold lift; by rewrite (at_index_ok cs j0 (Some ca)) by (lia || done)).
      rewrite (mbind_ok _ _ h1 (Inner csc) h1) in Hnext.
      2:{ unfold reading, lift, deref, h1.
          by rewrite (lookup_app_l_Some _ _ _ _ (Hgh _ _ Hca)). }
      refine (proj1 (IH d ltac:(lia) g h1 v ca tl
                       (slice ys (j0 * cap (S d)) (cap (S d))) (q * 32 + j0) p1 h2
                       _ _ Hrepc _ _ _ _ Hnext H i (q' * 32 + j0) r HgH Hf1 _ _) _);
        try lia.
      * intros b n Hb. by apply lookup_app_l_Some, Hgh.
      * rewrite len_slice by lia.
        change (cap (S d)) with (branching * cap d) in *. lia.
      * rewrite len_slice by lia.
        replace (Z.min _ _) with r0 by lia. done.
      * rewrite len_slice by lia.
        replace (Z.min _ _) with r0 by lia. rewrite Hsz, Hdm. ring.
      * rewrite len_slice by lia. lia.
    + rewrite (at_index_ok _ j c); [|lia|].
      2:{ rewrite list_lookup_insert_ne by lia. done. }
      cbn [rbind].
      destruct (descend_rep d g c _ i (q' * 32 + j) r Hrepc)
        as (b & lf & Hdesc & _); try lia.
      { rewrite len_slice by lia. lia. }
      rewrite Hdesc. by apply (descend_mono d g H).
  - intros Hk. destruct (Hstep ltac:(lia)) as (Hj & ->).
    assert (j = j0) as Hjj.
    { symmetry. apply (Z.div_unique _ _ _ (r0 + (k - len ys))); lia. }
    rewrite Hjj in *.
    assert (r = r0 + (k - len ys)) as Hr by lia.
    rewrite (at_index_ok _ j0 p1); [|lia|].
    2:{ apply list_lookup_insert_eq. unfold len in Hcs. lia. }
    cbn [rbind].
    destruct (Z.eqb_spec (branching_log * Z.of_nat (S d)) branching_log)
      as [Heq|Hne].
    + assert (d = 0%nat) as -> by (unfold branching_log in Heq; lia).
      injection Hnext as <- _. by rewrite Z.mul_0_r, descend_0.
    + destruct d as [|d]; [unfold branching_log in Hne; lia|].
      rewrite level_pred in Hnext by done.
      pose proof (Hch j0 Hj0) as Hchj.
      destruct (Z.ltb_spec (j0 * cap (S d)) (len ys)).
      * destruct Hchj as (c & Hc & Hrepc).
        pose proof Hrepc as (ca & csc & -> & Hca & _).
        rewrite (mbind_ok _ _ h1 (Some ca) h1) in Hnext
          by (unfold lift; by rewrite (at_index_ok cs j0 (Some ca)) by (lia || done)).
        rewrite (mbind_ok _ _ h1 (Inner csc) h1) in Hnext.
        2:{ unfold reading, lift, deref, h1.
            by rewrite (lookup_app_l_Some _ _ _ _ (Hgh _ _ Hca)). }
        refine (proj2 (IH d ltac:(lia) g h1 v ca tl
                         (slice ys (j0 * cap (S d)) (cap (S d))) (q * 32 + j0) p1 h2
                         _ _ Hrepc _ _ _ _ Hnext H i (q' * 32 + j0) r HgH Hf1 _ _) _);
          try lia.
        -- intros b n Hb. by apply lookup_app_l_Some, Hgh.
        -- rewrite len_slice by lia.
           change (cap (S d)) with (branching * cap d) in *. lia.
        -- rewrite len_slice by lia.
           replace (Z.min _ _) with r0 by lia. done.
        -- rewrite len_slice by lia.
           replace (Z.min _ _) with r0 by lia. rewrite Hsz, Hdm. ring.
        -- rewrite len_slice by lia. lia.
      * rewrite (mbind_ok _ _ h1 None h1) in Hnext
          by (unfold lift; by rewrite (at_index_ok cs j0 None) by (lia || done)).
        unfold make_path_ in Hnext. rewrite level_steps_mul in Hnext.
        apply (make_path_rec_descend (S d) h1 tl p1 h2 ltac:(lia) Hnext
                 H i (q' * 32 + j0) r Hf1); lia.
Qed.
End Sharing.

Section SharedLeaves.
Context {T : Type} (dflt : T) (checked : bool).
Implicit Types (h : heap T) (xs : list T) (v : vektor).

Lemma leaf_ref_Some h (a : nat) l :
  h !! a = Some (Leaf l) → leaf_ref h (Some a) = Ok a.
Proof. intros Ha. unfold leaf_ref, deref. by rewrite Ha. Qed.

(** The leaf that serves an index, as the loop of [array_for_] finds it. *)
Lemma array_for_path h v xs i :
  vektor_inv h v xs → 0 ≤ i < len xs →
  ∃ a l, array_for_ checked h v i = Ok a ∧ h !! a = Some (Leaf l) ∧
    if toff (len xs) <=? i then tail_ v = Some a
    else descend (level_steps (shift_ v)) h (shift_ v) (root_ v) i = Ok (Some a).
Proof.
  intros Hinv Hi. pose proof (vektor_inv_size _ _ _ Hinv) as [Hsz Hn].
  destruct (array_for_block checked h v xs (Z.to_nat i) Hinv)
    as (a & l & Harr & Ha & _); [unfold len in *; lia|].
  rewrite Z2Nat.id in Harr by lia. exists a, l. split; [done|]. split; [done|].
  unfold array_for_ in Harr.
  rewrite assert_true in Harr by (apply Z.ltb_lt; lia). cbn [rbind] in Harr.
  rewrite tail_offset_eq, Hsz in Harr by lia.
  destruct (toff (len xs) <=? i).
  - unfold leaf_ref in Harr. destruct (tail_ v) as [b|]; [|done].
    destruct (deref h (Some b)) as [n|]; [|done]. cbn [rbind] in Harr.
    destruct (leaf n); [|done]. cbn [rbind] in Harr. congruence.
  - destruct (descend _ h _ _ i) as [[b|]|]; [| done | done].
    cbn [rbind] in Harr. unfold leaf_ref in Harr.
    destruct (deref h (Some b)) as [n|]; [|done]. cbn [rbind] in Harr.
    destruct (leaf n); [|done]. cbn [rbind] in Harr. congruence.
Qed.

(** When the tail is full, every leaf of the vector, the tail included,
    is a leaf of the new vector: the same node serves each index. *)
Lemma push_back_full_shares h v xs x v' h' i :
  vektor_inv h v xs → len xs - toff (len xs) = 32 → len xs < max_size →
  push_back dflt v x h = Ok (v', h') → 0 ≤ i < len xs →
  ∃ a, array_for_ checked h v i = Ok a ∧ array_for_ checked h' v' i = Ok a.
Proof.
  intros Hinv Hfull Hmax Hpush Hi.
  pose proof (vektor_inv_size _ _ _ Hinv) as [Hsz Hn].
  destruct (push_back_full dflt h v xs x Hinv Hfull Hmax)
    as (v1 & h1 & Hpush1 & Hpre0 & Hinv' & _).
  rewrite Hpush in Hpush1. injection Hpush1 as <- <-.
  pose proof (vektor_inv_size _ _ _ Hinv') as [Hsz' _].
  rewrite len_app in Hsz'. change (len [x]) with 1 in Hsz'.
  destruct (array_for_path h v xs i Hinv Hi) as (a & lf & Harr & Hlf & Hpath).
  exists a. split; [done|].
  assert (descend (level_steps (shift_ v')) h' (shift_ v') (root_ v') i
          = Ok (Some a)) as Hdesc.
  2:{ unfold array_for_. rewrite assert_true by (apply Z.ltb_lt; lia).
      cbn [rbind]. rewrite tail_offset_eq, Hsz' by lia.
      rewrite toff_succ_full by lia.
      destruct (Z.leb_spec (len xs) i); [lia|]. rewrite Hdesc. cbn [rbind].
      apply (leaf_ref_Some h' a lf). by apply (prefix_heap_incl _ _ Hpre0). }
  clear Hinv' Harr.
  destruct Hinv as (_ & d & Hd & Hshift & Hrep & Hcap & Hmin & ta & l & Ht & Hat & Hl & Htl).
  pose proof (toff_spec (len xs) ltac:(lia)) as (Ht0 & Htm & Htr & _).
  set (t := toff (len xs)) in *. rewrite branching_eq in *.
  assert (len (take (Z.to_nat t) xs) = t) as Hlent
    by (unfold len in *; rewrite length_take; lia).
  destruct d as [|d]; [lia|].
  assert (d ≤ 5)%nat as Hd5.
  { destruct Hmin as [Hmin|Hmin]; [lia|].
    destruct (decide (d = 6%nat)) as [->|]; [|lia].
    change (cap (7 - 1)) with (2 ^ 35) in Hmin.
    pose proof (Z.div_mod t 32 ltac:(lia)). unfold max_size in Hmax. lia. }
  pose proof (cap_pos d) as Hcapd. pose proof (cap_pos (S d)) as HcapS.
  pose proof (cap_mod (S d)) as Hcapm.
  rewrite Hshift, level_steps_mul in Hpath.
  unfold push_back in Hpush. rewrite tail_offset_eq in Hpush by lia.
  rewrite Hsz in Hpush. fold t in Hpush.
  rewrite (u64_small (len xs - t)) in Hpush by lia.
  destruct (Z.ltb_spec (len xs - t) branching); [rewrite branching_eq in *; lia|].
  set (tl := Leaf (x :: replicate 31 dflt)) in *.
  rewrite (mbind_ok _ _ h (Some (length h)) (h ++ [tl])) in Hpush by done.
  rewrite (root_overflow_spec v d t) in Hpush by (done || lia).
  unfold lift in Hpush at 1. unfold mbind in Hpush at 1.
  rewrite Hshift, Ht in Hpush. cbv zeta in Hpush.
  destruct (Z.leb_spec (cap (S d)) t) as [Hov|Hno].
  - (* a new root above the old one and the path to the tail *)
    assert (t = cap (S d)) as Ht_full by lia.
    unfold make_path_ in Hpush. rewrite level_steps_mul in Hpush.
    unfold mbind in Hpush at 1.
    destruct (make_path_rec (S d) _ _ (h ++ [tl])) as [[p1 h2]|] eqn:Hmk; [|done].
    unfold mbind, make_node_, mret in Hpush. injection Hpush as <- <-.
    cbn [shift_ root_].
    replace (u32 (branching_log * Z.of_nat (S d) + branching_log))
      with (branching_log * Z.of_nat (S (S d)))
      by (unfold branching_log; rewrite u32_small; lia).
    rewrite level_steps_mul.
    rewrite descend_S by (unfold branching_log; lia).
    unfold deref. rewrite lookup_app_r, Nat.sub_diag by lia.
    cbn [lookup list_lookup rbind inner]. unfold shr64.
    destruct (Z.ltb_spec (branching_log * Z.of_nat (S (S d))) 64);
      [|unfold branching_log in *; lia].
    cbn [rbind]. rewrite shiftr_level, land_mask, level_pred by lia.
    pose proof (make_path_rec_extends _ _ _ _ _ _ Hmk) as Hpre2.
    destruct (Z.leb_spec t i) as [Htail|Htree].
    + rewrite (digit_eq (cap (S d)) 0 1 (i - t) i) by lia.
      change (at_index _ 1) with (Ok (A:=node_ptr) p1). cbn [rbind].
      assert (a = ta) as -> by congruence.
      apply (make_path_rec_descend (S d) (h ++ [tl]) (Some ta) p1 h2
               ltac:(lia) Hmk _ i 1 (i - t)); try lia.
      intros b Hb. by rewrite lookup_app_l by lia.
    + rewrite (digit_eq (cap (S d)) 0 0 i i) by lia.
      change (at_index _ 0) with (Ok (A:=node_ptr) (root_ v)). cbn [rbind].
      apply (descend_mono (S d) h); [by apply prefix_heap_incl | done].
  - (* the tail grafted into a copy of the path *)
    pose proof Hrep as (r & cs & Hr & Hcs & _).
    rewrite Hr in Hpush.
    rewrite (mbind_ok _ _ (h ++ [tl]) r (h ++ [tl])) in Hpush.
    2:{ unfold reading, lift, deref. by rewrite (lookup_app_l_Some _ _ _ _ Hcs). }
    unfold push_tail_ in Hpush. rewrite level_steps_mul in Hpush.
    unfold mbind in Hpush at 1.
    destruct (push_tail_rec (S d) _ _ _ _ (h ++ [tl])) as [[p1 h2]|] eqn:Htail;
      [|done].
    unfold mret in Hpush. injection Hpush as <- <-.
    cbn [shift_ root_]. rewrite level_steps_mul.
    destruct (push_tail_rec_descend d h (h ++ [tl]) v r (Some ta)
                (take (Z.to_nat t) xs) 0 p1 h2) with (H := h2) (i := i) (q' := 0) (k := i)
      as [Htree Htl'];
      try done; try lia.
    { by apply prefix_heap_incl, prefix_app_r. }
    { by rewrite <- Hr. }
    { by rewrite Hlent. }
    { rewrite Hsz, u64_small by lia. lia. }
    { by apply prefix_heap_incl. }
    rewrite Hlent in *.
    destruct (Z.leb_spec t i) as [Htail'|Htree'].
    + rewrite Htl' by lia. congruence.
    + rewrite Htree by lia. by rewrite <- Hr.
Qed.
End SharedLeaves.

(** ** Properties of the operations *)

Lemma i64_small z : - 2 ^ 63 ≤ z < 2 ^ 63 → i64 z = z.
Proof.
  intros Hz. unfold i64. destruct (Z.lt_ge_cases z 0).
  - rewrite u64_neg by lia. destruct (Z.ltb_spec (z + 2 ^ 64) (2 ^ 63)); lia.
  - rewrite u64_small by lia. destruct (Z.ltb_spec z (2 ^ 63)); lia.
Qed.

Lemma distance_to_eq (a b : iterator) :
  0 ≤ i_ a < 2 ^ 63 → 0 ≤ i_ b < 2 ^ 63 → distance_to a b = i_ b - i_ a.
Proof.
  intros Ha Hb. unfold distance_to. destruct (Z.ltb_spec (i_ a) (i_ b)).
  - rewrite u64_small by lia. apply i64_small. lia.
  - rewrite u64_small by lia. rewrite (i64_small (i_ a - i_ b)) by lia.
    rewrite i64_small by lia. lia.
Qed.

(** X8. [tail_offset_] on any size that fits [std::size_t]: the offset is a
    multiple of [branching] not above the size, the tail (the elements from
    the offset on) has at most [branching] elements and at least one when
    the vector is not empty, and it is full exactly when the size is a
    positive multiple of [branching]. *)
Theorem tail_offset_bounds v :
  0 ≤ size_ v < 2 ^ 64 →
  tail_offset_ v mod branching = 0 ∧
  0 ≤ tail_offset_ v ≤ size_ v ∧
  size_ v - tail_offset_ v ≤ branching ∧
  (0 < size_ v → tail_offset_ v < size_ v) ∧
  (size_ v - tail_offset_ v = branching ↔ 0 < size_ v ∧ size_ v mod branching = 0).
Proof.
  intros Hsz. rewrite branching_eq. unfold tail_offset_.
  destruct (Z.ltb_spec (size_ v) 32) as [Hlt|Hge].
  - split; [done|]. split; [lia|]. split; [lia|]. split; [lia|]. split; [lia|].
    intros [Hpos Hmod]. rewrite Z.mod_small in Hmod by lia. lia.
  - rewrite (u64_small (size_ v - 1)) by lia.
    rewrite shiftr_log, shiftl_log.
    pose proof (Z.div_mod (size_ v - 1) 32 ltac:(lia)) as Hdm.
    pose proof (Z.mod_pos_bound (size_ v - 1) 32 ltac:(lia)) as Hmb.
    rewrite u64_small by lia.
    split; [by apply Z.mod_mul|]. split; [lia|]. split; [lia|]. split; [lia|].
    split.
    + intros Hfull. split; [lia|]. symmetry.
      apply (Z.mod_unique _ _ ((size_ v - 1) / 32 + 1)); lia.
    + intros [_ Hmod]. pose proof (Z.div_mod (size_ v) 32 ltac:(lia)) as Hdm'.
      assert ((size_ v - 1) mod 32 = 31) as Hm; [|lia].
      symmetry. apply (Z.mod_unique _ _ (size_ v / 32 - 1)); lia.
Qed.

(** X12. For two cursors whose indices are below [2^63], [distance_to] is
    the signed difference of the indices, with no wrap-around in the
    conversions between [std::size_t] and [std::ptrdiff_t]; it is
    antisymmetric, and it is 0 exactly when [equal] holds. *)
Theorem distance_to_difference (a b : iterator) :
  0 ≤ i_ a < 2 ^ 63 → 0 ≤ i_ b < 2 ^ 63 →
  distance_to a b = i_ b - i_ a ∧
  distance_to b a = - distance_to a b ∧
  (equal a b = true ↔ distance_to a b = 0).
Proof.
  intros Ha Hb. rewrite !distance_to_eq by done.
  split; [done|]. split; [lia|]. unfold equal. rewrite Z.eqb_eq. lia.
Qed.

Section Appends.
Context {T : Type} (dflt : T) (checked : bool).
Implicit Types (h : heap T) (xs ys : list T) (v : vektor) (it : iterator).

(** The slots of the tail past the last element hold the default value. *)
Lemma tail_padded xs : ∀ v h,
  from_list dflt xs = Ok (v, h) →
  ∃ a l, tail_ v = Some a ∧ h !! a = Some (Leaf l) ∧
    l = drop (Z.to_nat (toff (len xs))) xs
        ++ replicate (32 - (length xs - Z.to_nat (toff (len xs)))) dflt.
Proof.
  induction xs as [|x xs IH] using rev_ind; intros v h Hrun.
  - injection Hrun as <- <-. by exists 1%nat, (replicate 32 dflt).
  - pose proof Hrun as Hrun'. unfold from_list in Hrun'.
    rewrite push_all_app in Hrun'. unfold mbind in Hrun' at 1.
    destruct (push_all dflt empty_ xs (static_heap dflt)) as [[v0 h0]|] eqn:Hrun0;
      [|done].
    fold (from_list dflt xs) in Hrun0.
    rewrite (from_list_snoc dflt xs x v0 h0 Hrun0) in Hrun. clear Hrun'.
    pose proof (from_list_inv dflt xs v0 h0 Hrun0) as Hinv.
    pose proof (vektor_inv_size _ _ _ Hinv) as [Hsz Hn].
    destruct (IH v0 h0 Hrun0) as (a & l & Ht & Ha & Hl).
    pose proof (toff_spec (len xs) ltac:(lia)) as (Ht0 & Htm & Htr & _).
    assert (u64 (size_ v0 - tail_offset_ v0) = len xs - toff (len xs)) as Hk.
    { rewrite tail_offset_eq by lia. rewrite Hsz. apply u64_small. lia. }
    rewrite len_app. change (len [x]) with 1. rewrite length_app. simpl.
    set (t := toff (len xs)) in *.
    assert (length (drop (Z.to_nat t) xs) = Z.to_nat (len xs - t)) as Hdl
      by (rewrite length_drop; unfold len in *; lia).
    destruct (Z.lt_ge_cases (len xs - t) 32) as [Hroom|Hfull].
    + destruct (push_back_room_inv dflt v0 x h0 v h) as (a' & l' & Ht' & Ha' & -> & ->);
        [by rewrite Hk, branching_eq | done |].
      cbv zeta. rewrite Hk. rewrite Ht in Ht'. injection Ht' as <-.
      rewrite Ha in Ha'. injection Ha' as <-.
      rewrite toff_succ_room by lia. fold t.
      eexists _, _. split; [reflexivity|]. split.
      { apply list_lookup_insert_eq. rewrite length_app. simpl. lia. }
      rewrite Hl, take_app_length' by done.
      rewrite drop_replicate.
      rewrite insert_app_r_alt by lia. rewrite Hdl, Nat.sub_diag.
      rewrite drop_app_le by (unfold len in *; lia).
      rewrite <- app_assoc. f_equal.
      replace (32 - Z.to_nat (len xs - t))%nat
        with (S (32 - (length xs + 1 - Z.to_nat t))) by (unfold len in *; lia).
      done.
    + destruct (push_back_full_inv dflt v0 x h0 v h) as (Ht' & _ & Hpre);
        [by rewrite Hk, branching_eq | done |].
      rewrite toff_succ_full by (fold t; lia).
      eexists _, _. split; [exact Ht'|]. split.
      { apply (prefix_heap_incl _ _ Hpre).
        by rewrite lookup_app_r, Nat.sub_diag by lia. }
      unfold len. rewrite Nat2Z.id, drop_app_length.
      by replace (32 - (length xs + 1 - length xs))%nat with 31%nat by lia.
Qed.

Lemma from_list_undefined xs :
  max_size < len xs → from_list dflt xs = Err UndefinedBehaviour.
Proof.
  intros Hgt. set (n := Z.to_nat max_size).
  assert (0 ≤ max_size) as Hpos by (unfold max_size; lia).
  assert (len (take n xs) = max_size) as Hpre
    by (unfold len in *; rewrite length_take; lia).
  destruct (drop n xs) as [|y rest] eqn:Hdrop.
  { apply (f_equal length) in Hdrop. rewrite length_drop in Hdrop.
    simpl in Hdrop. unfold len in *. lia. }
  destruct (from_list_spec dflt (take n xs) ltac:(lia)) as (v0 & h0 & Hrun0 & Hinv0).
  rewrite <- (take_drop n xs), Hdrop. unfold from_list in *.
  rewrite push_all_app, (mbind_ok _ _ _ _ _ Hrun0). simpl.
  unfold mbind.
  by rewrite (push_back_undefined dflt h0 v0 (take n xs) y Hinv0 Hpre).
Qed.

(** The cursor that [begin()] advanced by [k] returns. *)
Lemma cursor_at_begin h v xs (k : Z) :
  vektor_inv h v xs → 0 ≤ k < len xs →
  ∃ it0 it x, begin checked h v = Ok it0 ∧
    advance checked h it0 k = Ok it ∧
    cursor_of checked h v k = Ok it ∧
    xs !! Z.to_nat k = Some x ∧ dereference h it = Ok x.
Proof.
  intros Hinv Hk.
  destruct (lookup_lt_is_Some_2 xs 0) as [x0 Hx0]; [unfold len in Hk; lia|].
  destruct (lookup_lt_is_Some_2 xs (Z.to_nat k)) as [x Hx]; [unfold len in Hk; lia|].
  destruct (cursor_of_ok checked h v xs 0 x0 Hinv Hx0) as (it0 & Hit0 & _).
  destruct (cursor_of_ok checked h v xs _ x Hinv Hx) as (it & Hit & Hder).
  rewrite Z2Nat.id in Hit by lia. change (Z.of_nat 0) with 0 in Hit0.
  exists it0, it, x. rewrite begin_cursor.
  split; [done|]. split; [|done].
  by rewrite (advance_cursor checked h v xs it0 0 k Hinv) by (done || lia).
Qed.

Lemma cursor_of_mono h H v i it :
  heap_incl h H → cursor_of checked h v i = Ok it →
  cursor_of checked H v i = Ok it.
Proof.
  intros Hincl Hit. destruct (cursor_of_inv _ _ _ _ _ Hit) as (a & Ha & ->).
  unfold cursor_of. by rewrite (array_for_mono _ _ _ _ _ _ Hincl Ha).
Qed.

(** X1. Whatever the vector and the store, when [push_back] returns, every
    node that existed before the call is as it was (the old store is a
    prefix of the new one: the assignments through [new_tail] and
    [new_parent] reach nodes made during the call only), at least one node
    was made, the tail of the result is the first node made, a leaf, and
    the size is the old one plus one in [std::size_t]. *)
Theorem push_back_keeps_store v x h v' h' :
  push_back dflt v x h = Ok (v', h') →
  h `prefix_of` h' ∧ (∀ a n, h !! a = Some n → h' !! a = Some n) ∧
  (length h < length h')%nat ∧
  tail_ v' = Some (length h) ∧ (∃ l, h' !! length h = Some (Leaf l)) ∧
  size_ v' = u64 (size_ v + 1).
Proof.
  intros Hrun.
  assert (h `prefix_of` h' ∧ (length h < length h')%nat ∧
          tail_ v' = Some (length h) ∧ (∃ l, h' !! length h = Some (Leaf l)) ∧
          size_ v' = u64 (size_ v + 1)) as (Hpre & Hlen & Ht & Hl & Hsz).
  { destruct (Z.lt_ge_cases (u64 (size_ v - tail_offset_ v)) branching)
      as [Hroom|Hfull].
    - destruct (push_back_room_inv dflt v x h v' h' Hroom Hrun)
        as (a & l & _ & _ & -> & ->).
      cbv zeta. split; [apply prefix_insert_fresh; [by apply prefix_app_r | lia]|].
      split; [rewrite length_insert, length_app; simpl; lia|].
      split; [done|]. split; [|done]. eexists.
      apply list_lookup_insert_eq. rewrite length_app. simpl. lia.
    - destruct (push_back_full_inv dflt v x h v' h' Hfull Hrun) as (Ht & Hs & Hpre).
      split; [etrans; [by apply prefix_app_r | exact Hpre]|].
      split; [apply prefix_length in Hpre; rewrite length_app in Hpre;
              simpl in Hpre; lia|].
      split; [done|]. split; [|done]. eexists.
      apply (prefix_heap_incl _ _ Hpre).
      by rewrite lookup_app_r, Nat.sub_diag by lia. }
  split; [done|]. split; [by apply prefix_heap_incl|]. done.
Qed.

(** X2. Versions persist across any number of appends: when [v] was
    obtained by appending [xs] and [v'] by appending [ys] to [v], then [v']
    is the vector that appending [xs ++ ys] gives, no node of the store was
    changed, the size of [v'] is the size of [v] plus the length of [ys],
    indexed access to [v] still returns the elements of [xs], in the old
    store and in the new one, [v'] agrees with [v] on them and holds [ys]
    after them. *)
Theorem push_all_persistent xs ys v h v' h' :
  from_list dflt xs = Ok (v, h) → push_all dflt v ys h = Ok (v', h') →
  from_list dflt (xs ++ ys) = Ok (v', h') ∧
  h `prefix_of` h' ∧ size v' = size v + len ys ∧
  (∀ (i : nat) x, xs !! i = Some x →
     at_ checked h v (Z.of_nat i) = Ok x ∧
     at_ checked h' v (Z.of_nat i) = Ok x ∧
     at_ checked h' v' (Z.of_nat i) = Ok x) ∧
  (∀ (i : nat) y, ys !! i = Some y →
     at_ checked h' v' (size v + Z.of_nat i) = Ok y).
Proof.
  intros Hrun Hall. pose proof (from_list_inv dflt xs v h Hrun) as Hinv.
  assert (from_list dflt (xs ++ ys) = Ok (v', h')) as Hrun'.
  { unfold from_list in *. by rewrite push_all_app, (mbind_ok _ _ _ _ _ Hrun). }
  pose proof (from_list_inv dflt _ v' h' Hrun') as Hinv'.
  pose proof (from_list_defined dflt _ v' h' Hrun') as Hmax.
  rewrite len_app in Hmax.
  destruct (push_all_spec dflt ys h v xs Hinv Hmax) as (v1 & h1 & Hall1 & Hpre & _).
  rewrite Hall in Hall1. injection Hall1 as <- <-.
  pose proof (vektor_inv_size _ _ _ Hinv) as [Hsz _].
  pose proof (vektor_inv_size _ _ _ Hinv') as [Hsz' _].
  unfold size. rewrite Hsz, Hsz', len_app.
  split; [done|]. split; [done|]. split; [done|]. split.
  - intros i x Hx. split; [by apply (at_spec checked h v xs)|]. split.
    + apply (at_spec checked h' v xs); [|done].
      apply (vektor_inv_mono h h'); [by apply prefix_heap_incl | done].
    + apply (at_spec checked h' v' (xs ++ ys)); [done|].
      by apply lookup_app_l_Some.
  - intros i y Hy. unfold len. rewrite <- Nat2Z.inj_add.
    apply (at_spec checked h' v' (xs ++ ys)); [done|].
    by rewrite lookup_app_r, Nat.add_sub' by lia.
Qed.

(** X3. Two appends to the same vector [v] give two independent vectors:
    after [v1 = v.push_back(x)] and then [v2 = v.push_back(y)], both have
    the size of [v] plus one, [v1] holds [x] and [v2] holds [y] at index
    [size v], and all three still hold the elements of [v] below it. *)
Theorem push_back_fork xs x y v h v1 h1 v2 h2 :
  from_list dflt xs = Ok (v, h) →
  push_back dflt v x h = Ok (v1, h1) → push_back dflt v y h1 = Ok (v2, h2) →
  size v1 = size v + 1 ∧ size v2 = size v + 1 ∧
  at_ checked h2 v1 (size v) = Ok x ∧ at_ checked h2 v2 (size v) = Ok y ∧
  ∀ (i : nat) z, xs !! i = Some z →
    at_ checked h2 v (Z.of_nat i) = Ok z ∧
    at_ checked h2 v1 (Z.of_nat i) = Ok z ∧
    at_ checked h2 v2 (Z.of_nat i) = Ok z.
Proof.
  intros Hrun Hpush1 Hpush2. pose proof (from_list_inv dflt xs v h Hrun) as Hinv.
  pose proof (push_back_after dflt xs x v h v1 h1 Hrun Hpush1) as Hmax.
  assert (vektor_inv h1 v1 (xs ++ [x])) as Hinv1.
  { apply (from_list_inv dflt). by rewrite (from_list_snoc dflt xs x v h Hrun). }
  destruct (push_back_inv dflt v x h v1 h1 Hpush1) as (Hpre1 & _).
  destruct (push_back_inv dflt v y h1 v2 h2 Hpush2) as (Hpre2 & _).
  apply prefix_heap_incl in Hpre1, Hpre2.
  pose proof (vektor_inv_mono h h1 v xs Hpre1 Hinv) as Hinv_1.
  destruct (push_back_spec dflt h1 v xs y Hinv_1 Hmax)
    as (v2' & h2' & Hpush2' & _ & Hinv2 & _).
  rewrite Hpush2 in Hpush2'. injection Hpush2' as <- <-.
  pose proof (vektor_inv_mono h1 h2 v xs Hpre2 Hinv_1) as Hinv_2.
  pose proof (vektor_inv_mono h1 h2 v1 _ Hpre2 Hinv1) as Hinv1_2.
  pose proof (vektor_inv_size _ _ _ Hinv) as [Hsz _].
  pose proof (vektor_inv_size _ _ _ Hinv1) as [Hsz1 _].
  pose proof (vektor_inv_size _ _ _ Hinv2) as [Hsz2 _].
  unfold size. rewrite Hsz, Hsz1, Hsz2, !len_app.
  split; [done|]. split; [done|]. split; [|split].
  - unfold len. apply (at_spec checked h2 v1 (xs ++ [x])); [done|].
    by rewrite lookup_app_r, Nat.sub_diag by lia.
  - unfold len. apply (at_spec checked h2 v2 (xs ++ [y])); [done|].
    by rewrite lookup_app_r, Nat.sub_diag by lia.
  - intros i z Hz. split; [by apply (at_spec checked h2 v xs)|]. split.
    + apply (at_spec checked h2 v1 (xs ++ [x])); [done|]. by apply lookup_app_l_Some.
    + apply (at_spec checked h2 v2 (xs ++ [y])); [done|]. by apply lookup_app_l_Some.
Qed.

(** X4. Structural sharing: for a vector [v] obtained by appending and
    [v' = v.push_back(x)], the leaf node that serves an index of [v] serves
    it in [v'] too, the same node and not a copy, for every index below the
    tail offset and, when the tail is full, for the indices of the tail as
    well (the old tail node itself becomes a leaf of the tree). Only a tail
    that has room is copied: its indices are then served by the first node
    that the call made. *)
Theorem push_back_shares_leaves xs x v h v' h' (i : Z) :
  from_list dflt xs = Ok (v, h) → push_back dflt v x h = Ok (v', h') →
  0 ≤ i < size v →
  ∃ a, array_for_ checked h v i = Ok a ∧
    (i < tail_offset_ v ∨ size_ v - tail_offset_ v = branching →
     array_for_ checked h' v' i = Ok a) ∧
    (tail_offset_ v ≤ i → size_ v - tail_offset_ v < branching →
     array_for_ checked h' v' i = Ok (length h) ∧ a ≠ length h).
Proof.
  intros Hrun Hpush Hi. pose proof (from_list_inv dflt xs v h Hrun) as Hinv.
  pose proof (vektor_inv_size _ _ _ Hinv) as [Hsz Hn].
  pose proof (push_back_after dflt xs x v h v' h' Hrun Hpush) as Hmax.
  unfold size in Hi. rewrite Hsz in Hi.
  assert (tail_offset_ v = toff (len xs)) as Htoff
    by (rewrite tail_offset_eq by lia; by rewrite Hsz).
  rewrite Htoff, Hsz, branching_eq.
  pose proof (toff_spec (len xs) ltac:(lia)) as (Ht0 & Htm & Htr & _).
  assert (vektor_inv h' v' (xs ++ [x])) as Hinv'.
  { apply (from_list_inv dflt). by rewrite (from_list_snoc dflt xs x v h Hrun). }
  pose proof (vektor_inv_size _ _ _ Hinv') as [Hsz' _].
  rewrite len_app in Hsz'. change (len [x]) with 1 in Hsz'.
  destruct (push_back_inv dflt v x h v' h' Hpush) as (Hpre & _ & Htail' & _).
  destruct (array_for_path checked h v xs i Hinv Hi) as (a & lf & Harr & Hlf & Hpath).
  exists a. split; [done|]. split.
  - intros [Htree|Hfull].
    + destruct (Z.lt_ge_cases (len xs - toff (len xs)) 32) as [Hroom|Hfull].
      * destruct (push_back_room dflt h v xs x Hinv Hroom)
          as (v1 & h1 & Hpush1 & _ & _ & Hsh & Hroot & _).
        rewrite Hpush in Hpush1. injection Hpush1 as <- <-.
        destruct (Z.leb_spec (toff (len xs)) i); [lia|].
        unfold array_for_. rewrite assert_true by (apply Z.ltb_lt; lia).
        cbn [rbind]. rewrite tail_offset_eq, Hsz' by lia.
        rewrite toff_succ_room by lia.
        destruct (Z.leb_spec (toff (len xs)) i); [lia|].
        rewrite Hsh, Hroot.
        rewrite (descend_mono _ h h' _ _ _ _ (prefix_heap_incl _ _ Hpre) Hpath).
        cbn [rbind]. apply (leaf_ref_Some h' a lf).
        by apply (prefix_heap_incl _ _ Hpre).
      * destruct (push_back_full_shares dflt checked h v xs x v' h' i)
          as (b & Hb & Hb'); try done; try lia.
        congruence.
    + destruct (push_back_full_shares dflt checked h v xs x v' h' i)
        as (b & Hb & Hb'); try done; try lia.
      congruence.
  - intros Htl Hroom. split.
    + rewrite (array_for_tail checked h' v' (xs ++ [x])); [|done| |].
      * destruct (tail_ref h' v' _ Hinv') as (b & Hb). rewrite Hb.
        unfold leaf_ref in Hb. rewrite Htail' in Hb.
        destruct (deref h' _); [|done]. cbn [rbind] in Hb.
        by destruct (leaf _).
      * rewrite len_app. change (len [x]) with 1.
        rewrite toff_succ_room by lia. lia.
      * left. rewrite len_app. change (len [x]) with 1. lia.
    + apply lookup_lt_Some in Hlf. lia.
Qed.

(** X5. What one append costs and when the tree grows, for a vector [v]
    obtained by appending, with [d = shift_ / branching_log] and the
    allocations counted as the nodes added to the store. Exactly one of
    three cases holds: the tail has room, [shift_] and the root are kept and
    one node is made; the tail is full and the tree is not, [shift_] is kept
    and [d + 1] nodes are made; the tail and the tree are both full, that is
    the tail offset is [branching ^ (d + 1)], [shift_] grows by
    [branching_log] and [d + 2] nodes are made. *)
Theorem push_back_growth xs x v h v' h' :
  from_list dflt xs = Ok (v, h) → push_back dflt v x h = Ok (v', h') →
  let d := shift_ v / branching_log in
  let allocated := len h' - len h in
  (size_ v - tail_offset_ v < branching ∧
     shift_ v' = shift_ v ∧ root_ v' = root_ v ∧ allocated = 1) ∨
  (size_ v - tail_offset_ v = branching ∧
     tail_offset_ v < branching ^ (d + 1) ∧
     shift_ v' = shift_ v ∧ allocated = d + 1) ∨
  (size_ v - tail_offset_ v = branching ∧
     tail_offset_ v = branching ^ (d + 1) ∧
     shift_ v' = shift_ v + branching_log ∧ allocated = d + 2).
Proof.
  intros Hrun Hpush. pose proof (from_list_inv dflt xs v h Hrun) as Hinv.
  pose proof (vektor_inv_size _ _ _ Hinv) as [Hsz Hn].
  pose proof (push_back_after dflt xs x v h v' h' Hrun Hpush) as Hmax.
  destruct (push_back_spec dflt h v xs x Hinv Hmax)
    as (v1 & h1 & Hpush1 & Hpre & _ & Hcases).
  rewrite Hpush in Hpush1. injection Hpush1 as <- <-.
  destruct Hinv as (_ & d & Hd & Hshift & _).
  cbv zeta in *. rewrite Hshift, level_steps_mul in Hcases.
  rewrite tail_offset_eq by lia. rewrite Hsz, branching_eq.
  assert (shift_ v / branching_log = Z.of_nat d) as ->.
  { rewrite Hshift, Z.mul_comm. apply Z.div_mul. done. }
  rewrite cap_branching, branching_eq in Hcases. unfold len in *.
  destruct Hcases as [(? & ? & ? & ?) | [(? & ? & ? & ?) | (? & ? & ? & ?)]].
  - left. repeat split; (done || lia).
  - right; left. repeat split; (done || lia).
  - right; right. repeat split; (done || lia).
Qed.

(** X6. Appending a sequence to the empty vector returns a vector exactly
    when the sequence has at most [max_size = 2^35 + 64] elements. With
    more, the append to the vector of [max_size] elements evaluates
    [1u << shift_] with [shift_ = 35], which is undefined for the 32-bit
    [unsigned]; no other failure (assertion, variant access, null pointer)
    occurs in a sequence of appends. *)
Theorem from_list_outcome xs :
  (len xs ≤ max_size → ∃ v h, from_list dflt xs = Ok (v, h)) ∧
  (max_size < len xs → from_list dflt xs = Err UndefinedBehaviour).
Proof.
  split; [|apply from_list_undefined].
  intros Hmax. destruct (from_list_spec dflt xs Hmax) as (v & h & Hrun & _).
  by exists v, h.
Qed.

(** X7. The statically initialised nodes are never written: in the store
    left by any sequence of appends the two nodes of [empty_] are as they
    were, so the empty vector is still empty (iterating it, with [assert]
    compiled out, yields nothing) and appending to it gives a one-element
    vector. *)
Theorem empty_stays_valid xs v h y :
  from_list dflt xs = Ok (v, h) →
  static_heap dflt `prefix_of` h ∧
  forward_iteration false h empty_ = Ok [] ∧
  ∃ v1 h1, push_back dflt empty_ y h = Ok (v1, h1) ∧
           size v1 = 1 ∧ at_ checked h1 v1 0 = Ok y.
Proof.
  intros Hrun. pose proof (from_list_defined dflt xs v h Hrun) as Hmax.
  destruct (push_all_spec dflt xs (static_heap dflt) empty_ [] (static_heap_inv dflt))
    as (v0 & h0 & Hrun0 & Hpre & _); [done|].
  unfold from_list in Hrun. rewrite Hrun in Hrun0. injection Hrun0 as <- <-.
  pose proof (vektor_inv_mono _ h empty_ [] (prefix_heap_incl _ _ Hpre)
                (static_heap_inv dflt)) as Hinv.
  split; [done|].
  split; [by apply (forward_iteration_spec false h empty_ []); [|left]|].
  destruct (push_back_spec dflt h empty_ [] y Hinv) as (v1 & h1 & Hpush & _ & Hinv1 & _);
    [by vm_compute|].
  exists v1, h1. split; [done|].
  pose proof (vektor_inv_size _ _ _ Hinv1) as [Hsz1 _].
  split; [done|]. by apply (at_spec checked h1 v1 [y] 0).
Qed.

(** X9. Indexed access past the end, on a vector obtained by appending
    [xs]: with [assert] compiled in, [operator[]] fails the assertion of
    [array_for_] for every index that is not below the size; with [assert]
    compiled out it never faults, it reads slot [index & branching_mask] of
    the tail, which holds an element of the last block or, past the last
    element, a default-constructed value (the slots that [push_back] did
    not fill are those of [leaf_t{}]). *)
Theorem at_out_of_range xs v h (idx : Z) :
  from_list dflt xs = Ok (v, h) → size v ≤ idx →
  at_ true h v idx = Err AssertionFailed ∧
  at_ false h v idx
  = Ok (default dflt (xs !! Z.to_nat (tail_offset_ v + idx mod branching))).
Proof.
  intros Hrun Hidx. pose proof (from_list_inv dflt xs v h Hrun) as Hinv.
  pose proof (vektor_inv_size _ _ _ Hinv) as [Hsz Hn].
  unfold size in *. split.
  - unfold at_, array_for_, assert_.
    by destruct (Z.ltb_spec idx (size_ v)); [lia|].
  - destruct (tail_padded xs v h Hrun) as (a & l & Ht & Ha & Hl).
    pose proof (toff_spec (len xs) ltac:(lia)) as (Ht0 & Htm & Htr & _).
    rewrite tail_offset_eq by lia. rewrite Hsz, branching_eq in *.
    unfold at_. rewrite (array_for_tail false h v xs) by (done || lia || by right).
    unfold leaf_ref, deref. rewrite Ht, Ha. cbn [rbind leaf].
    rewrite land_mask. unfold read_leaf, deref. rewrite Ha. cbn [rbind leaf].
    pose proof (Z.mod_pos_bound idx 32 ltac:(lia)) as Hm.
    set (t := toff (len xs)) in *. set (m := idx mod 32) in *.
    assert (length (drop (Z.to_nat t) xs) = Z.to_nat (len xs - t)) as Hdl
      by (rewrite length_drop; unfold len in *; lia).
    destruct (Z.lt_ge_cases m (len xs - t)) as [Hin|Hout].
    + destruct (lookup_lt_is_Some_2 xs (Z.to_nat (t + m))) as [y Hy];
        [unfold len in *; lia|].
      rewrite Hy. change (default dflt (Some y)) with y.
      apply at_index_ok; [lia|].
      rewrite Hl, lookup_app_l by (rewrite Hdl; lia).
      rewrite lookup_drop, <- Hy. f_equal. lia.
    + rewrite (lookup_ge_None_2 xs (Z.to_nat (t + m))) by (unfold len in *; lia).
      apply at_index_ok; [lia|].
      rewrite Hl, lookup_app_r by (rewrite Hdl; lia).
      apply lookup_replicate_2. rewrite Hdl. unfold len in *. lia.
Qed.

(** X10. On a vector obtained by appending, [array_for_] returns the same
    leaf node for any two indices of one block of [branching] elements, so
    a cursor may keep its leaf while it moves inside a block. *)
Theorem array_for_shared_in_block xs v h (i j : Z) :
  from_list dflt xs = Ok (v, h) →
  0 ≤ i < size v → 0 ≤ j < size v → i / branching = j / branching →
  ∃ a, array_for_ checked h v i = Ok a ∧ array_for_ checked h v j = Ok a.
Proof.
  intros Hrun Hi Hj Hij. pose proof (from_list_inv dflt xs v h Hrun) as Hinv.
  pose proof (vektor_inv_size _ _ _ Hinv) as [Hsz Hn].
  unfold size in *. rewrite Hsz, ?branching_eq in *.
  destruct (array_for_block checked h v xs (Z.to_nat i) Hinv)
    as (a & l & Harr & _); [unfold len in *; lia|].
  rewrite Z2Nat.id in Harr by lia. exists a. split; [done|].
  by rewrite <- (array_for_same_block checked h v xs i j Hinv).
Qed.

(** X13. On a vector obtained by appending, not empty or with [assert]
    compiled out, [begin()] and [end()] return cursors whose distance is
    the size, in both directions, and that are equal exactly when the
    vector is empty. *)
Theorem distance_begin_end xs v h :
  from_list dflt xs = Ok (v, h) → 0 < size v ∨ checked = false →
  ∃ b e, begin checked h v = Ok b ∧ end_ checked h v = Ok e ∧
    distance_to b e = size v ∧ distance_to e b = - size v ∧
    equal b e = empty v.
Proof.
  intros Hrun Hok. pose proof (from_list_inv dflt xs v h Hrun) as Hinv.
  pose proof (vektor_inv_size _ _ _ Hinv) as [Hsz Hn].
  unfold size, empty in *. rewrite Hsz in *.
  destruct (begin_spec checked h v xs Hinv Hok) as (b & Hb & _ & Hib & _).
  destruct (end_spec checked h v xs Hinv Hok) as (e & He & _ & Hie & _).
  exists b, e. split; [done|]. split; [done|].
  rewrite !distance_to_eq by lia. rewrite Hib, Hie.
  split; [lia|]. split; [lia|].
  unfold equal. rewrite Hib, Hie. apply Z.eqb_sym.
Qed.

(** X14. Random access composes: on a vector obtained by appending, for
    positions [a] and [a + b] below the size ([b] may be negative),
    advancing the begin cursor by [a] and then by [b] returns the very
    cursor that advancing it by [a + b] returns, and dereferencing it gives
    the element at index [a + b]. *)
Theorem advance_advance xs v h (a b : Z) :
  from_list dflt xs = Ok (v, h) →
  0 ≤ a < size v → 0 ≤ a + b < size v →
  ∃ it0 it1 it2 x,
    begin checked h v = Ok it0 ∧
    advance checked h it0 a = Ok it1 ∧
    advance checked h it1 b = Ok it2 ∧
    advance checked h it0 (a + b) = Ok it2 ∧
    dereference h it2 = Ok x ∧ at_ checked h v (a + b) = Ok x.
Proof.
  intros Hrun Ha Hab. pose proof (from_list_inv dflt xs v h Hrun) as Hinv.
  pose proof (vektor_inv_size _ _ _ Hinv) as [Hsz Hn].
  unfold size in *. rewrite Hsz in *.
  destruct (cursor_at_begin h v xs a Hinv Ha) as (it0 & it1 & _ & Hb & Ha1 & Hc1 & _).
  destruct (cursor_at_begin h v xs (a + b) Hinv Hab)
    as (it0' & it2 & x & Hb' & Ha2 & Hc2 & Hx & Hder).
  rewrite Hb in Hb'. injection Hb' as <-.
  exists it0, it1, it2, x. repeat (split; [done|]). split.
  - by rewrite (advance_cursor checked h v xs it1 a b Hinv).
  - split; [done|]. split; [done|]. rewrite <- (Z2Nat.id (a + b)) by lia.
    by apply (at_spec checked h v xs).
Qed.

(** X15. Stepping agrees with advancing: on a vector obtained by
    appending, for the cursor at a position [k] below the size, [++] (when
    [k + 1] is below the size) returns the cursor that advancing by 1
    returns, which is the one at [k + 1], and [--] on it comes back to the
    cursor at [k]; [--] (when [k] is positive) returns the cursor that
    advancing by -1 returns, and [++] on it comes back. *)
Theorem increment_decrement_advance xs v h (k : Z) :
  from_list dflt xs = Ok (v, h) → 0 ≤ k < size v →
  ∃ it0 it,
    begin checked h v = Ok it0 ∧ advance checked h it0 k = Ok it ∧
    (k + 1 < size v →
       ∃ it', increment checked h it = Ok it' ∧
              advance checked h it 1 = Ok it' ∧
              advance checked h it0 (k + 1) = Ok it' ∧
              decrement checked h it' = Ok it) ∧
    (0 < k →
       ∃ it', decrement checked h it = Ok it' ∧
              advance checked h it (-1) = Ok it' ∧
              advance checked h it0 (k - 1) = Ok it' ∧
              increment checked h it' = Ok it).
Proof.
  intros Hrun Hk. pose proof (from_list_inv dflt xs v h Hrun) as Hinv.
  pose proof (vektor_inv_size _ _ _ Hinv) as [Hsz Hn].
  unfold size in *. rewrite Hsz in *.
  destruct (cursor_at_begin h v xs k Hinv Hk) as (it0 & it & _ & Hb & Ha & Hc & _).
  exists it0, it. split; [done|]. split; [done|]. split.
  - intros Hk1.
    destruct (cursor_at_begin h v xs (k + 1) Hinv ltac:(lia))
      as (it0' & it' & _ & Hb' & Ha' & Hc' & _).
    rewrite Hb in Hb'. injection Hb' as <-.
    exists it'. split; [|split; [|split; [done|]]].
    + by rewrite (increment_cursor checked h v xs it k Hinv) by (done || lia).
    + by rewrite (advance_cursor checked h v xs it k 1 Hinv) by (done || lia).
    + rewrite (decrement_cursor checked h v xs it' (k + 1) Hinv) by (done || lia).
      by replace (k + 1 - 1) with k by lia.
  - intros Hk0.
    destruct (cursor_at_begin h v xs (k - 1) Hinv ltac:(lia))
      as (it0' & it' & _ & Hb' & Ha' & Hc' & _).
    rewrite Hb in Hb'. injection Hb' as <-.
    exists it'. split; [|split; [|split; [done|]]].
    + by rewrite (decrement_cursor checked h v xs it k Hinv) by (done || lia).
    + rewrite (advance_cursor checked h v xs it k (-1) Hinv) by (done || lia).
      by replace (k + -1) with (k - 1) by lia.
    + rewrite (increment_cursor checked h v xs it' (k - 1) Hinv) by (done || lia).
      by replace (k - 1 + 1) with k by lia.
Qed.

(** X16. The end cursor of a non-empty vector obtained by appending:
    [--end()] is the cursor that [begin() + (size - 1)] returns and
    dereferences to the last element; [++] on that cursor returns [end()]
    again when the size is not a multiple of [branching] or [assert] is
    compiled out, and so does, with [assert] compiled out,
    [begin() + size]. *)
Theorem end_steps xs v h :
  from_list dflt xs = Ok (v, h) → 0 < size v →
  ∃ e it0 it x,
    end_ checked h v = Ok e ∧ begin checked h v = Ok it0 ∧
    decrement checked h e = Ok it ∧
    advance checked h it0 (size v - 1) = Ok it ∧
    dereference h it = Ok x ∧ at_ checked h v (size v - 1) = Ok x ∧
    last xs = Some x ∧
    (size v mod branching ≠ 0 ∨ checked = false →
     increment checked h it = Ok e) ∧
    (checked = false → advance checked h it0 (size v) = Ok e).
Proof.
  intros Hrun Hpos. pose proof (from_list_inv dflt xs v h Hrun) as Hinv.
  pose proof (vektor_inv_size _ _ _ Hinv) as [Hsz Hn].
  unfold size in *. rewrite Hsz in *.
  destruct (end_spec checked h v xs Hinv (or_introl Hpos)) as (e & He & _).
  destruct (cursor_at_begin h v xs (len xs - 1) Hinv ltac:(lia))
    as (it0 & it & x & Hb & Ha & Hc & Hx & Hder).
  exists e, it0, it, x. repeat (split; [done|]).
  split; [by rewrite (decrement_end checked h v xs e Hinv Hpos He)|].
  repeat (split; [done|]). split; [|split; [|split]].
  - rewrite <- (Z2Nat.id (len xs - 1)) by lia. by apply (at_spec checked h v xs).
  - rewrite last_lookup, <- Hx. f_equal. unfold len. lia.
  - intros Hok. rewrite branching_eq in Hok.
    by rewrite (increment_to_end checked h v xs it Hinv Hpos Hok Hc).
  - intros Hc0. rewrite begin_cursor in Hb.
    rewrite <- He. replace (len xs) with (len xs - 0) at 1 by lia.
    by apply (advance_to_end checked h v xs it0 0 Hinv).
Qed.

(** X17. Cursors survive appends: a cursor over [v] taken before
    [v.push_back(x)] dereferences to the same element in the store left by
    the call, and advancing, incrementing and decrementing it inside [v]
    return there the cursors they returned before. *)
Theorem cursor_survives_push_back xs x v h v' h' (k : Z) :
  from_list dflt xs = Ok (v, h) → push_back dflt v x h = Ok (v', h') →
  0 ≤ k < size v →
  ∃ it0 it y,
    begin checked h v = Ok it0 ∧ advance checked h it0 k = Ok it ∧
    dereference h it = Ok y ∧ dereference h' it = Ok y ∧
    (∀ n, 0 ≤ k + n < size v →
       ∃ it', advance checked h it n = Ok it' ∧
              advance checked h' it n = Ok it') ∧
    (k + 1 < size v →
       ∃ it', increment checked h it = Ok it' ∧
              increment checked h' it = Ok it') ∧
    (0 < k →
       ∃ it', decrement checked h it = Ok it' ∧
              decrement checked h' it = Ok it').
Proof.
  intros Hrun Hpush Hk. pose proof (from_list_inv dflt xs v h Hrun) as Hinv.
  pose proof (vektor_inv_size _ _ _ Hinv) as [Hsz Hn].
  unfold size in *. rewrite Hsz in *.
  destruct (push_back_inv dflt v x h v' h' Hpush) as (Hpre & _).
  apply prefix_heap_incl in Hpre.
  pose proof (vektor_inv_mono h h' v xs Hpre Hinv) as Hinv'.
  destruct (cursor_at_begin h v xs k Hinv Hk) as (it0 & it & y & Hb & Ha & Hc & Hy & Hder).
  pose proof (cursor_of_mono h h' v k it Hpre Hc) as Hc'.
  assert (∀ j, 0 ≤ j < len xs →
            ∃ it', cursor_of checked h v j = Ok it' ∧
                   cursor_of checked h' v j = Ok it') as Hboth.
  { intros j Hj.
    destruct (cursor_at_begin h v xs j Hinv Hj) as (_ & it' & _ & _ & _ & Hcj & _).
    exists it'. split; [done|]. by apply (cursor_of_mono h h'). }
  exists it0, it, y. repeat (split; [done|]). split; [|split; [|split]].
  - unfold dereference in *. by apply (read_leaf_mono h h').
  - intros n Hkn. destruct (Hboth (k + n) Hkn) as (it' & H1 & H2).
    exists it'. by rewrite (advance_cursor checked h v xs it k n),
      (advance_cursor checked h' v xs it k n).
  - intros Hk1. destruct (Hboth (k + 1) ltac:(lia)) as (it' & H1 & H2).
    exists it'. by rewrite (increment_cursor checked h v xs it k),
      (increment_cursor checked h' v xs it k) by (done || lia).
  - intros Hk0. destruct (Hboth (k - 1) ltac:(lia)) as (it' & H1 & H2).
    exists it'. by rewrite (decrement_cursor checked h v xs it k),
      (decrement_cursor checked h' v xs it k) by (done || lia).
Qed.
End Appends.

Section Paths.
Context {T : Type}.
Implicit Types (h : heap T) (nd : node_ptr).

(** X11. [make_path_ (level, node)], for a [level] of [d] steps of
    [branching_log], makes exactly [d] nodes and changes no other; the
    result leads to [node]: the loop of [array_for_] started at it with
    that level arrives at [node] for every index below [branching]. With
    [level = 0] it makes nothing and returns [node]. *)
Theorem make_path_chain (d : nat) nd h :
  (d ≤ 12)%nat →
  ∃ p h', make_path_ (branching_log * Z.of_nat d) nd h = Ok (p, h') ∧
    h `prefix_of` h' ∧ length h' = (length h + d)%nat ∧
    (d = 0%nat → p = nd) ∧
    ∀ i, 0 ≤ i < branching →
      descend d h' (branching_log * Z.of_nat d) p i = Ok nd.
Proof.
  unfold make_path_. rewrite level_steps_mul. revert h.
  induction d as [|d IH]; intros h Hd.
  - exists nd, h. rewrite Z.mul_0_r, make_path_rec_0.
    split; [done|]. split; [done|]. split; [lia|]. split; [done|].
    intros i _. apply descend_0.
  - destruct (IH h ltac:(lia)) as (p1 & h1 & Hrun & Hpre & Hlen & _ & Hdesc).
    rewrite make_path_rec_S by (unfold branching_log; lia).
    rewrite level_pred by done. rewrite (mbind_ok _ _ _ _ _ Hrun).
    eexists _, _. split; [reflexivity|].
    split; [etrans; [exact Hpre | by apply prefix_app_r]|].
    split; [rewrite length_app; simpl; lia|]. split; [done|].
    intros i Hi. rewrite branching_eq in Hi.
    rewrite descend_S by (unfold branching_log; lia).
    unfold deref. rewrite lookup_app_r, Nat.sub_diag by lia.
    cbn [lookup list_lookup rbind inner]. unfold shr64.
    destruct (Z.ltb_spec (branching_log * Z.of_nat (S d)) 64);
      [|unfold branching_log in *; lia].
    cbn [rbind]. rewrite shiftr_level, land_mask.
    pose proof (cap_pos d). rewrite Z.div_small by lia.
    change (at_index _ (0 mod 32)) with (Ok (A:=node_ptr) p1). cbn [rbind].
    rewrite level_pred by done.
    apply (descend_mono d h1); [by apply prefix_heap_incl, prefix_app_r|].
    apply Hdesc. by rewrite branching_eq.
Qed.
End Paths.

Section Bounds.
Context {T : Type} (dflt : T) (checked : bool).
Implicit Types (h : heap T) (xs ys : list T) (v : vektor) (it : iterator).



(** X20. Dereferencing the end cursor does not fault: on a vector obtained
    by appending [xs], [*end()] reads a slot of the tail. When the size is
    not a multiple of [branching] it is the first slot past the last
    element, which holds a default-constructed value; when it is, [end()]
    points at the start of the tail and the read returns the first element
    of the last block, [xs[size - branching]]. *)
Theorem dereference_end xs v h e :
  from_list dflt xs = Ok (v, h) → 0 < size v ∨ checked = false →
  end_ checked h v = Ok e →
  dereference h e
  = Ok (if size v mod branching =? 0
        then default dflt (xs !! Z.to_nat (size v - branching))
        else dflt).
Proof.
  intros Hrun Hok He. pose proof (from_list_inv dflt xs v h Hrun) as Hinv.
  pose proof (vektor_inv_size _ _ _ Hinv) as [Hsz Hn].
  unfold size in *. rewrite Hsz, branching_eq in *.
  rewrite (end_eq checked h v xs Hinv Hok) in He.
  destruct (tail_padded dflt xs v h Hrun) as (a & l & Ht & Ha & Hl).
  unfold leaf_ref, deref in He. rewrite Ht, Ha in He.
  cbn [rbind leaf] in He. injection He as <-.
  unfold dereference, read_leaf, deref. cbn [curr_ leaf_of offset].
  rewrite Ha. cbn [rbind leaf].
  pose proof (Z.mod_pos_bound (len xs) 32 ltac:(lia)) as Hmod.
  pose proof (Z.div_mod (len xs) 32 ltac:(lia)) as Hdm.
  pose proof (toff_spec (len xs) ltac:(lia)) as (Ht0 & Htm & Htr & Htlt).
  set (t := toff (len xs)) in *.
  assert (length (drop (Z.to_nat t) xs) = Z.to_nat (len xs - t)) as Hdl
    by (rewrite length_drop; unfold len in *; lia).
  pose proof (Z.div_mod t 32 ltac:(lia)) as Htdm.
  destruct (Z.eqb_spec (len xs mod 32) 0) as [Hz|Hnz].
  - rewrite Hz. apply at_index_ok; [lia|]. rewrite Hl.
    destruct (Z.lt_ge_cases 0 (len xs)) as [Hpos|Hzero].
    + assert (t = len xs - 32) as Ht32 by lia.
      destruct (lookup_lt_is_Some_2 xs (Z.to_nat (len xs - 32))) as [y Hy];
        [unfold len in *; lia|].
      rewrite Hy. change (default dflt (Some y)) with y.
      rewrite lookup_app_l by (rewrite Hdl; lia).
      rewrite lookup_drop, <- Hy. f_equal. lia.
    + assert (len xs = 0) as Hlen0 by lia. destruct xs; [|done].
      reflexivity.
  - assert (len xs - t = len xs mod 32) as Hk by lia.
    apply at_index_ok; [lia|].
    rewrite Hl, lookup_app_r by (rewrite Hdl; lia).
    apply lookup_replicate_2. rewrite Hdl. unfold len in *. lia.
Qed.
End Bounds.

(** ** Instances *)

Lemma push_back_builds_sequence_witness :
  len [10; 20; 30] ≤ max_size ∧
  from_list 0 [10; 20; 30] = Ok (vektor3, heap3) ∧
  size vektor3 = 3 ∧ at_ true heap3 vektor3 1 = Ok 20.
Proof.
  assert (len [10; 20; 30] ≤ max_size) as Hlen by concrete.
  assert (from_list 0 [10; 20; 30] = Ok (vektor3, heap3)) as Hrun by concrete.
  destruct (push_back_builds_sequence 0 true [10; 20; 30]) as [_ Hall].
  destruct (Hall vektor3 heap3 Hrun) as (Hsz & Hat & _).
  split; [exact Hlen|]. split; [exact Hrun|]. split; [exact Hsz|].
  exact (Hat 1%nat 20 eq_refl).
Defined.

Lemma push_back_persistent_witness :
  from_list 0 [10; 20; 30] = Ok (vektor3, heap3) ∧
  push_back 0 vektor3 999 heap3 = Ok (vektor4, heap4) ∧
  heap3 `prefix_of` heap4 ∧ size vektor3 = 3 ∧
  at_ true heap4 vektor4 3 = Ok 999.
Proof.
  assert (from_list 0 [10; 20; 30] = Ok (vektor3, heap3)) as Hrun by concrete.
  assert (push_back 0 vektor3 999 heap3 = Ok (vektor4, heap4)) as Hpush by concrete.
  destruct (push_back_persistent 0 true [10; 20; 30] 999) as [_ Hall].
  destruct (Hall vektor3 heap3 vektor4 heap4 Hrun Hpush)
    as (Hpre & Hsz & _ & _ & Hlast).
  split; [exact Hrun|]. split; [exact Hpush|]. split; [exact Hpre|].
  split; [exact Hsz | exact Hlast].
Defined.

Lemma first_root_overflow_witness :
  (7 < 1025)%nat ∧
  ∃ v h v' h', appended 1024 = Ok (v, h) ∧
    push_back 0 v 1024 h = Ok (v', h') ∧ at_ true h' v' 7 = Ok 7.
Proof.
  assert (7 < 1025)%nat as Hlt by lia. split; [exact Hlt|].
  destruct (first_root_overflow true)
    as [(v & h & v' & h' & Hrun & Hpush & _ & _ & _ & _ & Hat) _].
  exists v, h, v', h'. split; [exact Hrun|]. split; [exact Hpush|].
  exact (Hat 7%nat Hlt).
Defined.

Lemma shift_least_positive_multiple_witness :
  from_list 0 (zs 32) = Ok (vektor32, heap32) ∧
  least_shift 1 (tail_offset_ vektor32) (shift_ vektor32).
Proof.
  assert (from_list 0 (zs 32) = Ok (vektor32, heap32)) as Hrun by concrete.
  split; [exact Hrun|].
  exact (shift_least_positive_multiple 0 (zs 32) vektor32 heap32 Hrun).
Defined.

Lemma advance_begin_dereference_witness :
  from_list 0 (zs 32) = Ok (vektor32, heap32) ∧ Z.of_nat 17 < size vektor32 ∧
  ∃ it it' x,
    begin true heap32 vektor32 = Ok it ∧
    advance true heap32 it (Z.of_nat 17) = Ok it' ∧
    dereference heap32 it' = Ok x ∧
    at_ true heap32 vektor32 (Z.of_nat 17) = Ok x.
Proof.
  assert (from_list 0 (zs 32) = Ok (vektor32, heap32)) as Hrun by concrete.
  assert (Z.of_nat 17 < size vektor32) as Hk by concrete.
  split; [exact Hrun|]. split; [exact Hk|].
  exact (advance_begin_dereference 0 true (zs 32) vektor32 heap32 17 Hrun Hk).
Defined.

Lemma push_back_allocations_witness :
  from_list 0 (zs 32) = Ok (vektor32, heap32) ∧
  push_back 0 vektor32 32 heap32 = Ok (vektor33, heap33) ∧
  heap32 `prefix_of` heap33 ∧
  1 ≤ len heap33 - len heap32 ≤ shift_ vektor32 / branching_log + 2.
Proof.
  assert (from_list 0 (zs 32) = Ok (vektor32, heap32)) as Hrun by concrete.
  assert (push_back 0 vektor32 32 heap32 = Ok (vektor33, heap33)) as Hpush
    by concrete.
  destruct (push_back_allocations 0 (zs 32) 32) as [_ Hall].
  destruct (Hall vektor32 heap32 vektor33 heap33 Hrun Hpush) as (Hpre & Hcount & _).
  split; [exact Hrun|]. split; [exact Hpush|].
  split; [exact Hpre | exact Hcount].
Defined.

Lemma end_position_fails_assertion_witness :
  increment true heap32 cursor31 = Err AssertionFailed ∧
  advance true heap32 cursor0 32 = Err AssertionFailed.
Proof.
  destruct (end_position_fails_assertion 0) as (Hinc & Hadv & _). split.
  - apply (Hinc heap32 cursor31 1); concrete.
  - apply (Hadv heap32 cursor0 32); concrete.
Defined.

Lemma push_back_keeps_store_witness :
  push_back 0 vektor3 999 heap3 = Ok (vektor4, heap4) ∧
  heap3 `prefix_of` heap4 ∧ tail_ vektor4 = Some (length heap3).
Proof.
  assert (push_back 0 vektor3 999 heap3 = Ok (vektor4, heap4)) as Hpush by concrete.
  destruct (push_back_keeps_store 0 vektor3 999 heap3 vektor4 heap4 Hpush)
    as (Hpre & _ & _ & Ht & _).
  split; [exact Hpush|]. split; [exact Hpre | exact Ht].
Defined.

Lemma push_all_persistent_witness :
  from_list 0 [10; 20; 30] = Ok (vektor3, heap3) ∧
  push_all 0 vektor3 [999] heap3 = Ok (vektor4, heap4) ∧
  from_list 0 ([10; 20; 30] ++ [999]) = Ok (vektor4, heap4) ∧
  at_ true heap4 vektor3 1 = Ok 20.
Proof.
  assert (from_list 0 [10; 20; 30] = Ok (vektor3, heap3)) as Hrun by concrete.
  assert (push_all 0 vektor3 [999] heap3 = Ok (vektor4, heap4)) as Hall by concrete.
  destruct (push_all_persistent 0 true [10; 20; 30] [999] vektor3 heap3
              vektor4 heap4 Hrun Hall) as (Hrun' & _ & _ & Hold & _).
  destruct (Hold 1%nat 20 eq_refl) as (_ & Hat & _).
  split; [exact Hrun|]. split; [exact Hall|]. split; [exact Hrun' | exact Hat].
Defined.

Lemma push_back_fork_witness :
  from_list 0 [10; 20; 30] = Ok (vektor3, heap3) ∧
  push_back 0 vektor3 999 heap3 = Ok (vektor4, heap4) ∧
  push_back 0 vektor3 555 heap4 = Ok (vektor5, heap5) ∧
  at_ true heap5 vektor4 (size vektor3) = Ok 999 ∧
  at_ true heap5 vektor5 (size vektor3) = Ok 555.
Proof.
  assert (from_list 0 [10; 20; 30] = Ok (vektor3, heap3)) as Hrun by concrete.
  assert (push_back 0 vektor3 999 heap3 = Ok (vektor4, heap4)) as Hpush1 by concrete.
  assert (push_back 0 vektor3 555 heap4 = Ok (vektor5, heap5)) as Hpush2 by concrete.
  destruct (push_back_fork 0 true [10; 20; 30] 999 555 vektor3 heap3
              vektor4 heap4 vektor5 heap5 Hrun Hpush1 Hpush2)
    as (_ & _ & Hx & Hy & _).
  split; [exact Hrun|]. split; [exact Hpush1|]. split; [exact Hpush2|].
  split; [exact Hx | exact Hy].
Defined.

Lemma push_back_shares_leaves_witness :
  from_list 0 (zs 32) = Ok (vektor32, heap32) ∧
  push_back 0 vektor32 32 heap32 = Ok (vektor33, heap33) ∧
  0 ≤ 7 < size vektor32 ∧
  ∃ a, array_for_ true heap32 vektor32 7 = Ok a ∧
       array_for_ true heap33 vektor33 7 = Ok a.
Proof.
  assert (0 ≤ 7 < size vektor32) as Hi by concrete.
  assert (size_ vektor32 - tail_offset_ vektor32 = branching) as Hfull by concrete.
  assert (from_list 0 (zs 32) = Ok (vektor32, heap32)) as Hrun by concrete.
  assert (push_back 0 vektor32 32 heap32 = Ok (vektor33, heap33)) as Hpush
    by concrete.
  destruct (push_back_shares_leaves 0 true (zs 32) 32 vektor32 heap32
              vektor33 heap33 7 Hrun Hpush Hi) as (a & Ha & Hshared & _).
  split; [exact Hrun|]. split; [exact Hpush|]. split; [exact Hi|].
  exists a. split; [exact Ha | exact (Hshared (or_intror Hfull))].
Defined.

Lemma push_back_growth_witness :
  from_list 0 (zs 32) = Ok (vektor32, heap32) ∧
  push_back 0 vektor32 32 heap32 = Ok (vektor33, heap33) ∧
  shift_ vektor33 = shift_ vektor32 ∧
  len heap33 - len heap32 = shift_ vektor32 / branching_log + 1.
Proof.
  assert (from_list 0 (zs 32) = Ok (vektor32, heap32)) as Hrun by concrete.
  assert (push_back 0 vektor32 32 heap32 = Ok (vektor33, heap33)) as Hpush
    by concrete.
  split; [exact Hrun|]. split; [exact Hpush|].
  destruct (push_back_growth 0 (zs 32) 32 vektor32 heap32 vektor33 heap33
              Hrun Hpush) as [(Hroom & _) | [(_ & _ & Hs & Ha) | (_ & Hfull & _)]].
  - vm_compute in Hroom. discriminate Hroom.
  - split; [exact Hs | exact Ha].
  - vm_compute in Hfull. discriminate Hfull.
Defined.

Lemma from_list_outcome_witness :
  len [10; 20; 30] ≤ max_size ∧ ∃ v h, from_list 0 [10; 20; 30] = Ok (v, h).
Proof.
  assert (len [10; 20; 30] ≤ max_size) as Hlen by concrete.
  destruct (from_list_outcome 0 [10; 20; 30]) as [Hok _].
  split; [exact Hlen | exact (Hok Hlen)].
Defined.

Lemma empty_stays_valid_witness :
  from_list 0 [10; 20; 30] = Ok (vektor3, heap3) ∧
  static_heap 0 `prefix_of` heap3 ∧
  ∃ v1 h1, push_back 0 empty_ 7 heap3 = Ok (v1, h1) ∧ at_ true h1 v1 0 = Ok 7.
Proof.
  assert (from_list 0 [10; 20; 30] = Ok (vektor3, heap3)) as Hrun by concrete.
  destruct (empty_stays_valid 0 true [10; 20; 30] vektor3 heap3 7 Hrun)
    as (Hpre & _ & v1 & h1 & Hpush & _ & Hat).
  split; [exact Hrun|]. split; [exact Hpre|].
  exists v1, h1. split; [exact Hpush | exact Hat].
Defined.

Lemma tail_offset_bounds_witness :
  0 ≤ size_ vektor33 < 2 ^ 64 ∧ tail_offset_ vektor33 < size_ vektor33 ∧
  tail_offset_ vektor33 mod branching = 0.
Proof.
  assert (0 ≤ size_ vektor33 < 2 ^ 64) as Hsz by concrete.
  assert (0 < size_ vektor33) as Hpos by concrete.
  destruct (tail_offset_bounds vektor33 Hsz) as (Hmod & _ & _ & Hlt & _).
  split; [exact Hsz|]. split; [exact (Hlt Hpos) | exact Hmod].
Defined.

Lemma at_out_of_range_witness :
  from_list 0 [10; 20; 30] = Ok (vektor3, heap3) ∧ size vektor3 ≤ 33 ∧
  at_ true heap3 vektor3 33 = Err AssertionFailed ∧
  at_ false heap3 vektor3 33 = Ok 20.
Proof.
  assert (size vektor3 ≤ 33) as Hidx by concrete.
  assert (from_list 0 [10; 20; 30] = Ok (vektor3, heap3)) as Hrun by concrete.
  destruct (at_out_of_range 0 [10; 20; 30] vektor3 heap3 33 Hrun Hidx)
    as [Hchecked Hunchecked].
  split; [exact Hrun|]. split; [exact Hidx|].
  split; [exact Hchecked | exact Hunchecked].
Defined.

Lemma array_for_shared_in_block_witness :
  from_list 0 (zs 33) = Ok (vektor33, heap33) ∧
  0 ≤ 3 < size vektor33 ∧ 0 ≤ 30 < size vektor33 ∧
  3 / branching = 30 / branching ∧
  ∃ a, array_for_ true heap33 vektor33 3 = Ok a ∧
       array_for_ true heap33 vektor33 30 = Ok a.
Proof.
  assert (0 ≤ 3 < size vektor33) as Hi by concrete.
  assert (0 ≤ 30 < size vektor33) as Hj by concrete.
  assert (3 / branching = 30 / branching) as Hij by concrete.
  assert (from_list 0 (zs 33) = Ok (vektor33, heap33)) as Hrun by concrete.
  split; [exact Hrun|]. split; [exact Hi|]. split; [exact Hj|].
  split; [exact Hij|].
  exact (array_for_shared_in_block 0 true (zs 33) vektor33 heap33 3 30
           Hrun Hi Hj Hij).
Defined.

Lemma make_path_chain_witness :
  (2 ≤ 12)%nat ∧
  ∃ p h', make_path_ (branching_log * Z.of_nat 2) (Some 1%nat) (static_heap 0)
          = Ok (p, h') ∧
          descend 2 h' (branching_log * Z.of_nat 2) p 7 = Ok (Some 1%nat).
Proof.
  assert (2 ≤ 12)%nat as Hd by lia.
  assert (0 ≤ 7 < branching) as Hi by concrete.
  destruct (make_path_chain 2 (Some 1%nat) (static_heap 0) Hd)
    as (p & h' & Hrun & _ & _ & _ & Hdesc).
  split; [exact Hd|]. exists p, h'. split; [exact Hrun | exact (Hdesc 7 Hi)].
Defined.

Lemma distance_to_difference_witness :
  0 ≤ i_ cursor0 < 2 ^ 63 ∧ 0 ≤ i_ cursor31 < 2 ^ 63 ∧
  distance_to cursor0 cursor31 = 31.
Proof.
  assert (0 ≤ i_ cursor0 < 2 ^ 63) as Ha by concrete.
  assert (0 ≤ i_ cursor31 < 2 ^ 63) as Hb by concrete.
  destruct (distance_to_difference cursor0 cursor31 Ha Hb) as (Hd & _).
  split; [exact Ha|]. split; [exact Hb | exact Hd].
Defined.

Lemma distance_begin_end_witness :
  from_list 0 [10; 20; 30] = Ok (vektor3, heap3) ∧ 0 < size vektor3 ∧
  ∃ b e, begin true heap3 vektor3 = Ok b ∧ end_ true heap3 vektor3 = Ok e ∧
         distance_to b e = size vektor3.
Proof.
  assert (0 < size vektor3) as Hpos by concrete.
  assert (from_list 0 [10; 20; 30] = Ok (vektor3, heap3)) as Hrun by concrete.
  destruct (distance_begin_end 0 true [10; 20; 30] vektor3 heap3 Hrun
              (or_introl Hpos)) as (b & e & Hb & He & Hd & _).
  split; [exact Hrun|]. split; [exact Hpos|].
  exists b, e. split; [exact Hb|]. split; [exact He | exact Hd].
Defined.

Lemma advance_advance_witness :
  from_list 0 (zs 33) = Ok (vektor33, heap33) ∧
  0 ≤ 32 < size vektor33 ∧ 0 ≤ 32 + -5 < size vektor33 ∧
  ∃ it0 it1 it2,
    begin true heap33 vektor33 = Ok it0 ∧
    advance true heap33 it0 32 = Ok it1 ∧
    advance true heap33 it1 (-5) = Ok it2 ∧
    advance true heap33 it0 (32 + -5) = Ok it2.
Proof.
  assert (0 ≤ 32 < size vektor33) as Ha by concrete.
  assert (0 ≤ 32 + -5 < size vektor33) as Hab by concrete.
  assert (from_list 0 (zs 33) = Ok (vektor33, heap33)) as Hrun by concrete.
  destruct (advance_advance 0 true (zs 33) vektor33 heap33 32 (-5) Hrun Ha Hab)
    as (it0 & it1 & it2 & x & Hb & H1 & H2 & H3 & _).
  split; [exact Hrun|]. split; [exact Ha|]. split; [exact Hab|].
  exists it0, it1, it2.
  split; [exact Hb|]. split; [exact H1|]. split; [exact H2 | exact H3].
Defined.

Lemma increment_decrement_advance_witness :
  from_list 0 (zs 33) = Ok (vektor33, heap33) ∧
  0 ≤ 31 < size vektor33 ∧ 31 + 1 < size vektor33 ∧
  ∃ it0 it it',
    begin true heap33 vektor33 = Ok it0 ∧
    advance true heap33 it0 31 = Ok it ∧
    increment true heap33 it = Ok it' ∧
    decrement true heap33 it' = Ok it.
Proof.
  assert (0 ≤ 31 < size vektor33) as Hk by concrete.
  assert (31 + 1 < size vektor33) as Hk1 by concrete.
  assert (from_list 0 (zs 33) = Ok (vektor33, heap33)) as Hrun by concrete.
  destruct (increment_decrement_advance 0 true (zs 33) vektor33 heap33 31 Hrun Hk)
    as (it0 & it & Hb & Ha & Hinc & _).
  destruct (Hinc Hk1) as (it' & Hi & _ & _ & Hd).
  split; [exact Hrun|]. split; [exact Hk|]. split; [exact Hk1|].
  exists it0, it, it'.
  split; [exact Hb|]. split; [exact Ha|]. split; [exact Hi | exact Hd].
Defined.

Lemma end_steps_witness :
  from_list 0 [10; 20; 30] = Ok (vektor3, heap3) ∧ 0 < size vektor3 ∧
  size vektor3 mod branching ≠ 0 ∧
  ∃ e it x,
    end_ true heap3 vektor3 = Ok e ∧ decrement true heap3 e = Ok it ∧
    dereference heap3 it = Ok x ∧ last [10; 20; 30] = Some x ∧
    increment true heap3 it = Ok e.
Proof.
  assert (0 < size vektor3) as Hpos by concrete.
  assert (size vektor3 mod branching ≠ 0) as Hmod by concrete.
  assert (from_list 0 [10; 20; 30] = Ok (vektor3, heap3)) as Hrun by concrete.
  destruct (end_steps 0 true [10; 20; 30] vektor3 heap3 Hrun Hpos)
    as (e & it0 & it & x & He & _ & Hdec & _ & Hder & _ & Hlast & Hinc & _).
  split; [exact Hrun|]. split; [exact Hpos|]. split; [exact Hmod|].
  exists e, it, x.
  split; [exact He|]. split; [exact Hdec|]. split; [exact Hder|].
  split; [exact Hlast | exact (Hinc (or_introl Hmod))].
Defined.

Lemma cursor_survives_push_back_witness :
  from_list 0 (zs 32) = Ok (vektor32, heap32) ∧
  push_back 0 vektor32 32 heap32 = Ok (vektor33, heap33) ∧
  0 ≤ 31 < size vektor32 ∧ 0 ≤ 31 + -31 < size vektor32 ∧
  ∃ it0 it y it',
    begin true heap32 vektor32 = Ok it0 ∧
    advance true heap32 it0 31 = Ok it ∧
    dereference heap32 it = Ok y ∧ dereference heap33 it = Ok y ∧
    advance true heap32 it (-31) = Ok it' ∧
    advance true heap33 it (-31) = Ok it'.
Proof.
  assert (0 ≤ 31 < size vektor32) as Hk by concrete.
  assert (0 ≤ 31 + -31 < size vektor32) as Hkn by concrete.
  assert (from_list 0 (zs 32) = Ok (vektor32, heap32)) as Hrun by concrete.
  assert (push_back 0 vektor32 32 heap32 = Ok (vektor33, heap33)) as Hpush
    by concrete.
  destruct (cursor_survives_push_back 0 true (zs 32) 32 vektor32 heap32
              vektor33 heap33 31 Hrun Hpush Hk)
    as (it0 & it & y & Hb & Ha & Hder & Hder' & Hadv & _).
  destruct (Hadv (-31) Hkn) as (it' & H1 & H2).
  split; [exact Hrun|]. split; [exact Hpush|]. split; [exact Hk|].
  split; [exact Hkn|]. exists it0, it, y, it'.
  split; [exact Hb|]. split; [exact Ha|]. split; [exact Hder|].
  split; [exact Hder'|]. split; [exact H1 | exact H2].
Defined.

Lemma iteration_outcomes_witness :
  from_list 0 (zs 32) = Ok (vektor32, heap32) ∧ 0 < len (zs 32) ∧
  forward_iteration false heap32 vektor32 = Ok (zs 32) ∧
  reverse_iteration true heap32 vektor32 = Ok (rev (zs 32)).
Proof.
  assert (0 < len (zs 32)) as Hpos by concrete.
  assert (from_list 0 (zs 32) = Ok (vektor32, heap32)) as Hrun by concrete.
  destruct (iteration_outcomes 0 (zs 32) vektor32 heap32 Hrun)
    as (Hfwd & _ & _ & _ & Hrev & _).
  split; [exact Hrun|]. split; [exact Hpos|].
  split; [exact Hfwd | exact (Hrev Hpos)].
Defined.


Lemma dereference_end_witness :
  from_list 0 (zs 32) = Ok (vektor32, heap32) ∧ 0 < size vektor32 ∧
  ∃ e, end_ true heap32 vektor32 = Ok e ∧ dereference heap32 e = Ok 0.
Proof.
  assert (0 < size vektor32) as Hpos by concrete.
  assert (from_list 0 (zs 32) = Ok (vektor32, heap32)) as Hrun by concrete.
  assert (∃ e, end_ true heap32 vektor32 = Ok e) as [e He]
    by (eexists; vm_compute; reflexivity).
  split; [exact Hrun|]. split; [exact Hpos|]. exists e. split; [exact He|].
  exact (dereference_end 0 true (zs 32) vektor32 heap32 e Hrun (or_introl Hpos) He).
Defined.
